(** * server/index.ts: instrumented request pipeline and bootstrap gate

    A shallow embedding of the Express bootstrap module [server/index.ts]
    (and of its two sibling revisions, which differ in the truncation marker
    of the response logger and have no bootstrap gate).

    - [Js]: the fragment of JavaScript the module relies on: strings as
      sequences of UTF-16 code units, values, truthiness, template-literal
      conversion, the conversion [x | 0], [JSON.stringify], abrupt
      completions.
    - [Logger]: the response-logging middleware (closure variables, the
      [res.json] wrapper, the ["finish"] listener).
    - [Translator]: the error-handling middleware.
    - [Express]: the part of Express's response object the module calls.
    - [Bootstrap]: the module's top level, the initialization promise, the
      gate middleware and Express's layer stack, as an event-driven state
      machine.
    - [Samples], [Cors] (the header middleware), [Instrumented] (the
      response object behind the logger), [More] (further vocabulary),
      [Sibling] (the sibling revisions' [initializeApp]).
    - The properties: [JsFacts], [LoggerFacts], [TranslatorFacts],
      [BootstrapFacts]; then [LoggerMore], [TranslatorMore], [CorsFacts],
      [BootstrapMore], [RequestFacts], [SiblingFacts], [RequestsOnce],
      [ExportFacts], [ModeFacts], [SequenceFacts]. *)

From Stdlib Require Import ZArith List String Ascii Bool Lia DecimalString.
From stdpp Require Import base list gmap.
Import ListNotations.
Open Scope Z_scope.
Set Warnings "-register-all".

(* ------------------------------------------------------------------------- *)
(** * JavaScript fragment *)
(* ------------------------------------------------------------------------- *)
Module Js.

(** A JavaScript string is a sequence of UTF-16 code units; [s.length] counts
    code units. *)
Definition jsstring : Type := list N.

(** An ASCII literal of the source text, as code units. *)
Definition lit (s : string) : jsstring := map N_of_ascii (list_ascii_of_string s).

(** The double-quote character (U+0022). *)
Definition dquote : jsstring := [34%N].

Definition str_length (s : jsstring) : Z := Z.of_nat (length s).

(** [s.slice(b, e)] for non-negative indices. *)
Definition slice (s : jsstring) (b e : nat) : jsstring := take (e - b) (drop b s).

(** [s.startsWith(p)]. *)
Fixpoint startsWith (s p : jsstring) : bool :=
  match p, s with
  | [], _ => true
  | _ :: _, [] => false
  | c :: p', d :: s' => N.eqb c d && startsWith s' p'
  end.

Definition str_eqb (a b : jsstring) : bool := bool_decide (a = b).

(** [Array.prototype.join] on already converted elements. *)
Fixpoint join (sep : jsstring) (l : list jsstring) : jsstring :=
  match l with
  | [] => []
  | [x] => x
  | x :: r => x ++ sep ++ join sep r
  end.

(** Decimal rendering of an integer-valued number. *)
Definition dec (z : Z) : jsstring := lit (NilZero.string_of_int (Z.to_int z)).

(** Values.  [VNum] holds the integer-valued numbers (status codes, clock
    differences); [VNaN] and [VBigInt] are kept because the first is falsy and
    the second is the simplest value [JSON.stringify] refuses.  The field list
    of [VObj] is the object's own enumerable properties in enumeration
    order. *)
Inductive jsval : Type :=
| VUndefined
| VNull
| VBool (b : bool)
| VNum (z : Z)
| VNaN
| VStr (s : jsstring)
| VBigInt (z : Z)
| VArr (elems : list jsval)
| VObj (fields : list (jsstring * jsval)).

(** ToBoolean. *)
Definition truthy (v : jsval) : bool :=
  match v with
  | VUndefined | VNull | VNaN => false
  | VBool b => b
  | VNum z | VBigInt z => negb (z =? 0)
  | VStr s => match s with [] => false | _ :: _ => true end
  | VArr _ | VObj _ => true
  end.

(** [a || b]. *)
Definition or_else (a b : jsval) : jsval := if truthy a then a else b.

(** Completion of an evaluation: a value, or a thrown value. *)
Inductive completion (A : Type) : Type :=
| Normal (a : A)
| Throw (e : jsval).
Arguments Normal {A} a.
Arguments Throw {A} e.

Definition bind {A B : Type} (c : completion A) (k : A -> completion B) : completion B :=
  match c with
  | Normal a => k a
  | Throw e => Throw e
  end.

#[global] Instance completion_ret : MRet completion := @Normal.
#[global] Instance completion_bind : MBind completion := fun A B k c => bind c k.

Definition throws {A : Type} (c : completion A) : bool :=
  match c with Normal _ => false | Throw _ => true end.

Definition type_error (msg : string) : jsval :=
  VObj [(lit "name", VStr (lit "TypeError")); (lit "message", VStr (lit msg))].

(** Property lookup in a field list. *)
Fixpoint assoc (k : jsstring) (fs : list (jsstring * jsval)) : jsval :=
  match fs with
  | [] => VUndefined
  | (k', v) :: r => if str_eqb k k' then v else assoc k r
  end.

(** [o.k]: a TypeError on [undefined] and [null], [undefined] on the other
    primitives of the fragment and on arrays (for the names used here). *)
Definition get_prop (o : jsval) (k : jsstring) : completion jsval :=
  match o with
  | VUndefined | VNull => Throw (type_error "Cannot read properties of undefined")
  | VObj fs => Normal (assoc k fs)
  | _ => Normal VUndefined
  end.

(** ** Template-literal conversion (ToString) *)
Fixpoint to_string (v : jsval) : jsstring :=
  match v with
  | VUndefined => lit "undefined"
  | VNull => lit "null"
  | VBool true => lit "true"
  | VBool false => lit "false"
  | VNum z | VBigInt z => dec z
  | VNaN => lit "NaN"
  | VStr s => s
  | VArr l =>
      join (lit ",")
        ((fix elems (l : list jsval) : list jsstring :=
            match l with
            | [] => []
            | x :: r =>
                match x with
                | VUndefined | VNull => []
                | _ => to_string x
                end :: elems r
            end) l)
  | VObj _ => lit "[object Object]"
  end.

(** ** ToNumber on strings, and [x | 0] (ToInt32) *)

(** The code points of WhiteSpace and LineTerminator. *)
Definition is_white_space (c : N) : bool :=
  existsb (N.eqb c) [9; 10; 11; 12; 13; 32; 160; 5760; 8232; 8233; 8239; 8287; 12288; 65279]%N
  || ((8192 <=? c)%N && (c <=? 8202)%N).

Fixpoint skip_white (s : jsstring) : jsstring :=
  match s with
  | c :: r => if is_white_space c then skip_white r else s
  | [] => []
  end.

Definition trim (s : jsstring) : jsstring := rev (skip_white (rev (skip_white s))).

Definition digit_value (c : N) : option N :=
  if (48 <=? c)%N && (c <=? 57)%N then Some (c - 48)%N
  else if (97 <=? c)%N && (c <=? 102)%N then Some (c - 87)%N
  else if (65 <=? c)%N && (c <=? 70)%N then Some (c - 55)%N
  else None.

(** The longest run of digits of [base] at the head of [s]: its value on
    top of [acc], the number of digits on top of [n], and what follows. *)
Fixpoint digits (base acc : N) (n : nat) (s : jsstring) : N * nat * jsstring :=
  match s with
  | c :: r =>
      match digit_value c with
      | Some d => if (d <? base)%N then digits base (acc * base + d)%N (S n) r else (acc, n, s)
      | None => (acc, n, s)
      end
  | [] => (acc, n, [])
  end.

(** The mathematical value of a numeric string: not a number, infinite, or
    plus or minus [mantissa] times ten to the [exponent]. *)
Inductive numeric : Type :=
| NotANumber
| Infinite
| Finite (negative : bool) (mantissa : N) (exponent : Z).

(** SignedInteger, up to the end of the string. *)
Definition signed_integer (s : jsstring) : option Z :=
  let '(negative, r) :=
    match s with
    | 43%N :: r => (false, r)
    | 45%N :: r => (true, r)
    | _ => (false, s)
    end in
  match digits 10 0 0 r with
  | (v, S _, []) => Some (if negative then - Z.of_N v else Z.of_N v)
  | _ => None
  end.

(** StrUnsignedDecimalLiteral, up to the end of the string. *)
Definition unsigned_decimal (negative : bool) (s : jsstring) : numeric :=
  if str_eqb s (lit "Infinity") then Infinite
  else
    let '(ip, ni, r1) := digits 10 0 0 s in
    let '(m, nf, r2) :=
      match r1 with
      | 46%N :: r => digits 10 ip 0 r
      | _ => (ip, 0%nat, r1)
      end in
    if (ni + nf =? 0)%nat then NotANumber
    else
      match r2 with
      | [] => Finite negative m (- Z.of_nat nf)
      | c :: r3 =>
          if (c =? 101)%N || (c =? 69)%N then
            match signed_integer r3 with
            | Some e => Finite negative m (e - Z.of_nat nf)
            | None => NotANumber
            end
          else NotANumber
      end.

(** NonDecimalIntegerLiteral ([0x], [0o], [0b], either case), when the
    string starts with such a prefix. *)
Definition non_decimal (s : jsstring) : option numeric :=
  match s with
  | 48%N :: p :: r =>
      let base :=
        if (p =? 120)%N || (p =? 88)%N then Some 16%N
        else if (p =? 111)%N || (p =? 79)%N then Some 8%N
        else if (p =? 98)%N || (p =? 66)%N then Some 2%N
        else None in
      match base with
      | Some b =>
          Some match digits b 0 0 r with
               | (v, S _, []) => Finite false v 0
               | _ => NotANumber
               end
      | None => None
      end
  | _ => None
  end.

(** StringToNumber, before the rounding to a double. *)
Definition string_to_numeric (s : jsstring) : numeric :=
  match trim s with
  | [] => Finite false 0 0
  | t =>
      match non_decimal t with
      | Some n => n
      | None =>
          match t with
          | 43%N :: r => unsigned_decimal false r
          | 45%N :: r => unsigned_decimal true r
          | _ => unsigned_decimal false t
          end
      end
  end.

(** The integer part of the double nearest to [a / b] (ties to even), for
    [0 <= a] and [0 < b]; [0] when that double is infinite. *)
Definition rounded_integer (a b : Z) : Z :=
  if a =? 0 then 0
  else
    let e0 := Z.log2 a - Z.log2 b in
    let below := if 0 <=? e0 then a <? b * 2 ^ e0 else a * 2 ^ (- e0) <? b in
    let e := if below then e0 - 1 else e0 in
    if e <? -1022 then 0
    else
      let k := 52 - e in
      let num := if 0 <=? k then a * 2 ^ k else a in
      let den := if 0 <=? k then b else b * 2 ^ (- k) in
      let m0 := num / den in
      let r := num mod den in
      let m := if (den <? 2 * r) || ((den =? 2 * r) && Z.odd m0) then m0 + 1 else m0 in
      let t := if 0 <=? k then m / 2 ^ k else m * 2 ^ (- k) in
      if 2 ^ 1024 <=? t then 0 else t.

(** ToInt32 of an integer. *)
Definition wrap_int32 (z : Z) : Z :=
  let w := z mod 2 ^ 32 in
  if w <? 2 ^ 31 then w else w - 2 ^ 32.

Definition int32_of_numeric (n : numeric) : Z :=
  match n with
  | NotANumber | Infinite => 0
  | Finite negative m e =>
      let t := if 0 <=? e then rounded_integer (Z.of_N m * 10 ^ e) 1
               else rounded_integer (Z.of_N m) (10 ^ (- e)) in
      wrap_int32 (if negative then - t else t)
  end.

(** [x | 0]: a BigInt does not mix with the number; an array or object is
    first converted to its string. *)
Definition to_int32 (v : jsval) : completion Z :=
  match v with
  | VUndefined | VNull | VNaN => Normal 0
  | VBool b => Normal (if b then 1 else 0)
  | VNum z => Normal (wrap_int32 z)
  | VBigInt _ =>
      Throw (type_error "Cannot mix BigInt and other types, use explicit conversions")
  | VStr s => Normal (int32_of_numeric (string_to_numeric s))
  | VArr _ | VObj _ => Normal (int32_of_numeric (string_to_numeric (to_string v)))
  end.

(** ** JSON.stringify *)

Definition hex_digit (d : N) : N := if (d <? 10)%N then (48 + d)%N else (87 + d)%N.

(** [\uXXXX] with lowercase hexadecimal digits. *)
Definition unicode_escape (c : N) : jsstring :=
  [92%N; 117%N;
   hex_digit ((c / 4096) mod 16)%N; hex_digit ((c / 256) mod 16)%N;
   hex_digit ((c / 16) mod 16)%N; hex_digit (c mod 16)%N].

Definition is_high_surrogate (c : N) : bool := (55296 <=? c)%N && (c <=? 56319)%N.
Definition is_low_surrogate (c : N) : bool := (56320 <=? c)%N && (c <=? 57343)%N.

(** One code unit that is not a surrogate. *)
Definition escape_unit (c : N) : jsstring :=
  if (c =? 8)%N then lit "\b"
  else if (c =? 9)%N then lit "\t"
  else if (c =? 10)%N then lit "\n"
  else if (c =? 12)%N then lit "\f"
  else if (c =? 13)%N then lit "\r"
  else if (c =? 34)%N then [92%N; 34%N]
  else if (c =? 92)%N then [92%N; 92%N]
  else if (c <? 32)%N then unicode_escape c
  else [c].

Fixpoint quote_units (s : jsstring) : jsstring :=
  match s with
  | [] => []
  | c :: r =>
      if is_high_surrogate c then
        match r with
        | d :: r' =>
            if is_low_surrogate d then c :: d :: quote_units r'
            else unicode_escape c ++ quote_units r
        | [] => unicode_escape c
        end
      else if is_low_surrogate c then unicode_escape c ++ quote_units r
      else escape_unit c ++ quote_units r
  end.

(** QuoteJSONString. *)
Definition quote_json (s : jsstring) : jsstring := dquote ++ quote_units s ++ dquote.

(** [JSON.stringify(v)] with no replacer and no indentation: a string,
    [undefined] ([None]), or a thrown TypeError (a BigInt anywhere in the
    value). *)
Fixpoint stringify (v : jsval) : completion (option jsstring) :=
  match v with
  | VUndefined => Normal None
  | VNull | VNaN => Normal (Some (lit "null"))
  | VBool true => Normal (Some (lit "true"))
  | VBool false => Normal (Some (lit "false"))
  | VNum z => Normal (Some (dec z))
  | VStr s => Normal (Some (quote_json s))
  | VBigInt _ => Throw (type_error "Do not know how to serialize a BigInt")
  | VArr l =>
      bind
        ((fix elems (l : list jsval) : completion (list jsstring) :=
            match l with
            | [] => Normal []
            | x :: r =>
                bind (stringify x) (fun o =>
                bind (elems r) (fun rs =>
                Normal (default (lit "null") o :: rs)))
            end) l)
        (fun parts => Normal (Some (lit "[" ++ join (lit ",") parts ++ lit "]")))
  | VObj fs =>
      bind
        ((fix members (fs : list (jsstring * jsval)) : completion (list jsstring) :=
            match fs with
            | [] => Normal []
            | (k, x) :: r =>
                bind (stringify x) (fun o =>
                bind (members r) (fun rs =>
                Normal
                  match o with
                  | Some s => (quote_json k ++ lit ":" ++ s) :: rs
                  | None => rs
                  end))
            end) fs)
        (fun parts => Normal (Some (lit "{" ++ join (lit ",") parts ++ lit "}")))
  end.

(** Induction on values that reaches the elements of arrays and the fields
    of objects. *)
Section ValueInduction.
Variable P : jsval -> Prop.
Hypothesis Hundefined : P VUndefined.
Hypothesis Hnull : P VNull.
Hypothesis Hbool : forall b, P (VBool b).
Hypothesis Hnum : forall z, P (VNum z).
Hypothesis Hnan : P VNaN.
Hypothesis Hstr : forall s, P (VStr s).
Hypothesis Hbigint : forall z, P (VBigInt z).
Hypothesis Harr : forall l, Forall P l -> P (VArr l).
Hypothesis Hobj : forall fs, Forall (fun kv => P kv.2) fs -> P (VObj fs).

Fixpoint value_ind (v : jsval) : P v :=
  match v with
  | VUndefined => Hundefined
  | VNull => Hnull
  | VBool b => Hbool b
  | VNum z => Hnum z
  | VNaN => Hnan
  | VStr s => Hstr s
  | VBigInt z => Hbigint z
  | VArr l =>
      Harr l
        ((fix all (l : list jsval) : Forall P l :=
            match l with
            | [] => @List.Forall_nil _ P
            | x :: r => @List.Forall_cons _ P x r (value_ind x) (all r)
            end) l)
  | VObj fs =>
      Hobj fs
        ((fix all (fs : list (jsstring * jsval)) : Forall (fun kv => P kv.2) fs :=
            match fs with
            | [] => @List.Forall_nil _ (fun kv => P kv.2)
            | (k, x) :: r =>
                @List.Forall_cons _ (fun kv => P kv.2) (k, x) r (value_ind x) (all r)
            end) fs)
  end.
End ValueInduction.

Definition bigint_error : jsval := type_error "Do not know how to serialize a BigInt".

End Js.

(* ------------------------------------------------------------------------- *)
(** * Response logger (the second [app.use] of the module) *)
(* ------------------------------------------------------------------------- *)
Module Logger.
Import Js.

(** The string literal appended to the 79-unit prefix of an overlong line.
    In [server/index.ts] the literal is the three characters U+00E2 U+20AC
    U+00A6; in the two sibling revisions it is the single character U+2026. *)
Definition marker_index_ts : jsstring := [226%N; 8364%N; 166%N].
Definition marker_sibling : jsstring := [8230%N].

(** The variables one invocation of the middleware closes over. *)
Record closure : Type := Closure {
  start : Z;
  path : jsstring;
  capturedJsonResponse : jsval
}.

(** The middleware body before [next()]: [start = Date.now()],
    [path = req.path], [capturedJsonResponse = undefined]. *)
Definition enter (now : Z) (req_path : jsstring) : closure :=
  {| start := now; path := req_path; capturedJsonResponse := VUndefined |}.

Definition capture (bodyJson : jsval) (c : closure) : closure :=
  {| start := start c; path := path c; capturedJsonResponse := bodyJson |}.

Section Wrapper.
(** The response object and what its original [json] method returns are
    Express's; the wrapper is written against any of them. *)
Context {R T : Type}.
Variable originalResJson : jsval -> list jsval -> R -> completion T * R.

(** [res.json = function (bodyJson, ...args) {...}]. *)
Definition json (bodyJson : jsval) (args : list jsval) (st : closure * R)
  : completion T * (closure * R) :=
  let c := capture bodyJson st.1 in
  let '(result, res) := originalResJson bodyJson args st.2 in
  (result, (c, res)).
End Wrapper.

(** A handler's successive calls of a JSON-emission function [f], each with
    its body and further arguments; the completions are collected in call
    order. *)
Fixpoint emit_all {S T : Type} (f : jsval -> list jsval -> S -> completion T * S)
    (calls : list (jsval * list jsval)) (s : S) : list (completion T) * S :=
  match calls with
  | [] => ([], s)
  | (body, args) :: rest =>
      let '(x, s1) := f body args s in
      let '(xs, s2) := emit_all f rest s1 in
      (x :: xs, s2)
  end.

(** [`${JSON.stringify(v)}`] once [JSON.stringify] has returned. *)
Definition template_of (o : option jsstring) : jsstring :=
  match o with
  | Some s => s
  | None => lit "undefined"
  end.

(** The first assignment of [logLine]. *)
Definition base_line (req_method : jsstring) (p : jsstring) (statusCode : jsval)
    (duration : Z) : jsstring :=
  req_method ++ lit " " ++ p ++ lit " " ++ to_string statusCode
    ++ lit " in " ++ dec duration ++ lit "ms".

(** [if (logLine.length > 80) logLine = logLine.slice(0, 79) + marker]. *)
Definition truncate (marker : jsstring) (logLine : jsstring) : jsstring :=
  if 80 <? str_length logLine then slice logLine 0 79 ++ marker else logLine.

(** The ["finish"] listener.  The result lists the lines handed to [log], or
    is the exception that escapes the listener. *)
Definition on_finish (marker : jsstring) (req_method : jsstring) (statusCode : jsval)
    (now : Z) (c : closure) : completion (list jsstring) :=
  let duration := now - start c in
  if startsWith (path c) (lit "/api") then
    let logLine := base_line req_method (path c) statusCode duration in
    logLine ← (if truthy (capturedJsonResponse c) then
                 s ← stringify (capturedJsonResponse c);
                 mret (logLine ++ lit " :: " ++ template_of s)
               else mret logLine);
    mret [truncate marker logLine]
  else mret [].

(** ** The line as the specification words it *)

(** [<METHOD> <PATH> <STATUS> in <DURATION>ms [:: <JSON>]]. *)
Definition spec_line (method p status duration : jsstring) (body : option jsstring)
  : jsstring :=
  method ++ lit " " ++ p ++ lit " " ++ status ++ lit " in " ++ duration ++ lit "ms"
    ++ match body with
       | Some j => lit " :: " ++ j
       | None => []
       end.

(** The optional [:: <JSON>] part: the serialized captured body, when there
    is a truthy one that serializes. *)
Definition json_segment (captured : jsval) : option jsstring :=
  if truthy captured then
    match stringify captured with
    | Normal o => Some (template_of o)
    | Throw _ => None
    end
  else None.

End Logger.

(* ------------------------------------------------------------------------- *)
(** * Express's response object, as far as the module uses it *)
(* ------------------------------------------------------------------------- *)
Module Express.
Import Js.

(** The interface of [res] the module calls: [res.status(code)] (which
    returns [res] for chaining) and [res.json(body)]. *)
Class Res (R : Type) : Type := {
  res_status : jsval -> R -> completion unit * R;
  res_json : jsval -> R -> completion unit * R
}.

(** A response: the status code set so far (after the head is written, the
    code written), and the body written after the head, if the response was
    written.  The pipeline model carries no request headers: requests are
    taken to hold no validators (so that Express never turns a response into
    a 304) and not to be HEAD requests (for which the head alone is
    sent). *)
Record response : Type := Response {
  statusCode : jsval;
  payload : option jsstring
}.

Definition fresh : response := {| statusCode := VNum 200; payload := None |}.

(** Node's ERR_HTTP_HEADERS_SENT, from [setHeader] and from [removeHeader]. *)
Definition headers_sent : jsval :=
  VObj [(lit "code", VStr (lit "ERR_HTTP_HEADERS_SENT"));
        (lit "message", VStr (lit "Cannot set headers after they are sent to the client"))].

Definition headers_sent_remove : jsval :=
  VObj [(lit "code", VStr (lit "ERR_HTTP_HEADERS_SENT"));
        (lit "message",
         VStr (lit "Cannot remove headers after they are sent to the client"))].

(** Node's ERR_HTTP_INVALID_STATUS_CODE.  Its message shows the offending
    value; for an array or an object that rendering is [util.inspect]'s and
    the field is left out. *)
Definition invalid_status_code (original : jsval) : jsval :=
  VObj ((lit "code", VStr (lit "ERR_HTTP_INVALID_STATUS_CODE"))
        :: match original with
           | VArr _ | VObj _ => []
           | _ => [(lit "message",
                    VStr (lit "Invalid status code: " ++ to_string original))]
           end).

(** The status code Node accepts when it writes the head:
    [statusCode |= 0] must lie in 100..999. *)
Definition valid_status (code : jsval) : bool :=
  match to_int32 code with
  | Normal c => (100 <=? c) && (c <=? 999)
  | Throw _ => false
  end.

(** The codes for which [res.send] passes no body on ([204 ===
    this.statusCode] and the like: the number itself). *)
Definition no_body (code : jsval) : bool :=
  match code with
  | VNum 204 | VNum 205 | VNum 304 => true
  | _ => false
  end.

(** Whether a body follows the head: not for the codes of [no_body], and
    not for the codes written for which Node sends the head only (1xx, 204,
    304). *)
Definition sends_body (original : jsval) (code : Z) : bool :=
  negb (no_body original)
  && negb ((code <=? 199) || (code =? 204) || (code =? 304)).

(** Express's [res.status]: records the code. *)
Definition status (code : jsval) (r : response) : completion unit * response :=
  (Normal tt, {| statusCode := code; payload := payload r |}).

(** Express's [res.json] (Express 4, 4.18 or later for the code 205).  The
    body is serialized with [JSON.stringify] first.  On a response already
    written, [res.send] fails when it sets or removes a header: with a
    serialized body at once, with none ([undefined]) only for the codes
    without body.  Otherwise the head is written, with Node's check of the
    status code, which throws and leaves the response unwritten, and then the
    body, where one follows. *)
Definition send_json (body : jsval) (r : response) : completion unit * response :=
  match stringify body with
  | Throw e => (Throw e, r)
  | Normal o =>
      match payload r with
      | Some _ =>
          match o with
          | Some _ => (Throw headers_sent, r)
          | None =>
              match statusCode r with
              | VNum 204 | VNum 304 => (Throw headers_sent_remove, r)
              | VNum 205 => (Throw headers_sent, r)
              | _ => (Normal tt, r)
              end
          end
      | None =>
          match to_int32 (statusCode r) with
          | Throw e => (Throw e, r)
          | Normal code =>
              if (code <? 100) || (999 <? code) then
                (Throw (invalid_status_code (statusCode r)), r)
              else
                (Normal tt,
                 {| statusCode := VNum code;
                    payload :=
                      Some (if sends_body (statusCode r) code then default [] o else []) |})
          end
      end
  end.

#[global] Instance express_res : Res response :=
  {| res_status := status; res_json := send_json |}.

End Express.

(* ------------------------------------------------------------------------- *)
(** * Error-handling middleware (installed during initialization) *)
(* ------------------------------------------------------------------------- *)
Module Translator.
Import Js Express.

(** [err.status || err.statusCode || 500]. *)
Definition resolve_status (err : jsval) : completion jsval :=
  s ← get_prop err (lit "status");
  if truthy s then mret s
  else
    c ← get_prop err (lit "statusCode");
    mret (or_else c (VNum 500)).

(** [err.message || "Internal Server Error"]. *)
Definition resolve_message (err : jsval) : completion jsval :=
  m ← get_prop err (lit "message");
  mret (or_else m (VStr (lit "Internal Server Error"))).

(** [{ message }]. *)
Definition body_of (message : jsval) : jsval := VObj [(lit "message", message)].

(** [`Error: ${message} (status: ${status})`]. *)
Definition log_line (message status : jsval) : jsstring :=
  lit "Error: " ++ to_string message ++ lit " (status: " ++ to_string status ++ lit ")".

(** The middleware [(err, _req, res, _next) => {...}].  The state is the
    response object together with the lines handed to [log]. *)
Definition error_handler {R : Type} `{Res R} (err : jsval) (res : R)
  : completion unit * (R * list jsstring) :=
  match resolve_status err with
  | Throw e => (Throw e, (res, []))
  | Normal status =>
      match resolve_message err with
      | Throw e => (Throw e, (res, []))
      | Normal message =>
          match res_status status res with
          | (Throw e, res1) => (Throw e, (res1, []))
          | (Normal _, res1) =>
              match res_json (body_of message) res1 with
              | (Throw e, res2) => (Throw e, (res2, []))
              | (Normal _, res2) => (Normal tt, (res2, [log_line message status]))
              end
          end
      end
  end.

(** ** The resolution as the specification words it *)

(** The value of a field of the error, [undefined] when there is none. *)
Definition field (err : jsval) (k : string) : jsval :=
  match err with
  | VObj fs => assoc (lit k) fs
  | _ => VUndefined
  end.



End Translator.

(* ------------------------------------------------------------------------- *)
(** * The module's top level, the initialization promise and the gate *)
(* ------------------------------------------------------------------------- *)
Module Bootstrap.
Import Js Express.

(** ** Requests, routes and the layers of Express's stack *)

(** A request: method, path, and what the body parsers raise on it, if
    anything. *)
Record request : Type := Request {
  req_method : jsstring;
  req_path : jsstring;
  body_error : option jsval
}.

(** What a route handler of the registrar does with a request:
    [res.status(s).json(b)], [throw e] / [next(e)], or [next()]. *)
Inductive handler_result : Type :=
| Respond (status body : jsval)
| Raise (e : jsval)
| Pass.

Record route : Type := Route {
  route_method : jsstring;
  route_path : jsstring;
  route_handler : request -> handler_result
}.

(** The layers the module and its collaborators push on [app._router.stack]. *)
Inductive layer : Type :=
| LJson                (* express.json() *)
| LUrlencoded          (* express.urlencoded(...) *)
| LCors                (* the header middleware *)
| LLogger              (* the response logger *)
| LGate                (* the middleware awaiting initializationPromise *)
| LRoute (r : route)   (* attached by registerRoutes *)
| LErrorHandler        (* the four-argument middleware *)
| LVite                (* attached by setupVite *)
| LStatic.             (* attached by serveStatic *)

Inductive promise : Type :=
| Pending
| Fulfilled
| Rejected (e : jsval).

(** What a client gets. *)
Inductive reply : Type :=
| Sent (res : response)     (* written by [res.json]: status code and JSON payload *)
| NotFound                  (* Express's final handler, no error *)
| DefaultError (e : jsval)  (* Express's final handler on an error no middleware handled *)
| Asset.                    (* answered by the asset middleware *)

(** ** Observable events, in the order they happen *)
Inductive event : Type :=
| ConsoleLog (msg : jsstring) (args : list jsstring)
| ConsoleError (msg : jsstring) (e : jsval)
| RegisterRoutes
| Use (l : layer)
| GetEnv
| CreateServer
| SetupVite
| ServeStatic
| Listen (port : Z) (host : jsstring)
| Log (line : jsstring)
| Settle (o : promise)
| Export (serverless : bool)
| GateNext (id : nat)
| GateError (id : nat) (e : jsval)
| Dispatch (id : nat) (pos : nat)
| Reply (id : nat) (r : reply).

(** ** The collaborators and the process environment *)

(** [registerRoutes], [setupVite] and [serveStatic] are imported from
    [./routes] and [./vite]; what they do is a parameter of the model.
    [registerRoutes] attaches [routes_sync] before it first suspends (while
    the caller is still inside [await registerRoutes(app)]), attaches
    [routes_late] afterwards, and then resolves ([None]) or rejects.
    [setupVite] resolves or rejects; [serveStatic] returns or throws. *)
Record world : Type := World {
  env : jsstring;                        (* app.get("env") *)
  VERCEL : option jsstring;              (* process.env.VERCEL *)
  routes_sync : list route;
  routes_late : list route;
  registerRoutes_result : option jsval;
  setupVite_result : option jsval;
  serveStatic_result : option jsval
}.

Definition env_value (v : option jsstring) : jsval :=
  match v with
  | Some s => VStr s
  | None => VUndefined
  end.

(** The "managed externally" signal: [process.env.VERCEL] as a condition. *)
Definition managed_externally (w : world) : bool := truthy (env_value (VERCEL w)).

Definition development (w : world) : bool := str_eqb (env w) (lit "development").

(** ** State *)

Inductive init_pc : Type :=
| AwaitRegisterRoutes    (* suspended at line 52 *)
| AwaitSetupVite         (* suspended at line 73 *)
| Returned.

Record state : Type := State {
  stack : list layer;                     (* app._router.stack *)
  isInitialized : bool;
  initializationPromise : promise;
  pc : init_pc;
  listening : option bool;                (* server.listen called; its callback run *)
  waiting : gmap nat (request * nat);     (* requests suspended in the gate, with its stack index *)
  next_id : nat;
  trace : list event
}.

Definition initial : state :=
  {| stack := []; isInitialized := false; initializationPromise := Pending;
     pc := AwaitRegisterRoutes; listening := None; waiting := ∅; next_id := 0;
     trace := [] |}.

Definition emit (e : event) (s : state) : state :=
  {| stack := stack s; isInitialized := isInitialized s;
     initializationPromise := initializationPromise s; pc := pc s;
     listening := listening s; waiting := waiting s; next_id := next_id s;
     trace := trace s ++ [e] |}.

Definition emits (es : list event) (s : state) : state := foldl (fun s e => emit e s) s es.

Definition push (l : layer) (s : state) : state :=
  {| stack := stack s ++ [l]; isInitialized := isInitialized s;
     initializationPromise := initializationPromise s; pc := pc s;
     listening := listening s; waiting := waiting s; next_id := next_id s;
     trace := trace s |}.

(** [app.use(l)], and a collaborator's attachment of a layer. *)
Definition app_use (l : layer) (s : state) : state := emit (Use l) (push l s).

Definition set_pc (p : init_pc) (s : state) : state :=
  {| stack := stack s; isInitialized := isInitialized s;
     initializationPromise := initializationPromise s; pc := p;
     listening := listening s; waiting := waiting s; next_id := next_id s;
     trace := trace s |}.

Definition set_isInitialized (b : bool) (s : state) : state :=
  {| stack := stack s; isInitialized := b;
     initializationPromise := initializationPromise s; pc := pc s;
     listening := listening s; waiting := waiting s; next_id := next_id s;
     trace := trace s |}.

Definition set_listening (l : option bool) (s : state) : state :=
  {| stack := stack s; isInitialized := isInitialized s;
     initializationPromise := initializationPromise s; pc := pc s;
     listening := l; waiting := waiting s; next_id := next_id s;
     trace := trace s |}.

Definition set_waiting (m : gmap nat (request * nat)) (s : state) : state :=
  {| stack := stack s; isInitialized := isInitialized s;
     initializationPromise := initializationPromise s; pc := pc s;
     listening := listening s; waiting := m; next_id := next_id s;
     trace := trace s |}.

Definition set_next_id (n : nat) (s : state) : state :=
  {| stack := stack s; isInitialized := isInitialized s;
     initializationPromise := initializationPromise s; pc := pc s;
     listening := listening s; waiting := waiting s; next_id := n;
     trace := trace s |}.

(** The async function returns or throws: its promise settles. *)
Definition settle (o : promise) (s : state) : state :=
  emit (Settle o)
    {| stack := stack s; isInitialized := isInitialized s;
       initializationPromise := o; pc := Returned;
       listening := listening s; waiting := waiting s; next_id := next_id s;
       trace := trace s |}.

(** ** The initialization function, segment by segment *)

(** Lines 51-52: the async function runs synchronously up to its first
    [await]; the call [registerRoutes(app)] is part of that run. *)
Definition init_start (w : world) (s : state) : state :=
  let s := emit (ConsoleLog (lit "Before registering routes") []) s in
  let s := emit RegisterRoutes s in
  foldl (fun s r => app_use (LRoute r) s) s (routes_sync w).

(** Lines 88-92: the [catch] block logs and rethrows. *)
Definition init_fail (e : jsval) (s : state) : state :=
  settle (Rejected e) (emit (ConsoleError (lit "Initialization failed:") e) s).

(** Lines 86-87, and the normal return. *)
Definition init_complete (s : state) : state :=
  let s := set_isInitialized true s in
  let s := emit (ConsoleLog (lit "Initialization complete") []) s in
  settle Fulfilled s.

(** Lines 56-58: the paths of the layers that carry a route. *)
Definition registeredRoutes (st : list layer) : list jsstring :=
  omap (fun l => match l with LRoute r => Some (route_path r) | _ => None end) st.

(** Lines 53-84, entered when [registerRoutes] has resolved. *)
Definition after_routes (w : world) (s : state) : state :=
  let s := emit (ConsoleLog (lit "After registering routes") []) s in
  let s := emit (ConsoleLog (lit "Registered routes:") (registeredRoutes (stack s))) s in
  let s := app_use LErrorHandler s in
  let s := emit GetEnv s in
  if development w then
    let s := emit CreateServer s in
    let s := emit SetupVite s in
    set_pc AwaitSetupVite s
  else
    let s := emit ServeStatic s in
    match serveStatic_result w with
    | Some e => init_fail e s
    | None => init_complete (app_use LStatic s)
    end.

(** Lines 75-87, entered when [setupVite] has resolved. *)
Definition after_vite (w : world) (s : state) : state :=
  if negb (managed_externally w) then
    let port := 5000 in
    let host := lit "localhost" in
    let s := emit (Listen port host) s in
    init_complete (set_listening (Some false) s)
  else init_complete s.

(** The callback of [server.listen]. *)
Definition readiness_line (host : jsstring) (port : Z) : jsstring :=
  lit "Server running at http://" ++ host ++ lit ":" ++ dec port.

(** Line 109. *)
Definition export (w : world) (s : state) : state :=
  emit (Export (managed_externally w)) s.

(** The synchronous run of the module: lines 8-45, the start of the
    initialization function, the gate's [app.use], the export. *)
Definition module_load (w : world) : state :=
  let s := app_use LJson initial in
  let s := app_use LUrlencoded s in
  let s := app_use LCors s in
  let s := app_use LLogger s in
  let s := init_start w s in
  let s := app_use LGate s in
  export w s.

(** ** Express's dispatch over the stack *)

(** What [next(e)] does with its argument. *)
Inductive next_mode : Type :=
| NoError
| WithError (e : jsval)
| ExitRouter.

Definition next_with (e : jsval) : next_mode :=
  match e with
  | VStr s =>
      if str_eqb s (lit "router") then ExitRouter
      else if str_eqb s (lit "route") then NoError
      else if truthy e then WithError e else NoError
  | _ => if truthy e then WithError e else NoError
  end.

Definition matches (r : route) (rq : request) : bool :=
  str_eqb (route_method r) (req_method rq) && str_eqb (route_path r) (req_path rq).

(** The final handler. *)
Definition final (err : option jsval) : reply :=
  match err with
  | None => NotFound
  | Some e => DefaultError e
  end.

Inductive outcome : Type :=
| Done (r : reply)
| Parked (pos : nat).     (* suspended in the gate at stack index [pos] *)

Definition prepend (es : list event) (r : list event * outcome) : list event * outcome :=
  (es ++ r.1, r.2).

(** [next(...)] called by the layer in front of the layers whose dispatch is
    [k]. *)
Definition continue (k : option jsval -> response -> list event * outcome)
    (m : next_mode) (res : response) : list event * outcome :=
  match m with
  | NoError => k None res
  | WithError e => k (Some e) res
  | ExitRouter => ([], Done (final None))
  end.

(** One request going down the layers [ls], the first of which has stack
    index [pos]; [err] is the pending error.  With a pending error only the
    error handler runs; without one the error handler is skipped. *)
Fixpoint walk (initialized : bool) (id : nat) (rq : request) (res : response)
    (err : option jsval) (pos : nat) (ls : list layer) : list event * outcome :=
  match ls with
  | [] => ([], Done (final err))
  | l :: rest =>
      let next := continue (fun err res => walk initialized id rq res err (S pos) rest) in
      match err with
      | Some e =>
          match l with
          | LErrorHandler =>
              match Translator.error_handler e res with
              | (Normal _, (res', lines)) => (map Log lines, Done (Sent res'))
              | (Throw e', (res', lines)) => prepend (map Log lines) (next (next_with e') res')
              end
          | _ => next (WithError e) res
          end
      | None =>
          match l with
          | LJson =>
              match body_error rq with
              | Some e => next (next_with e) res
              | None => next NoError res
              end
          | LUrlencoded | LCors | LLogger | LErrorHandler => next NoError res
          | LGate =>
              if initialized then prepend [GateNext id] (next NoError res)
              else ([], Parked pos)
          | LRoute r =>
              if matches r rq then
                prepend [Dispatch id pos]
                  match route_handler r rq with
                  | Respond st body =>
                      match status st res with
                      | (_, res1) =>
                          match send_json body res1 with
                          | (Normal _, res2) => ([], Done (Sent res2))
                          | (Throw e, res2) => next (next_with e) res2
                          end
                      end
                  | Raise e => next (next_with e) res
                  | Pass => next NoError res
                  end
              else next NoError res
          | LVite | LStatic => ([], Done Asset)
          end
      end
  end.

(** ** Turns of the event loop *)

Inductive input : Type :=
| Arrive (rq : request)     (* a request enters the pipeline *)
| RoutesSettled             (* the promise of [registerRoutes] settles *)
| ViteSettled               (* the promise of [setupVite] settles *)
| Resume (id : nat)         (* the continuation of a request awaiting the promise *)
| Listening.                (* the listener is bound: the callback of [listen] *)

Definition finish (id : nat) (rq : request) (r : list event * outcome) (s : state) : state :=
  let s := emits r.1 s in
  match r.2 with
  | Done rep => emit (Reply id rep) s
  | Parked pos => set_waiting (<[id := (rq, pos)]> (waiting s)) s
  end.

Definition arrive (rq : request) (s : state) : state :=
  let id := next_id s in
  finish id rq (walk (isInitialized s) id rq fresh None 0 (stack s)) (set_next_id (S id) s).

(** Lines 98-104 after the [await]: [next(error)] in the [catch], else
    [next()]. *)
Definition resume (id : nat) (s : state) : state :=
  match waiting s !! id with
  | None => s
  | Some (rq, pos) =>
      let rest := drop (S pos) (stack s) in
      match initializationPromise s with
      | Pending => s
      | Fulfilled =>
          let s := set_waiting (delete id (waiting s)) s in
          finish id rq
            (prepend [GateNext id] (walk (isInitialized s) id rq fresh None (S pos) rest)) s
      | Rejected e =>
          let s := set_waiting (delete id (waiting s)) s in
          finish id rq
            (prepend [GateError id e]
               (continue (fun err res => walk (isInitialized s) id rq res err (S pos) rest)
                  (next_with e) fresh)) s
      end
  end.

Definition routes_settled (w : world) (s : state) : state :=
  match pc s with
  | AwaitRegisterRoutes =>
      let s := foldl (fun s r => app_use (LRoute r) s) s (routes_late w) in
      match registerRoutes_result w with
      | Some e => init_fail e s
      | None => after_routes w s
      end
  | _ => s
  end.

Definition vite_settled (w : world) (s : state) : state :=
  match pc s with
  | AwaitSetupVite =>
      match setupVite_result w with
      | Some e => init_fail e s
      | None => after_vite w (app_use LVite s)
      end
  | _ => s
  end.

Definition on_listening (s : state) : state :=
  match listening s with
  | Some false => emit (Log (readiness_line (lit "localhost") 5000)) (set_listening (Some true) s)
  | _ => s
  end.

Definition step (w : world) (s : state) (i : input) : state :=
  match i with
  | Arrive rq => arrive rq s
  | RoutesSettled => routes_settled w s
  | ViteSettled => vite_settled w s
  | Resume id => resume id s
  | Listening => on_listening s
  end.

Definition run (w : world) (s : state) (inputs : list input) : state :=
  foldl (step w) s inputs.

(** The states of the process: any schedule of turns after the module has
    loaded. *)
Definition reachable (w : world) (s : state) : Prop :=
  exists inputs, s = run w (module_load w) inputs.

(** ** Vocabulary of the statements *)

(** The stack when the module has loaded, and the gate's index in it. *)
Definition module_stack (w : world) : list layer :=
  [LJson; LUrlencoded; LCors; LLogger] ++ map LRoute (routes_sync w) ++ [LGate].

Definition gate_index (w : world) : nat := 4 + length (routes_sync w).

Definition is_gate (l : layer) : bool :=
  match l with LGate => true | _ => false end.

Definition is_error_handler (l : layer) : bool :=
  match l with LErrorHandler => true | _ => false end.

(** The steps of the initialization sequence among the events: route
    registration, installation of the error handler, resolution of the
    runtime mode, mode-specific wiring. *)
Definition is_init_event (e : event) : bool :=
  match e with
  | RegisterRoutes | Use LErrorHandler | GetEnv
  | CreateServer | SetupVite | ServeStatic | Listen _ _ => true
  | _ => false
  end.

Definition init_events (tr : list event) : list event := List.filter is_init_event tr.

Definition wiring (w : world) : list event :=
  if development w then
    [CreateServer; SetupVite]
      ++ (if managed_externally w then [] else [Listen 5000 (lit "localhost")])
  else [ServeStatic].

(** Register routes, install the error handler, resolve the mode, wire. *)
Definition sequence (w : world) : list event :=
  [RegisterRoutes; Use LErrorHandler; GetEnv] ++ wiring w.

Definition is_register_routes (e : event) : bool :=
  match e with RegisterRoutes => true | _ => false end.

Definition is_listen (e : event) : bool :=
  match e with Listen _ _ => true | _ => false end.

Definition is_settle (e : event) : bool :=
  match e with Settle _ => true | _ => false end.

Definition count (p : event -> bool) (tr : list event) : nat := length (List.filter p tr).

(** The events of one request's dispatch: what follows its [outcome]. *)
Definition reply_events (id : nat) (o : outcome) : list event :=
  match o with
  | Done rep => [Reply id rep]
  | Parked _ => []
  end.

(** An event that may precede the settling of the promise: no verdict of the
    gate, no dispatch of a route behind the gate. *)
Definition before_settle (w : world) (e : event) : Prop :=
  match e with
  | GateNext _ | GateError _ _ | Settle _ => False
  | Dispatch _ pos => (pos < gate_index w)%nat
  | _ => True
  end.

(** An event that may follow the settling of the promise with outcome [o]:
    the gate's verdicts are those of [o]. *)
Definition after_settle (o : promise) (e : event) : Prop :=
  match e with
  | Settle _ => False
  | GateNext _ => o = Fulfilled
  | GateError _ e' => o = Rejected e'
  | _ => True
  end.

(** Classes of the events of a dispatch. *)
Definition is_log (e : event) : Prop :=
  match e with Log _ => True | _ => False end.

Definition dispatch_event (initialized : bool) (e : event) : Prop :=
  match e with
  | Log _ | Dispatch _ _ => True
  | GateNext _ => initialized = true
  | _ => False
  end.

Definition early_event (limit : nat) (e : event) : Prop :=
  match e with
  | Log _ => True
  | Dispatch _ pos => (pos < limit)%nat
  | _ => False
  end.

(** What [next(e)] makes of the failure [e] of the initialization: an error
    for Express's dispatch. *)
Definition is_error (e : jsval) : bool :=
  match next_with e with
  | WithError _ => true
  | _ => false
  end.

(** The events of requests, as opposed to those of the initialization. *)
Definition request_event (e : event) : Prop :=
  match e with
  | Log _ | Dispatch _ _ | GateNext _ | GateError _ _ | Reply _ _ => True
  | _ => False
  end.

(** The events of the initialization function and of its collaborators. *)
Definition init_turn_event (e : event) : Prop :=
  match e with
  | ConsoleLog _ _ | ConsoleError _ _ | Use _ | GetEnv
  | CreateServer | SetupVite | ServeStatic | Listen _ _ => True
  | _ => False
  end.

(** The trace against the promise: nothing of the gate before it settles,
    one [Settle], and only the verdicts of its outcome afterwards. *)
Definition trace_ok (w : world) (p : promise) (tr : list event) : Prop :=
  match p with
  | Pending => Forall (before_settle w) tr
  | _ =>
      exists t1 t2,
        tr = t1 ++ Settle p :: t2
        /\ Forall (before_settle w) t1 /\ Forall (after_settle p) t2
  end.

(** The steps taken so far against the place where the initialization
    function stands. *)
Definition init_ok (w : world) (s : state) : Prop :=
  match pc s with
  | AwaitRegisterRoutes => init_events (trace s) = [RegisterRoutes]
  | AwaitSetupVite =>
      development w = true
      /\ init_events (trace s)
         = [RegisterRoutes; Use LErrorHandler; GetEnv; CreateServer; SetupVite]
  | Returned =>
      init_events (trace s) `prefix_of` sequence w
      /\ (initializationPromise s = Fulfilled -> init_events (trace s) = sequence w)
  end.

(** What holds in every state of the process. *)
Record invariant (w : world) (s : state) : Prop := Invariant {
  inv_pc : pc s = Returned <-> initializationPromise s <> Pending;
  inv_flag : isInitialized s = true <-> initializationPromise s = Fulfilled;
  inv_stack :
    exists tail,
      stack s = module_stack w ++ tail
      /\ Forall (fun l => is_gate l = false) tail
      /\ (pc s <> AwaitRegisterRoutes -> registerRoutes_result w = None ->
          LErrorHandler ∈ tail);
  inv_waiting :
    forall id rq pos, waiting s !! id = Some (rq, pos) -> pos = gate_index w;
  inv_trace : trace_ok w (initializationPromise s) (trace s);
  inv_init : init_ok w s;
  inv_listening :
    (listening s = None -> forall port host, Listen port host ∉ trace s)
    /\ (listening s = Some true ->
        Log (readiness_line (lit "localhost") 5000) ∈ trace s);
  inv_bound : listening s <> None -> initializationPromise s = Fulfilled;
  inv_load : trace (module_load w) `prefix_of` trace s;
  inv_export : forall b, Export b ∈ trace s -> b = managed_externally w
}.

End Bootstrap.

(* ------------------------------------------------------------------------- *)
(** * Inputs used in the examples *)
(* ------------------------------------------------------------------------- *)
Module Samples.
Import Js Logger Express Bootstrap.

(** [{ ok: true }]. *)
Definition ok_body : jsval := VObj [(lit "ok", VBool true)].

(** The closure of a request to [/api/health] that entered at time [t] and
    whose handler called [res.json({ ok: true })]. *)
Definition health_closure (t : Z) : closure :=
  capture ok_body (enter t (lit "/api/health")).

(** A path of 74 code units: for [GET], status 200 and 3 ms the first
    [logLine] has 89 code units. *)
Definition long_path : jsstring :=
  lit "/api/users/0123456789/orders/0123456789/items/0123456789/detail/0123456789".

(** A request whose handler passed the BigInt [1n] to [res.json], caught the
    TypeError of the original emission and ended the response otherwise. *)
Definition bigint_closure : closure := capture (VBigInt 1) (enter 1000 (lit "/api/stats")).

(** A request whose handler passed an object holding a BigInt to [res.json]. *)
Definition totals_closure : closure :=
  capture (VObj [(lit "total", VBigInt 10)]) (enter 1000 (lit "/api/orders")).

(** [{ status: 404, message: "not found" }]. *)
Definition not_found_error : jsval :=
  VObj [(lit "status", VNum 404); (lit "message", VStr (lit "not found"))].


(** [GET /api/health], answered with [{ ok: true }]. *)
Definition health_route : route :=
  {| route_method := lit "GET"; route_path := lit "/api/health";
     route_handler := fun _ => Respond (VNum 200) ok_body |}.

Definition health_request : request :=
  {| req_method := lit "GET"; req_path := lit "/api/health"; body_error := None |}.


(** A failure of a collaborator: [new Error("db down")]. *)
Definition db_down : jsval := VObj [(lit "message", VStr (lit "db down"))].

(** A serverless production deployment whose registrar attaches its route
    before it first suspends. *)
Definition eager_world : world :=
  {| env := lit "production"; VERCEL := Some (lit "1");
     routes_sync := [health_route]; routes_late := [];
     registerRoutes_result := None; setupVite_result := None;
     serveStatic_result := None |}.



(** Local development. *)
Definition local_world : world :=
  {| env := lit "development"; VERCEL := None;
     routes_sync := []; routes_late := [health_route];
     registerRoutes_result := None; setupVite_result := None;
     serveStatic_result := None |}.

(** Local development where the dev-asset collaborator fails. *)
Definition failing_vite_world : world :=
  {| env := lit "development"; VERCEL := None;
     routes_sync := []; routes_late := [health_route];
     registerRoutes_result := None; setupVite_result := Some db_down;
     serveStatic_result := None |}.

End Samples.

(* ------------------------------------------------------------------------- *)
(** * The header middleware (the first [app.use] with a function) *)
(* ------------------------------------------------------------------------- *)
Module Cors.
Import Js Bootstrap.

(** Header names are case-insensitive: a field is kept under its name in
    lower case. *)
Definition lower_unit (c : N) : N :=
  if (65 <=? c)%N && (c <=? 90)%N then (c + 32)%N else c.

Definition lower (name : jsstring) : jsstring := map lower_unit name.

(** [res.header(name, value)] on the header fields of the response. *)
Definition header (name value : jsstring) (h : gmap jsstring jsstring)
  : gmap jsstring jsstring :=
  <[lower name := value]> h.

(** Lines 14-19: three fields are set, then [next()]. *)
Definition middleware (h : gmap jsstring jsstring) : gmap jsstring jsstring * next_mode :=
  let h := header (lit "Access-Control-Allow-Origin") (lit "*") h in
  let h := header (lit "Access-Control-Allow-Methods")
             (lit "GET, POST, PUT, DELETE, OPTIONS") h in
  let h := header (lit "Access-Control-Allow-Headers") (lit "Content-Type") h in
  (h, NoError).

(** The three names the middleware sets, in lower case. *)
Definition cors_names : list jsstring :=
  [lower (lit "Access-Control-Allow-Origin");
   lower (lit "Access-Control-Allow-Methods");
   lower (lit "Access-Control-Allow-Headers")].

End Cors.

(* ------------------------------------------------------------------------- *)
(** * The response object once the logger has wrapped its [json] *)
(* ------------------------------------------------------------------------- *)
Module Instrumented.
Import Js Express Logger.

(** [res.json.bind(res)] of Express, called with a body (further arguments
    play no part in what the module does). *)
Definition originalResJson (body : jsval) (args : list jsval) (r : response)
  : completion unit * response :=
  send_json body r.

(** The response a handler sees behind the logger: the closure of the
    logger's invocation and Express's response; [res.json] is the wrapper,
    [res.status] is Express's. *)
#[global] Instance instrumented_res : Res (closure * response) :=
  {| res_status := fun code st =>
       let '(result, r) := status code st.2 in (result, (st.1, r));
     res_json := fun body st => json originalResJson body [] st |}.

End Instrumented.

(* ------------------------------------------------------------------------- *)
(** * Further vocabulary and inputs for the properties *)
(* ------------------------------------------------------------------------- *)
Module More.
Import Js Express Logger Translator Bootstrap Samples.

(** The status and the message the error handler resolves for an error
    whose fields can be read. *)
Definition resolved_status (err : jsval) : jsval :=
  if truthy (field err "status") then field err "status"
  else if truthy (field err "statusCode") then field err "statusCode"
  else VNum 500.

Definition resolved_message (err : jsval) : jsval :=
  if truthy (field err "message") then field err "message"
  else VStr (lit "Internal Server Error").

(** The request an event is about. *)
Definition event_id (e : event) : option nat :=
  match e with
  | GateNext id | GateError id _ | Dispatch id _ | Reply id _ => Some id
  | _ => None
  end.

(** The gate's verdicts on request [id], and the replies to it. *)
Definition is_verdict (id : nat) (e : event) : bool :=
  match e with
  | GateNext i | GateError i _ => Nat.eqb i id
  | _ => false
  end.

Definition is_reply (id : nat) (e : event) : bool :=
  match e with
  | Reply i _ => Nat.eqb i id
  | _ => false
  end.

Definition is_export (e : event) : bool :=
  match e with
  | Export _ => true
  | _ => false
  end.

(** The events of a turn of the initialization function. *)
Definition init_or_settle (e : event) : Prop := init_turn_event e \/ is_settle e = true.

(** The events a dispatch of request [id] leaves: log lines, and its own
    dispatches and passage of the gate. *)
Definition own_event (id : nat) (e : event) : Prop :=
  match e with
  | Log _ => True
  | Dispatch i _ | GateNext i => i = id
  | _ => False
  end.

(** The gates among the layers. *)
Definition gates (ls : list layer) : nat := length (List.filter is_gate ls).

(** A request that has had neither verdict nor reply, and one that has had
    its reply. *)
Definition untouched (s : state) (id : nat) : Prop :=
  count (is_reply id) (trace s) = 0%nat /\ count (is_verdict id) (trace s) = 0%nat.

Definition answered (s : state) (id : nat) : Prop :=
  count (is_reply id) (trace s) = 1%nat /\ (count (is_verdict id) (trace s) <= 1)%nat.

(** What holds of the requests in every state: a waiting request has
    arrived and has had neither verdict nor reply; a request that has arrived
    and does not wait has had one reply and at most one verdict; nothing has
    happened to a request that has not arrived. *)
Record requests_ok (s : state) : Prop := RequestsOk {
  waiting_ok :
    forall id x, waiting s !! id = Some x -> (id < next_id s)%nat /\ untouched s id;
  answered_ok :
    forall id, (id < next_id s)%nat -> waiting s !! id = None -> answered s id;
  unborn_ok : forall id, (next_id s <= id)%nat -> untouched s id
}.

(** What [setupVite] or [serveStatic] leaves on the stack when the
    initialization has completed. *)
Definition wired (w : world) (p : promise) : list layer :=
  match p with
  | Fulfilled => [if development w then LVite else LStatic]
  | _ => []
  end.

(** The stack at each stage of the initialization: the module's own
    layers, then the routes the registrar attached after its first
    suspension, the error handler, the asset middleware. *)
Definition stack_at (w : world) (s : state) : list layer :=
  module_stack w
  ++ match pc s with
     | AwaitRegisterRoutes => []
     | AwaitSetupVite => map LRoute (routes_late w) ++ [LErrorHandler]
     | Returned =>
         map LRoute (routes_late w)
         ++ match registerRoutes_result w with
            | Some _ => []
            | None => LErrorHandler :: wired w (initializationPromise s)
            end
     end.

(** The debugging line of lines 56-59, and the events that carry its text. *)
Definition registered_line (w : world) : event :=
  ConsoleLog (lit "Registered routes:") (map route_path (routes_sync w ++ routes_late w)).

Definition is_registered_line (e : event) : bool :=
  match e with
  | ConsoleLog msg _ => str_eqb msg (lit "Registered routes:")
  | _ => false
  end.

(** How many times the debugging line has been written: once, as soon as
    [registerRoutes] has resolved. *)
Definition registered_count (w : world) (s : state) : nat :=
  match pc s, registerRoutes_result w with
  | AwaitRegisterRoutes, _ => 0
  | _, Some _ => 0
  | _, None => 1
  end.

(** The outcome of the initialization function once it has returned: the
    first failure of a collaborator it called, else success. *)
Definition settled_outcome (w : world) : promise :=
  match registerRoutes_result w with
  | Some e => Rejected e
  | None =>
      match (if development w then setupVite_result w else serveStatic_result w) with
      | Some e => Rejected e
      | None => Fulfilled
      end
  end.

(** The steps of the sequence the initialization function has taken when
    it stands at [p] (lines 52-84): the registrar only while it is awaited;
    then the error handler, the mode, and the wiring of the mode as far as
    its collaborator lets it go. *)
Definition steps_taken (w : world) (p : init_pc) : list event :=
  match p with
  | AwaitRegisterRoutes => [RegisterRoutes]
  | AwaitSetupVite => [RegisterRoutes; Use LErrorHandler; GetEnv; CreateServer; SetupVite]
  | Returned =>
      match registerRoutes_result w with
      | Some _ => [RegisterRoutes]
      | None =>
          [RegisterRoutes; Use LErrorHandler; GetEnv]
          ++ (if development w then
                [CreateServer; SetupVite]
                ++ match setupVite_result w with
                   | Some _ => []
                   | None =>
                       if managed_externally w then [] else [Listen 5000 (lit "localhost")]
                   end
              else [ServeStatic])
      end
  end.

(** What the console shows of the outcome [p]: [console.error] only with
    the failure, the completion line only after a success. *)
Definition report_ok (p : promise) (e : event) : Prop :=
  match e with
  | ConsoleError msg x => msg = lit "Initialization failed:" /\ p = Rejected x
  | ConsoleLog msg _ => str_eqb msg (lit "Initialization complete") = true -> p = Fulfilled
  | _ => True
  end.

Definition reported (p : promise) (tr : list event) : Prop :=
  match p with
  | Pending => True
  | Fulfilled => ConsoleLog (lit "Initialization complete") [] ∈ tr
  | Rejected e => ConsoleError (lit "Initialization failed:") e ∈ tr
  end.

(** The wiring in every state: the stack is the one of the stage; the
    debugging line, once written, lists every route of the registrar; the
    outcome is the collaborators', and the console tells it. *)
Record wiring_ok (w : world) (s : state) : Prop := WiringOk {
  wired_stack : stack s = stack_at w s;
  wired_vite : pc s = AwaitSetupVite -> registerRoutes_result w = None;
  wired_line :
    Forall (fun e => is_registered_line e = true -> e = registered_line w) (trace s);
  wired_count : count is_registered_line (trace s) = registered_count w s;
  wired_outcome : pc s = Returned -> initializationPromise s = settled_outcome w;
  wired_report : Forall (report_ok (initializationPromise s)) (trace s);
  wired_reported : reported (initializationPromise s) (trace s)
}.



(** A value that is not an object with fields (a primitive, or an array). *)
Definition fieldless (v : jsval) : bool :=
  match v with
  | VObj _ => false
  | _ => true
  end.

(** A request whose JSON body does not parse. *)
Definition malformed_request : request :=
  {| req_method := lit "POST"; req_path := lit "/api/health";
     body_error := Some (VObj [(lit "status", VNum 400);
                               (lit "message", VStr (lit "Unexpected token"))]) |}.

(** Self-hosted production. *)
Definition production_world : world :=
  {| env := lit "production"; VERCEL := None;
     routes_sync := []; routes_late := [health_route];
     registerRoutes_result := None; setupVite_result := None;
     serveStatic_result := None |}.


End More.
(* ------------------------------------------------------------------------- *)
(** * The sibling revisions: [initializeApp] without a gate *)
(* ------------------------------------------------------------------------- *)
Module Sibling.
Import Js Express Bootstrap More.

(** The [catch] block of [initializeApp] logs and does not rethrow: the
    async function returns, and its promise is fulfilled. *)
Definition init_fail (e : jsval) (s : state) : state :=
  settle Fulfilled (emit (ConsoleError (lit "Server failed to start:") e) s).

(** The normal return (there is no flag to set). *)
Definition init_complete (s : state) : state := settle Fulfilled s.

(** [initializeApp] from the second [console.log] to the mode branch,
    entered when [registerRoutes] has resolved. *)
Definition after_routes (w : world) (s : state) : state :=
  let s := emit (ConsoleLog (lit "After registering routes") []) s in
  let s := emit (ConsoleLog (lit "Registered routes:") (registeredRoutes (stack s))) s in
  let s := app_use LErrorHandler s in
  let s := emit GetEnv s in
  if development w then
    let s := emit CreateServer s in
    let s := emit SetupVite s in
    set_pc AwaitSetupVite s
  else
    let s := emit ServeStatic s in
    match serveStatic_result w with
    | Some e => init_fail e s
    | None => init_complete (app_use LStatic s)
    end.

(** The rest of the development branch, entered when [setupVite] has
    resolved. *)
Definition after_vite (w : world) (s : state) : state :=
  if negb (managed_externally w) then
    let port := 5000 in
    let host := lit "localhost" in
    let s := emit (Listen port host) s in
    init_complete (set_listening (Some false) s)
  else init_complete s.

(** The synchronous run of the module: the four [app.use], the call
    [initializeApp()] up to its first [await], the export.  No gate is
    installed. *)
Definition module_load (w : world) : state :=
  let s := app_use LJson initial in
  let s := app_use LUrlencoded s in
  let s := app_use LCors s in
  let s := app_use LLogger s in
  let s := init_start w s in
  export w s.

Definition routes_settled (w : world) (s : state) : state :=
  match pc s with
  | AwaitRegisterRoutes =>
      let s := foldl (fun s r => app_use (LRoute r) s) s (routes_late w) in
      match registerRoutes_result w with
      | Some e => init_fail e s
      | None => after_routes w s
      end
  | _ => s
  end.

Definition vite_settled (w : world) (s : state) : state :=
  match pc s with
  | AwaitSetupVite =>
      match setupVite_result w with
      | Some e => init_fail e s
      | None => after_vite w (app_use LVite s)
      end
  | _ => s
  end.

(** The turns of the event loop; nothing awaits the promise of
    [initializeApp], so no request has a continuation to resume. *)
Definition step (w : world) (s : state) (i : input) : state :=
  match i with
  | Arrive rq => arrive rq s
  | RoutesSettled => routes_settled w s
  | ViteSettled => vite_settled w s
  | Resume _ => s
  | Listening => on_listening s
  end.

Definition run (w : world) (s : state) (inputs : list input) : state :=
  foldl (step w) s inputs.

(** An event that is no verdict of a gate. *)
Definition gateless (e : event) : Prop :=
  match e with
  | GateNext _ | GateError _ _ => False
  | _ => True
  end.

(** What holds in every state of a sibling revision: the stack is the four
    middlewares, the routes attached so far, then what the initialization
    pushed, and never holds a gate; nothing waits and no gate leaves an
    event; the promise is never rejected, and a failure is told on the
    console only.  (The revisions have no [isInitialized] variable: the
    field of the state stays as it starts.) *)
Record invariant (w : world) (s : state) : Prop := Invariant {
  inv_stack :
    exists tail,
      stack s = [LJson; LUrlencoded; LCors; LLogger] ++ map LRoute (routes_sync w) ++ tail
      /\ Forall (fun l => is_gate l = false) tail
      /\ (pc s = AwaitRegisterRoutes -> tail = []);
  inv_waiting : waiting s = ∅;
  inv_promise :
    initializationPromise s = match pc s with Returned => Fulfilled | _ => Pending end;
  inv_flag : isInitialized s = false;
  inv_vite : pc s = AwaitSetupVite -> registerRoutes_result w = None /\ development w = true;
  inv_gateless : Forall gateless (trace s);
  inv_failure :
    pc s = Returned ->
    forall e, settled_outcome w = Rejected e ->
      ConsoleError (lit "Server failed to start:") e ∈ trace s
}.

End Sibling.

(* ------------------------------------------------------------------------- *)
(** * Properties of the JavaScript fragment *)
(* ------------------------------------------------------------------------- *)
Module JsFacts.
Import Js Express.

Lemma bind_throw_inv {A B : Type} (c : completion A) (k : A -> completion B) (e : jsval) :
  bind c k = Throw e -> c = Throw e \/ exists a, c = Normal a /\ k a = Throw e.
Proof. destruct c as [a | e']; simpl; intros Hb; [right; eauto | left; congruence]. Qed.

Lemma stringify_throws_bigint_error (v : jsval) (e : jsval) :
  stringify v = Throw e -> e = bigint_error.
Proof.
  revert e. induction v as [| | b | z | | s | z | l IH | fs IH] using value_ind;
    intros e; simpl; try discriminate.
  - destruct b; discriminate.
  - intros He. now inversion He.
  - intros Hb. apply bind_throw_inv in Hb as [Hb | (parts & _ & Hk)]; [| discriminate].
    revert e Hb. induction IH as [| x r Hx _ IHr]; intros e Hb.
    + discriminate.
    + apply bind_throw_inv in Hb as [Hb | (o & _ & Hb)]; [now apply Hx |].
      apply bind_throw_inv in Hb as [Hb | (rs & _ & Hb)]; [now apply IHr | discriminate].
  - intros Hb. apply bind_throw_inv in Hb as [Hb | (parts & _ & Hk)]; [| discriminate].
    revert e Hb. induction IH as [| [k x] r Hx _ IHr]; intros e Hb.
    + discriminate.
    + apply bind_throw_inv in Hb as [Hb | (o & _ & Hb)]; [now apply Hx |].
      apply bind_throw_inv in Hb as [Hb | (rs & _ & Hb)]; [now apply IHr | discriminate].
Qed.

(** ** Express's [res.json] *)

(** A failed emission leaves the response as it was. *)
Lemma send_json_throw_keeps (body : jsval) (r : response) (e : jsval) (r' : response) :
  send_json body r = (Throw e, r') -> r' = r.
Proof.
  unfold send_json. destruct (stringify body) as [o | e1]; [| now intros [= _ <-]].
  destruct (payload r) as [p |].
  - destruct o; [now intros [= _ <-] |].
    destruct (statusCode r) as [| | | z | | | | |]; try (now intros [= _ <-]); try discriminate.
    destruct z as [| q | q]; try discriminate.
    repeat (destruct q as [q | q |]; try discriminate; try (now intros [= _ <-])).
  - destruct (to_int32 (statusCode r)) as [code | e2]; [| now intros [= _ <-]].
    destruct ((code <? 100) || (999 <? code)); [now intros [= _ <-] | discriminate].
Qed.

(** The first emission of a serializable body on a response whose status
    code Node accepts. *)
Lemma send_json_written (body : jsval) (r : response) (o : option jsstring) (code : Z) :
  stringify body = Normal o ->
  payload r = None ->
  to_int32 (statusCode r) = Normal code ->
  100 <= code <= 999 ->
  send_json body r
  = (Normal tt,
     {| statusCode := VNum code;
        payload := Some (if sends_body (statusCode r) code then default [] o else []) |}).
Proof.
  intros Hs Hp Hc Hr. unfold send_json. rewrite Hs, Hp, Hc.
  replace ((code <? 100) || (999 <? code)) with false; [reflexivity |].
  symmetry. apply orb_false_intro; apply Z.ltb_ge; lia.
Qed.

(** When the body serializes to a string, the emission fails exactly on a
    response already written or a status code Node refuses. *)
Lemma send_json_throws_iff (body : jsval) (r : response) (j : jsstring) :
  stringify body = Normal (Some j) ->
  throws (send_json body r).1 = true <-> payload r <> None \/ valid_status (statusCode r) = false.
Proof.
  intros Hs. unfold send_json, valid_status. rewrite Hs.
  destruct (payload r) as [p |]; simpl.
  - split; [intros _; left; discriminate | reflexivity].
  - destruct (to_int32 (statusCode r)) as [code | e]; simpl.
    + destruct (code <? 100) eqn:H1, (999 <? code) eqn:H2; simpl;
        rewrite ?Z.ltb_lt, ?Z.ltb_ge in *;
        (split; [intros Ht; try discriminate; right | intros [Hn | Hv]; try congruence]).
      * apply andb_false_intro1. apply Z.leb_gt. lia.
      * apply andb_false_intro1. apply Z.leb_gt. lia.
      * apply andb_false_intro2. apply Z.leb_gt. lia.
      * apply andb_false_iff in Hv as [Hv | Hv]; apply Z.leb_gt in Hv; lia.
    + split; [intros _; now right | reflexivity].
Qed.

Lemma to_int32_throws (v : jsval) (e : jsval) :
  to_int32 v = Throw e ->
  e = type_error "Cannot mix BigInt and other types, use explicit conversions".
Proof. destruct v; simpl; intros He; inversion He; reflexivity. Qed.

End JsFacts.
(* ------------------------------------------------------------------------- *)
(** * Properties of the response logger *)
(* ------------------------------------------------------------------------- *)
Module LoggerFacts.
Import Js Logger Samples.

Lemma str_length_app (a b : jsstring) : str_length (a ++ b) = str_length a + str_length b.
Proof. unfold str_length. rewrite length_app. lia. Qed.

Lemma truncate_short (marker l : jsstring) :
  str_length l <= 80 -> truncate marker l = l.
Proof.
  intros Hl. unfold truncate.
  destruct (Z.ltb_spec 80 (str_length l)) as [Hlt | _]; [lia | reflexivity].
Qed.

Lemma truncate_long (marker l : jsstring) :
  80 < str_length l -> truncate marker l = take 79 l ++ marker.
Proof.
  intros Hl. unfold truncate, slice.
  destruct (Z.ltb_spec 80 (str_length l)) as [_ | Hle]; [| lia].
  now rewrite drop_0.
Qed.

Lemma truncate_long_length (marker l : jsstring) :
  80 < str_length l -> str_length (truncate marker l) = 79 + str_length marker.
Proof.
  intros Hl. rewrite truncate_long by assumption.
  rewrite str_length_app. unfold str_length in *. rewrite length_take. lia.
Qed.

(** With the one-character marker of the sibling revisions a line never has
    more than 80 code units. *)
Lemma sibling_line_within_budget (l : jsstring) :
  str_length (truncate marker_sibling l) <= 80.
Proof.
  destruct (Z.le_gt_cases (str_length l) 80) as [Hle | Hgt].
  - now rewrite truncate_short.
  - rewrite truncate_long_length by lia. reflexivity.
Qed.

(** With the three-character marker of [server/index.ts] every truncated line
    has 82 code units. *)
Lemma index_ts_truncated_length (l : jsstring) :
  80 < str_length l -> str_length (truncate marker_index_ts l) = 82.
Proof. intros Hl. now rewrite truncate_long_length. Qed.

(** What the listener does, case by case. *)
Lemma on_finish_other_path marker m st now c :
  startsWith (path c) (lit "/api") = false ->
  on_finish marker m st now c = Normal [].
Proof. intros Hp. unfold on_finish. now rewrite Hp. Qed.

Lemma on_finish_falsy marker m st now c :
  startsWith (path c) (lit "/api") = true ->
  truthy (capturedJsonResponse c) = false ->
  on_finish marker m st now c
  = Normal [truncate marker (base_line m (path c) st (now - start c))].
Proof. intros Hp Hf. unfold on_finish. now rewrite Hp, Hf. Qed.

Lemma on_finish_truthy marker m st now c o :
  startsWith (path c) (lit "/api") = true ->
  truthy (capturedJsonResponse c) = true ->
  stringify (capturedJsonResponse c) = Normal o ->
  on_finish marker m st now c
  = Normal [truncate marker
              (base_line m (path c) st (now - start c) ++ lit " :: " ++ template_of o)].
Proof. intros Hp Ht Hs. unfold on_finish. now rewrite Hp, Ht, Hs. Qed.

Lemma on_finish_throw marker m st now c e :
  startsWith (path c) (lit "/api") = true ->
  truthy (capturedJsonResponse c) = true ->
  stringify (capturedJsonResponse c) = Throw e ->
  on_finish marker m st now c = Throw e.
Proof. intros Hp Ht Hs. unfold on_finish. now rewrite Hp, Ht, Hs. Qed.

(** C3 (the code at the failing input).  In [server/index.ts] the request
    [GET long_path], status 200, 3 ms, no JSON body, is logged as a line of 82
    code units: the first 79 of the full line followed by the three
    characters of the marker literal. *)
Theorem index_ts_overlong_line :
  exists l,
    on_finish marker_index_ts (lit "GET") (VNum 200) 1003 (enter 1000 long_path)
      = Normal [l]
    /\ str_length l = 82
    /\ l = take 79 (base_line (lit "GET") long_path (VNum 200) 3) ++ marker_index_ts.
Proof. eexists. split; [reflexivity | split; reflexivity]. Qed.

(** ** The wrapper *)

(** The closure after a handler's calls: each call overwrites the captured
    body. *)
Lemma emit_all_json {R T : Type} (orig : jsval -> list jsval -> R -> completion T * R)
    (calls : list (jsval * list jsval)) (c : closure) (r : R) :
  emit_all (json orig) calls (c, r)
  = ((emit_all orig calls r).1,
     (foldl (fun c call => capture call.1 c) c calls, (emit_all orig calls r).2)).
Proof.
  revert c r. induction calls as [| [body args] rest IH]; intros c r; simpl.
  - reflexivity.
  - unfold json at 1. simpl.
    destruct (orig body args r) as [x r1]. rewrite IH.
    destruct (emit_all orig rest r1) as [xs r2]. reflexivity.
Qed.

Lemma captures_keep_request (calls : list (jsval * list jsval)) (c : closure) :
  let c' := foldl (fun c call => capture call.1 c) c calls in
  start c' = start c /\ path c' = path c.
Proof.
  revert c. induction calls as [| call rest IH]; intros c; simpl.
  - split; reflexivity.
  - destruct (IH (capture call.1 c)) as [Hs Hp]. simpl in Hs, Hp. now rewrite Hs, Hp.
Qed.

Lemma capture_same_request (b : jsval) (c1 c2 : closure) :
  start c1 = start c2 -> path c1 = path c2 -> capture b c1 = capture b c2.
Proof. intros Hs Hp. unfold capture. now rewrite Hs, Hp. Qed.

Lemma captured_after_last {R T : Type} (orig : jsval -> list jsval -> R -> completion T * R)
    (calls : list (jsval * list jsval)) (b : jsval) (args : list jsval)
    (c : closure) (r : R) :
  (emit_all (json orig) (calls ++ [(b, args)]) (c, r)).2.1 = capture b c.
Proof.
  rewrite emit_all_json. simpl. rewrite foldl_snoc. simpl.
  destruct (captures_keep_request calls c) as [Hs Hp]. simpl in Hs, Hp.
  now apply capture_same_request.
Qed.

Lemma spec_line_base m p st d :
  spec_line m p (to_string st) (dec d) None = base_line m p st d.
Proof. unfold spec_line, base_line. now rewrite app_nil_r. Qed.

Lemma spec_line_segment m p st d j :
  spec_line m p (to_string st) (dec d) (Some j) = base_line m p st d ++ lit " :: " ++ j.
Proof. unfold spec_line, base_line. now rewrite <- !app_assoc. Qed.

(** ** The claims about the logger *)

(** C4 (counterexample).  The listener throws: for the request to
    [/api/stats] whose captured body is the BigInt [1n], the TypeError of
    [JSON.stringify] escapes it. *)
Lemma finish_listener_throws_on_bigint :
  on_finish marker_index_ts (lit "GET") (VNum 500) 1004 bigint_closure
  = Throw (type_error "Do not know how to serialize a BigInt").
Proof. reflexivity. Qed.

(** C4 (amended).  The listener throws exactly when the path is an API path,
    the captured body is truthy and [JSON.stringify] throws on it; capturing
    is an assignment, after which the wrapper calls the original emission
    with the same body and arguments and hands back its completion. *)
Theorem finish_listener_throws_iff_stringify_does marker m st now c :
  (throws (on_finish marker m st now c) = true
   <-> startsWith (path c) (lit "/api") = true
       /\ truthy (capturedJsonResponse c) = true
       /\ throws (stringify (capturedJsonResponse c)) = true)
  /\ (forall (R T : Type) (orig : jsval -> list jsval -> R -> completion T * R)
        (b : jsval) (args : list jsval) (r : R),
        json orig b args (c, r) = ((orig b args r).1, (capture b c, (orig b args r).2))).
Proof.
  split.
  - unfold on_finish.
    destruct (startsWith (path c) (lit "/api")); simpl.
    + destruct (truthy (capturedJsonResponse c)); simpl.
      * destruct (stringify (capturedJsonResponse c)); simpl; intuition congruence.
      * intuition congruence.
    + intuition congruence.
  - intros R T orig b args r. unfold json. simpl. now destruct (orig b args r).
Qed.

(** C5 (counterexample).  A request to [/api/orders] finishes and no line is
    logged: the captured body holds a BigInt and the listener is left by the
    TypeError before it reaches [log]. *)
Lemma api_request_without_line :
  ~ exists l, on_finish marker_sibling (lit "GET") (VNum 500) 1002 totals_closure = Normal [l].
Proof. intros [l Hl]. discriminate Hl. Qed.

(** C5 (amended).  For a request under [/api] whose captured body is falsy or
    serializes, the listener logs exactly one line: the specified line with
    the body part when the captured body is truthy, cut to its first 79 code
    units plus the marker when it has more than 80.  For any other path it
    logs nothing.  [GET /api/health], status 200, body [{ ok: true }], 3 ms,
    is logged as written in the specification. *)
Theorem api_request_logs_one_line marker m st now c :
  (startsWith (path c) (lit "/api") = true ->
   truthy (capturedJsonResponse c) = false
     \/ throws (stringify (capturedJsonResponse c)) = false ->
   on_finish marker m st now c
   = Normal [truncate marker
               (spec_line m (path c) (to_string st) (dec (now - start c))
                  (json_segment (capturedJsonResponse c)))])
  /\ (startsWith (path c) (lit "/api") = false -> on_finish marker m st now c = Normal [])
  /\ on_finish marker (lit "GET") (VNum 200) (now + 3) (health_closure now)
     = Normal [lit "GET /api/health 200 in 3ms :: {" ++ dquote ++ lit "ok" ++ dquote
                 ++ lit ":true}"].
Proof.
  split; [| split].
  - intros Hp Hbody. unfold json_segment.
    destruct (truthy (capturedJsonResponse c)) eqn:Ht.
    + destruct (stringify (capturedJsonResponse c)) as [o | e] eqn:Hs.
      * rewrite spec_line_segment. now apply on_finish_truthy.
      * destruct Hbody as [Hf | Hn]; discriminate.
    + rewrite spec_line_base. now apply on_finish_falsy.
  - apply on_finish_other_path.
  - unfold on_finish, health_closure. simpl start.
    replace (now + 3 - now) with 3 by lia. reflexivity.
Qed.

Lemma api_request_logs_one_line_witness :
  on_finish marker_index_ts (lit "POST") (VNum 201) 40 (enter 28 (lit "/api/items"))
  = Normal [lit "POST /api/items 201 in 12ms"].
Proof.
  destruct (api_request_logs_one_line marker_index_ts (lit "POST") (VNum 201) 40
              (enter 28 (lit "/api/items"))) as [Hapi _].
  rewrite Hapi; [reflexivity | reflexivity | left; reflexivity].
Defined.

(** C6.  Wrapping is transparent: whatever the original emission function
    is, a handler's calls through the wrapper produce the same completions
    and leave the response as the same calls of the original would; and the
    body recorded after the calls is that of the last one, so after bodies
    [b1] then [b2] it is [b2]. *)
Theorem wrapper_transparent_last_call_wins {R T : Type}
    (orig : jsval -> list jsval -> R -> completion T * R)
    (calls : list (jsval * list jsval)) (c : closure) (r : R) :
  (emit_all (json orig) calls (c, r)).1 = (emit_all orig calls r).1
  /\ (emit_all (json orig) calls (c, r)).2.2 = (emit_all orig calls r).2
  /\ (forall b args,
        capturedJsonResponse
          (emit_all (json orig) (calls ++ [(b, args)]) (c, r)).2.1 = b)
  /\ (forall b1 args1 b2 args2,
        capturedJsonResponse
          (emit_all (json orig) [(b1, args1); (b2, args2)] (c, r)).2.1 = b2).
Proof.
  split; [| split; [| split]].
  - now rewrite emit_all_json.
  - now rewrite emit_all_json.
  - intros b args. now rewrite captured_after_last.
  - intros b1 args1 b2 args2.
    change [(b1, args1); (b2, args2)] with ([(b1, args1)] ++ [(b2, args2)]).
    now rewrite captured_after_last.
Qed.

(** C10.  When the last body a handler passed to the emission function is
    falsy, the listener does exactly what it does when the function was never
    called: under [/api] it logs the line without the body part.  [null],
    [0], [false] and the empty string are falsy.  The body part is there when
    the last body is truthy (and serializes). *)
Theorem falsy_last_body_omits_segment {R T : Type}
    (orig : jsval -> list jsval -> R -> completion T * R)
    (calls : list (jsval * list jsval)) (b : jsval) (args : list jsval)
    (t : Z) (p : jsstring) (r : R) (marker m : jsstring) (st : jsval) (now : Z) :
  let c := (emit_all (json orig) (calls ++ [(b, args)]) (enter t p, r)).2.1 in
  (truthy b = false ->
   on_finish marker m st now c = on_finish marker m st now (enter t p)
   /\ (startsWith p (lit "/api") = true ->
       on_finish marker m st now c
       = Normal [truncate marker (spec_line m p (to_string st) (dec (now - t)) None)]))
  /\ Forall (fun v => truthy v = false) [VNull; VNum 0; VBool false; VStr []]
  /\ (forall o, truthy b = true -> stringify b = Normal o ->
       startsWith p (lit "/api") = true ->
       on_finish marker m st now c
       = Normal [truncate marker
                   (spec_line m p (to_string st) (dec (now - t)) (Some (template_of o)))]).
Proof.
  intros c. subst c. rewrite captured_after_last.
  split; [| split].
  - intros Hf. split.
    + unfold on_finish. simpl. now rewrite Hf.
    + intros Hp. rewrite spec_line_base. now apply on_finish_falsy.
  - repeat constructor.
  - intros o Ht Hs Hp. rewrite spec_line_segment. now apply on_finish_truthy.
Qed.

Lemma falsy_last_body_omits_segment_witness :
  on_finish marker_sibling (lit "GET") (VNum 200) 7
    (emit_all (json (fun (_ : jsval) (_ : list jsval) (n : nat) => (Normal tt, S n)))
       ([(ok_body, [])] ++ [(VNull, [])]) (enter 2 (lit "/api/health"), 0%nat)).2.1
  = Normal [lit "GET /api/health 200 in 5ms"].
Proof.
  destruct (falsy_last_body_omits_segment
              (fun (_ : jsval) (_ : list jsval) (n : nat) => (Normal tt, S n))
              [(ok_body, [])] VNull [] 2 (lit "/api/health") 0%nat
              marker_sibling (lit "GET") (VNum 200) 7) as [Hfalsy _].
  destruct (Hfalsy eq_refl) as [_ Hline].
  rewrite (Hline eq_refl). reflexivity.
Defined.

End LoggerFacts.

(* ------------------------------------------------------------------------- *)
(** * Properties of the error-handling middleware *)
(* ------------------------------------------------------------------------- *)
Module TranslatorFacts.
Import Js Express Translator Samples.

(** Reading a property of a truthy value never throws. *)
Lemma get_prop_truthy (err : jsval) (k : string) :
  truthy err = true -> get_prop err (lit k) = Normal (field err k).
Proof. destruct err; simpl; intros Ht; try discriminate; reflexivity. Qed.

Lemma resolve_status_truthy (err : jsval) :
  truthy err = true ->
  resolve_status err
  = Normal (if truthy (field err "status") then field err "status"
            else if truthy (field err "statusCode") then field err "statusCode"
            else VNum 500).
Proof.
  intros Ht. unfold resolve_status.
  rewrite (get_prop_truthy err "status" Ht). simpl.
  destruct (truthy (field err "status")); [reflexivity |].
  rewrite (get_prop_truthy err "statusCode" Ht). reflexivity.
Qed.

Lemma resolve_message_truthy (err : jsval) :
  truthy err = true ->
  resolve_message err
  = Normal (if truthy (field err "message") then field err "message"
            else VStr (lit "Internal Server Error")).
Proof.
  intros Ht. unfold resolve_message.
  rewrite (get_prop_truthy err "message" Ht). reflexivity.
Qed.




End TranslatorFacts.

(* ------------------------------------------------------------------------- *)
(** * Properties of the bootstrap and of the gate *)
(* ------------------------------------------------------------------------- *)
Module BootstrapFacts.
Import Js Express Bootstrap Samples JsFacts.

#[local] Arguments lit : simpl never.
#[local] Arguments dec : simpl never.

(** ** What each state transformer changes *)

Lemma emits_eq (es : list event) (s : state) :
  emits es s
  = {| stack := stack s; isInitialized := isInitialized s;
       initializationPromise := initializationPromise s; pc := pc s;
       listening := listening s; waiting := waiting s; next_id := next_id s;
       trace := trace s ++ es |}.
Proof.
  revert s. induction es as [| e es IH]; intros s.
  - simpl. rewrite app_nil_r. now destruct s.
  - unfold emits in *. simpl. rewrite IH. simpl. now rewrite <- app_assoc.
Qed.

Lemma attach_all_eq (rs : list route) (s : state) :
  foldl (fun s r => app_use (LRoute r) s) s rs
  = {| stack := stack s ++ map LRoute rs; isInitialized := isInitialized s;
       initializationPromise := initializationPromise s; pc := pc s;
       listening := listening s; waiting := waiting s; next_id := next_id s;
       trace := trace s ++ map (fun r => Use (LRoute r)) rs |}.
Proof.
  revert s. induction rs as [| r rs IH]; intros s.
  - simpl. rewrite !app_nil_r. now destruct s.
  - simpl. rewrite IH. simpl. now rewrite <- !app_assoc.
Qed.

Lemma finish_eq (id : nat) (rq : request) (r : list event * outcome) (s : state) :
  finish id rq r s
  = {| stack := stack s; isInitialized := isInitialized s;
       initializationPromise := initializationPromise s; pc := pc s;
       listening := listening s;
       waiting := match r.2 with
                  | Done _ => waiting s
                  | Parked pos => <[id := (rq, pos)]> (waiting s)
                  end;
       next_id := next_id s;
       trace := trace s ++ r.1 ++ reply_events id r.2 |}.
Proof.
  unfold finish. rewrite emits_eq. destruct r as [es [rep | pos]]; simpl.
  - unfold emit. simpl. now rewrite <- app_assoc.
  - unfold set_waiting. simpl. now rewrite app_nil_r.
Qed.

Lemma module_load_eq (w : world) :
  module_load w
  = {| stack := module_stack w; isInitialized := false;
       initializationPromise := Pending; pc := AwaitRegisterRoutes;
       listening := None; waiting := ∅; next_id := 0;
       trace := [Use LJson; Use LUrlencoded; Use LCors; Use LLogger;
                 ConsoleLog (lit "Before registering routes") []; RegisterRoutes]
                ++ map (fun r => Use (LRoute r)) (routes_sync w)
                ++ [Use LGate; Export (managed_externally w)] |}.
Proof.
  unfold module_load, init_start. rewrite attach_all_eq. simpl.
  unfold export, app_use, emit, push, module_stack. simpl.
  now rewrite <- !app_assoc.
Qed.

(** ** Dispatch *)

Lemma get_prop_throws (o : jsval) (k : jsstring) (e : jsval) :
  get_prop o k = Throw e -> e = type_error "Cannot read properties of undefined".
Proof. destruct o; simpl; intros He; inversion He; reflexivity. Qed.

Lemma send_json_throws_error (body : jsval) (r r' : response) (e : jsval) :
  send_json body r = (Throw e, r') -> next_with e = WithError e.
Proof.
  unfold send_json. destruct (stringify body) as [o | e1] eqn:Hj.
  - destruct (payload r) as [p |].
    + destruct o; [now intros [= <- _] |].
      destruct (statusCode r) as [| | | z | | | | |]; try discriminate.
      destruct z as [| q | q]; try discriminate.
      repeat (destruct q as [q | q |]; try discriminate; try (now intros [= <- _])).
    + destruct (to_int32 (statusCode r)) as [code | e2] eqn:Hc.
      * destruct ((code <? 100) || (999 <? code)); [| discriminate].
        intros [= <- _]. reflexivity.
      * intros [= <- _]. now rewrite (to_int32_throws _ _ Hc).
  - intros [= <- _]. now rewrite (stringify_throws_bigint_error _ _ Hj).
Qed.

(** Whatever escapes the error handler is an error for [next]. *)
Lemma error_handler_throws_error (err : jsval) (res : response) (e : jsval)
    (st : response * list jsstring) :
  Translator.error_handler err res = (Throw e, st) -> next_with e = WithError e.
Proof.
  unfold Translator.error_handler.
  destruct (Translator.resolve_status err) as [code | e1] eqn:Hs.
  - destruct (Translator.resolve_message err) as [m | e2] eqn:Hm.
    + unfold res_status, res_json, express_res, status.
      destruct (send_json (Translator.body_of m) _) as [[[] | e3] r2] eqn:Hj.
      * discriminate.
      * intros He. inversion He; subst. exact (send_json_throws_error _ _ _ _ Hj).
    + intros He. inversion He; subst.
      unfold Translator.resolve_message in Hm.
      apply bind_throw_inv in Hm as [Hm | (a & _ & Hm)]; [| discriminate].
      now rewrite (get_prop_throws _ _ _ Hm).
  - intros He. inversion He; subst.
    unfold Translator.resolve_status in Hs.
    apply bind_throw_inv in Hs as [Hs | (a & _ & Hs)].
    + now rewrite (get_prop_throws _ _ _ Hs).
    + destruct (truthy a); [discriminate |].
      apply bind_throw_inv in Hs as [Hs | (c & _ & Hs)]; [| discriminate].
      now rewrite (get_prop_throws _ _ _ Hs).
Qed.

Lemma Forall_prepend (Q : event -> Prop) (es : list event) (r : list event * outcome) :
  Forall Q es -> Forall Q r.1 -> Forall Q (prepend es r).1.
Proof. intros Hes Hr. unfold prepend. simpl. now apply Forall_app. Qed.

Lemma Forall_log_lines (Q : event -> Prop) (lines : list jsstring) :
  (forall l, Q (Log l)) -> Forall Q (map Log lines).
Proof. intros HQ. apply Forall_map. now apply Forall_true. Qed.

Lemma continue_Forall (Q : event -> Prop)
    (k : option jsval -> response -> list event * outcome) (m : next_mode) (res : response) :
  (forall err res, Forall Q (k err res).1) -> Forall Q (continue k m res).1.
Proof. intros Hk. destruct m; simpl; auto. Qed.

(** With a pending error a dispatch only logs, and it ends: it never stops in
    the gate. *)
Lemma walk_error_mode (initialized : bool) (id : nat) (rq : request) (ls : list layer) :
  forall (res : response) (e : jsval) (pos : nat),
    Forall is_log (walk initialized id rq res (Some e) pos ls).1
    /\ exists rep, (walk initialized id rq res (Some e) pos ls).2 = Done rep.
Proof.
  induction ls as [| l rest IH]; intros res e pos.
  - simpl. eauto.
  - destruct l; simpl; try apply IH.
    destruct (Translator.error_handler e res) as [[[] | e'] [res' lines]] eqn:Hh.
    + simpl. split; [| eauto]. apply Forall_log_lines. now intros.
    + rewrite (error_handler_throws_error _ _ _ _ Hh). simpl.
      destruct (IH res' e' (S pos)) as [Hev Hout]. split; [| exact Hout].
      apply Forall_app. split; [| exact Hev]. apply Forall_log_lines. now intros.
Qed.

(** The events of a dispatch: log lines, dispatches of routes, and the
    gate's [next()] when the flag is set. *)
Lemma walk_events (initialized : bool) (id : nat) (rq : request) (ls : list layer) :
  forall (res : response) (err : option jsval) (pos : nat),
    Forall (dispatch_event initialized) (walk initialized id rq res err pos ls).1.
Proof.
  induction ls as [| l rest IH]; intros res err pos.
  - simpl. constructor.
  - assert (Hnext : forall m res,
               Forall (dispatch_event initialized)
                 (continue (fun err res => walk initialized id rq res err (S pos) rest) m res).1).
    { intros m res0. apply continue_Forall. intros err0 res1. apply IH. }
    destruct err as [e |].
    + destruct l; simpl; try apply IH.
      destruct (Translator.error_handler e res) as [[[] | e'] [res' lines]].
      * simpl. apply Forall_log_lines. now intros.
      * apply Forall_prepend; [| apply Hnext]. apply Forall_log_lines. now intros.
    + destruct l; simpl; try apply IH; try constructor.
      * destruct (body_error rq); [apply Hnext | apply IH].
      * destruct initialized; [| constructor].
        apply Forall_prepend; [| apply IH]. repeat constructor.
      * destruct (matches r rq); [| apply IH].
        apply Forall_prepend; [repeat constructor |].
        destruct (route_handler r rq) as [st body | e |]; [| apply Hnext | apply IH].
        simpl. destruct (send_json body _) as [[[] | e] res2]; [constructor | apply Hnext].
Qed.

(** While the flag is unset a dispatch stops in the first gate: it reaches
    no layer behind it, and the gate gives no verdict. *)
Lemma walk_closed_gate (id : nat) (rq : request) (pre post : list layer) :
  forall (res : response) (pos : nat),
    Forall (early_event (pos + length pre))
      (walk false id rq res None pos (pre ++ LGate :: post)).1.
Proof.
  induction pre as [| l pre IH]; intros res pos.
  - simpl. constructor.
  - assert (Hlog : forall n, forall l, early_event n (Log l)) by now intros.
    assert (Herr : forall res e n,
               Forall (early_event n)
                 (walk false id rq res (Some e) (S pos) (pre ++ LGate :: post)).1).
    { intros res0 e n. eapply Forall_impl; [apply walk_error_mode |].
      intros [] Hx; try contradiction. exact I. }
    assert (Hstep : forall res,
               Forall (early_event (pos + length (l :: pre)))
                 (walk false id rq res None (S pos) (pre ++ LGate :: post)).1).
    { intros res0. simpl length. replace (pos + S (length pre))%nat with (S pos + length pre)%nat by lia.
      apply IH. }
    assert (Hnext : forall m res,
               Forall (early_event (pos + length (l :: pre)))
                 (continue (fun err res => walk false id rq res err (S pos) (pre ++ LGate :: post))
                    m res).1).
    { intros m res0. destruct m as [| e |]; simpl continue; [apply Hstep | apply Herr | constructor]. }
    destruct l; simpl app; simpl walk; try apply Hstep; try constructor.
    + destruct (body_error rq); [apply Hnext | apply Hstep].
    + destruct (matches r rq); [| apply Hstep].
      apply Forall_prepend; [repeat constructor; simpl; lia |].
      destruct (route_handler r rq) as [st body | e |]; [| apply Hnext | apply Hstep].
      simpl. destruct (send_json body _) as [[[] | e] res2]; [constructor | apply Hnext].
Qed.

(** ** The gate is where the module put it *)

Lemma walk_parks_at_gate (initialized : bool) (id : nat) (rq : request) (ls : list layer) :
  forall (res : response) (err : option jsval) (pos p : nat),
    (walk initialized id rq res err pos ls).2 = Parked p ->
    exists k, p = (pos + k)%nat /\ ls !! k = Some LGate.
Proof.
  induction ls as [| l rest IH]; intros res err pos p.
  - simpl. discriminate.
  - assert (Hrec : forall res err,
               (walk initialized id rq res err (S pos) rest).2 = Parked p ->
               exists k, p = (pos + k)%nat /\ (l :: rest) !! k = Some LGate).
    { intros res0 err0 Hp. destruct (IH _ _ _ _ Hp) as (k & -> & Hk).
      exists (S k). split; [lia | exact Hk]. }
    assert (Hnext : forall m res,
               (continue (fun err res => walk initialized id rq res err (S pos) rest) m res).2
               = Parked p ->
               exists k, p = (pos + k)%nat /\ (l :: rest) !! k = Some LGate).
    { intros [| e |] res0; simpl; [apply Hrec | apply Hrec | discriminate]. }
    destruct err as [e |].
    + destruct l; simpl; try apply Hrec.
      destruct (Translator.error_handler e res) as [[[] | e'] [res' lines]]; simpl.
      * discriminate.
      * apply Hnext.
    + destruct l; simpl; try apply Hrec; try discriminate.
      * destruct (body_error rq); [apply Hnext | apply Hrec].
      * destruct initialized; simpl; [apply Hrec |].
        intros Hp. inversion Hp; subst. exists 0%nat. split; [lia | reflexivity].
      * destruct (matches r rq); [| apply Hrec]. simpl.
        destruct (route_handler r rq) as [st body | e |]; [| apply Hnext | apply Hrec].
        simpl. destruct (send_json body _) as [[[] | e] res2]; [discriminate | apply Hnext].
Qed.

Lemma module_stack_split (w : world) :
  module_stack w
  = ([LJson; LUrlencoded; LCors; LLogger] ++ map LRoute (routes_sync w)) ++ [LGate].
Proof. unfold module_stack. now rewrite <- app_assoc. Qed.

Lemma gate_index_length (w : world) :
  length ([LJson; LUrlencoded; LCors; LLogger] ++ map LRoute (routes_sync w)) = gate_index w.
Proof. unfold gate_index. simpl. now rewrite length_map. Qed.

(** The only gate of the stack is at [gate_index]. *)
Lemma gate_position (w : world) (tail : list layer) (p : nat) :
  Forall (fun l => is_gate l = false) tail ->
  (module_stack w ++ tail) !! p = Some LGate -> p = gate_index w.
Proof.
  intros Htail Hp. rewrite module_stack_split, <- app_assoc in Hp.
  apply lookup_app_Some in Hp as [Hp | [Hlen Hp]].
  - exfalso. apply lookup_app_Some in Hp as [Hp | [_ Hp]].
    + destruct p as [| [| [| [| p]]]]; discriminate.
    + apply list_lookup_fmap_Some in Hp as (r & Hr & _). discriminate.
  - rewrite gate_index_length in *.
    destruct (p - gate_index w)%nat as [| k] eqn:Hk; [lia |].
    simpl in Hp. exfalso.
    apply list_elem_of_lookup_2 in Hp.
    rewrite Forall_forall in Htail. specialize (Htail _ Hp). discriminate.
Qed.

(** ** The invariant *)

Lemma init_events_app (a b : list event) : init_events (a ++ b) = init_events a ++ init_events b.
Proof. unfold init_events. apply List.filter_app. Qed.

Lemma init_events_routes (rs : list route) :
  init_events (map (fun r => Use (LRoute r)) rs) = [].
Proof. induction rs as [| r rs IH]; [reflexivity | exact IH]. Qed.

Lemma init_events_requests (es : list event) :
  Forall request_event es -> init_events es = [].
Proof.
  induction 1 as [| e es He _ IH]; [reflexivity |].
  unfold init_events in *. simpl. destruct e; try contradiction; exact IH.
Qed.

Lemma dispatch_is_request (initialized : bool) (e : event) :
  dispatch_event initialized e -> request_event e.
Proof. destruct e; simpl; auto. Qed.

Lemma reply_events_request (id : nat) (o : outcome) : Forall request_event (reply_events id o).
Proof. destruct o; simpl; repeat constructor. Qed.

Lemma invariant_load (w : world) : invariant w (module_load w).
Proof.
  rewrite module_load_eq. constructor; rewrite ?module_load_eq; simpl.
  - split; [discriminate | congruence].
  - split; discriminate.
  - exists []. rewrite app_nil_r. repeat split; [constructor | congruence].
  - intros id rq pos Hl. rewrite lookup_empty in Hl. discriminate.
  - repeat (constructor; [exact I |]).
    apply Forall_app. split.
    + apply Forall_map. apply Forall_true. now intros.
    + repeat constructor.
  - unfold init_ok. simpl pc. cbv iota. simpl trace.
    change (?a :: ?b :: ?c :: ?d :: ?e :: ?f :: ?r) with ([a; b; c; d; e; f] ++ r).
    now rewrite !init_events_app, init_events_routes.
  - split; [| discriminate].
    intros _ port host Hin.
    repeat (apply elem_of_cons in Hin as [Hin | Hin]; [discriminate |]).
    apply elem_of_app in Hin as [Hin | Hin].
    + apply list_elem_of_fmap in Hin as (r & Hr & _). discriminate.
    + repeat (apply elem_of_cons in Hin as [Hin | Hin]; [discriminate |]).
      now apply elem_of_nil in Hin.
  - congruence.
  - reflexivity.
  - intros b Hin.
    repeat (apply elem_of_cons in Hin as [Hin | Hin]; [discriminate |]).
    apply elem_of_app in Hin as [Hin | Hin].
    + apply list_elem_of_fmap in Hin as (r & Hr & _). discriminate.
    + apply elem_of_cons in Hin as [Hin | Hin]; [discriminate |].
      apply list_elem_of_singleton in Hin. now inversion Hin.
Qed.

(** A turn that only serves requests keeps the invariant, given what it
    appends to the trace. *)
Lemma invariant_request_turn (w : world) (s s' : state) (E : list event) :
  invariant w s ->
  stack s' = stack s ->
  isInitialized s' = isInitialized s ->
  initializationPromise s' = initializationPromise s ->
  pc s' = pc s ->
  trace s' = trace s ++ E ->
  Forall request_event E ->
  (initializationPromise s = Pending -> Forall (before_settle w) E) ->
  (initializationPromise s <> Pending -> Forall (after_settle (initializationPromise s)) E) ->
  (forall id rq pos, waiting s' !! id = Some (rq, pos) -> pos = gate_index w) ->
  (listening s' = None <-> listening s = None) ->
  (listening s' = Some true ->
   listening s = Some true \/ Log (readiness_line (lit "localhost") 5000) ∈ E) ->
  invariant w s'.
Proof.
  intros [Hpc Hflag Hstack Hwait Htrace Hinit [Hl1 Hl2] Hbound Hload Hexport]
    Es Ei Ep Ec Et HE Hbefore Hafter Hw' [Hn Hn'] Hs.
  constructor.
  - now rewrite Ec, Ep.
  - now rewrite Ei, Ep.
  - rewrite Es, Ec. exact Hstack.
  - exact Hw'.
  - rewrite Ep, Et. unfold trace_ok in *.
    destruct (initializationPromise s) as [| | e] eqn:Hp.
    + apply Forall_app. split; [exact Htrace | now apply Hbefore].
    + destruct Htrace as (t1 & t2 & Ht & H1 & H2).
      exists t1, (t2 ++ E). rewrite Ht, <- app_assoc. split; [reflexivity |].
      split; [exact H1 |]. apply Forall_app. split; [exact H2 |]. now apply Hafter.
    + destruct Htrace as (t1 & t2 & Ht & H1 & H2).
      exists t1, (t2 ++ E). rewrite Ht, <- app_assoc. split; [reflexivity |].
      split; [exact H1 |]. apply Forall_app. split; [exact H2 |]. now apply Hafter.
  - unfold init_ok in *. rewrite Ec, Ep, Et, init_events_app, (init_events_requests E HE),
      app_nil_r. exact Hinit.
  - rewrite Et. split.
    + intros Hnone port host Hin. apply elem_of_app in Hin as [Hin | Hin].
      * exact (Hl1 (Hn Hnone) port host Hin).
      * rewrite Forall_forall in HE. exact (HE _ Hin).
    + intros Htrue. apply elem_of_app. destruct (Hs Htrue) as [Hold | Hnew]; auto.
  - rewrite Ep. intros Hsome. apply Hbound. intros Hnone. apply Hsome, Hn', Hnone.
  - rewrite Et. etrans; [exact Hload |]. now apply prefix_app_r.
  - intros b Hin. rewrite Et in Hin. apply elem_of_app in Hin as [Hin | Hin]; [now apply Hexport |].
    rewrite Forall_forall in HE. destruct (HE _ Hin).
Qed.

Lemma early_is_before_settle (w : world) (e : event) :
  early_event (gate_index w) e -> before_settle w e.
Proof. destruct e; simpl; auto. Qed.

Lemma dispatch_is_after_settle (initialized : bool) (o : promise) (e : event) :
  (initialized = true -> o = Fulfilled) -> dispatch_event initialized e -> after_settle o e.
Proof. intros Hi. destruct e; simpl; intros He; auto; contradiction. Qed.

Lemma reply_events_before (w : world) (id : nat) (o : outcome) :
  Forall (before_settle w) (reply_events id o).
Proof. destruct o; simpl; repeat constructor. Qed.

Lemma reply_events_after (p : promise) (id : nat) (o : outcome) :
  Forall (after_settle p) (reply_events id o).
Proof. destruct o; simpl; repeat constructor. Qed.

Lemma invariant_arrive (w : world) (s : state) (rq : request) :
  invariant w s -> invariant w (arrive rq s).
Proof.
  intros Hinv. pose proof Hinv as [Hpc Hflag Hstack Hwait Htrace Hinit Hlisten Hbound Hload Hexport].
  destruct Hstack as (tail & Hst & Hgates & Hhandler).
  unfold arrive. rewrite finish_eq.
  simpl isInitialized. simpl stack.
  remember (walk (isInitialized s) (next_id s) rq fresh None 0 (stack s)) as r eqn:Hr.
  assert (Hev : Forall (dispatch_event (isInitialized s)) r.1)
    by (rewrite Hr; apply walk_events).
  eapply (invariant_request_turn w s _ (r.1 ++ reply_events (next_id s) r.2) Hinv);
    try reflexivity.
  - apply Forall_app. split; [| apply reply_events_request].
    eapply Forall_impl; [exact Hev |]. apply dispatch_is_request.
  - intros Hp. apply Forall_app. split; [| apply reply_events_before].
    assert (Hf : isInitialized s = false).
    { destruct (isInitialized s); [| reflexivity].
      destruct Hflag as [Hflag _]. rewrite Hflag in Hp by reflexivity. discriminate. }
    rewrite Hr, Hf, Hst, module_stack_split, <- app_assoc.
    eapply Forall_impl; [apply walk_closed_gate |].
    intros e He. apply early_is_before_settle. now rewrite gate_index_length in He.
  - intros Hp. apply Forall_app. split; [| apply reply_events_after].
    eapply Forall_impl; [exact Hev |]. intros e. apply dispatch_is_after_settle.
    apply Hflag.
  - simpl. intros id rq' pos. destruct r.2 as [rep | p] eqn:Hout; [apply Hwait |].
    intros Hl. apply lookup_insert_Some in Hl as [[_ Heq] | [_ Hl]]; [| now apply (Hwait id rq')].
    inversion Heq; subst. 
    apply walk_parks_at_gate in Hout as (k & -> & Hk).
    rewrite Hst in Hk. now apply (gate_position w tail).
  - simpl. auto.
Qed.

Lemma continue_events (initialized : bool) (id : nat) (rq : request) (pos : nat)
    (ls : list layer) (m : next_mode) (res : response) :
  Forall (dispatch_event initialized)
    (continue (fun err res => walk initialized id rq res err pos ls) m res).1.
Proof. apply continue_Forall. intros err res0. apply walk_events. Qed.

Lemma continue_parks_at_gate (initialized : bool) (id : nat) (rq : request) (pos p : nat)
    (ls : list layer) (m : next_mode) (res : response) :
  (continue (fun err res => walk initialized id rq res err pos ls) m res).2 = Parked p ->
  exists k, p = (pos + k)%nat /\ ls !! k = Some LGate.
Proof. destruct m; simpl; [apply walk_parks_at_gate | apply walk_parks_at_gate | discriminate]. Qed.

Lemma invariant_resume (w : world) (s : state) (id : nat) :
  invariant w s -> invariant w (resume id s).
Proof.
  intros Hinv. pose proof Hinv as [Hpc Hflag Hstack Hwait Htrace Hinit Hlisten Hbound Hload Hexport].
  destruct Hstack as (tail & Hst & Hgates & Hhandler).
  unfold resume. destruct (waiting s !! id) as [[rq pos] |] eqn:Hw; [| exact Hinv].
  assert (Hparked : forall p k, p = (S pos + k)%nat -> drop (S pos) (stack s) !! k = Some LGate ->
                                p = gate_index w).
  { intros p k -> Hk. rewrite lookup_drop, Hst in Hk. now apply (gate_position w tail). }
  destruct (initializationPromise s) as [| | e] eqn:Hp; [exact Hinv | |].
  - rewrite finish_eq. simpl isInitialized. simpl stack.
    remember (walk (isInitialized s) id rq fresh None (S pos) (drop (S pos) (stack s)))
      as r eqn:Hr.
    assert (Hev : Forall (dispatch_event (isInitialized s)) r.1)
      by (rewrite Hr; apply walk_events).
    eapply (invariant_request_turn w s _
              ((prepend [GateNext id] r).1 ++ reply_events id (prepend [GateNext id] r).2) Hinv);
      try reflexivity.
    + apply Forall_app. split; [| apply reply_events_request].
      apply Forall_prepend; [repeat constructor |].
      eapply Forall_impl; [exact Hev |]. apply dispatch_is_request.
    + rewrite Hp. discriminate.
    + rewrite Hp. intros _. apply Forall_app. split; [| apply reply_events_after].
      apply Forall_prepend; [repeat constructor |].
      eapply Forall_impl; [exact Hev |]. intros e0. now apply dispatch_is_after_settle.
    + simpl. intros id' rq' p. destruct r.2 as [rep | p'] eqn:Hout.
      * intros Hl. apply lookup_delete_Some in Hl as [_ Hl]. now apply (Hwait id' rq').
      * intros Hl. apply lookup_insert_Some in Hl as [[_ Heq] | [_ Hl]].
        -- inversion Heq; subst.
           apply walk_parks_at_gate in Hout as (k & Hk1 & Hk2). now apply (Hparked p k).
        -- apply lookup_delete_Some in Hl as [_ Hl]. now apply (Hwait id' rq').
    + simpl. auto.
  - rewrite finish_eq. simpl isInitialized. simpl stack.
    remember (continue
                (fun err res => walk (isInitialized s) id rq res err (S pos)
                                  (drop (S pos) (stack s)))
                (next_with e) fresh) as r eqn:Hr.
    assert (Hev : Forall (dispatch_event (isInitialized s)) r.1)
      by (rewrite Hr; apply continue_events).
    eapply (invariant_request_turn w s _
              ((prepend [GateError id e] r).1 ++ reply_events id (prepend [GateError id e] r).2)
              Hinv);
      try reflexivity.
    + apply Forall_app. split; [| apply reply_events_request].
      apply Forall_prepend; [repeat constructor |].
      eapply Forall_impl; [exact Hev |]. apply dispatch_is_request.
    + rewrite Hp. discriminate.
    + rewrite Hp. intros _. apply Forall_app. split; [| apply reply_events_after].
      apply Forall_prepend; [repeat constructor |].
      eapply Forall_impl; [exact Hev |]. intros e0. apply dispatch_is_after_settle.
      intros Hi. apply Hflag in Hi. congruence.
    + simpl. intros id' rq' p. destruct r.2 as [rep | p'] eqn:Hout.
      * intros Hl. apply lookup_delete_Some in Hl as [_ Hl]. now apply (Hwait id' rq').
      * intros Hl. apply lookup_insert_Some in Hl as [[_ Heq] | [_ Hl]].
        -- inversion Heq; subst.
           apply continue_parks_at_gate in Hout as (k & Hk1 & Hk2). now apply (Hparked p k).
        -- apply lookup_delete_Some in Hl as [_ Hl]. now apply (Hwait id' rq').
    + simpl. auto.
Qed.

Lemma invariant_listening (w : world) (s : state) :
  invariant w s -> invariant w (on_listening s).
Proof.
  intros Hinv. unfold on_listening.
  destruct (listening s) as [[|] |] eqn:Hl; try exact Hinv.
  eapply (invariant_request_turn w s _ [Log (readiness_line (lit "localhost") 5000)] Hinv);
    try reflexivity.
  - repeat constructor.
  - intros _. repeat constructor.
  - intros _. repeat constructor.
  - apply Hinv.
  - simpl. rewrite Hl. split; discriminate.
  - intros _. right. apply list_elem_of_singleton. reflexivity.
Qed.

Lemma routes_init_turn (rs : list route) :
  Forall init_turn_event (map (fun r => Use (LRoute r)) rs).
Proof. apply Forall_map. apply Forall_true. now intros. Qed.

Lemma init_turn_before_settle (w : world) (e : event) : init_turn_event e -> before_settle w e.
Proof. destruct e; simpl; intros He; auto; contradiction. Qed.

Lemma routes_no_gate (rs : list route) : Forall (fun l => is_gate l = false) (map LRoute rs).
Proof. apply Forall_map. apply Forall_true. now intros. Qed.

Lemma no_listen_in (es : list event) (port : Z) (host : jsstring) :
  Forall (fun e => is_listen e = false) es -> Listen port host ∉ es.
Proof. intros Hes Hin. rewrite Forall_forall in Hes. specialize (Hes _ Hin). discriminate. Qed.

Lemma routes_no_listen (rs : list route) :
  Forall (fun e => is_listen e = false) (map (fun r => Use (LRoute r)) rs).
Proof. apply Forall_map. apply Forall_true. now intros. Qed.

(** A turn of the initialization function, started while the promise is
    pending: it pushes layers that are not gates, appends events that may
    precede the settling and, when it settles, the [Settle] event last. *)
Lemma invariant_init_turn (w : world) (s s' : state) (L : list layer) (E : list event) :
  invariant w s ->
  initializationPromise s = Pending ->
  stack s' = stack s ++ L ->
  Forall (fun l => is_gate l = false) L ->
  waiting s' = waiting s ->
  trace s' = trace s ++ E
             ++ match initializationPromise s' with Pending => [] | o => [Settle o] end ->
  Forall init_turn_event E ->
  (pc s' = Returned <-> initializationPromise s' <> Pending) ->
  (isInitialized s' = true <-> initializationPromise s' = Fulfilled) ->
  (pc s' <> AwaitRegisterRoutes -> registerRoutes_result w = None ->
   LErrorHandler ∈ L \/ pc s <> AwaitRegisterRoutes) ->
  init_ok w s' ->
  (listening s' = None -> listening s = None /\ Forall (fun e => is_listen e = false) E) ->
  (listening s' = Some true -> listening s = Some true) ->
  (listening s' <> None -> listening s <> None \/ initializationPromise s' = Fulfilled) ->
  invariant w s'.
Proof.
  intros [Hpc Hflag Hstack Hwait Htrace Hinit [Hl1 Hl2] Hbound Hload Hexport]
    Hp Es HL Ew Et HE' Hpc' Hflag' Hh Hinit' Hn Ht Hb.
  destruct Hstack as (tail & Hst & Hgates & Hhandler).
  assert (HE : Forall (before_settle w) E)
    by (eapply Forall_impl; [exact HE' | apply init_turn_before_settle]).
  constructor; auto.
  - exists (tail ++ L). rewrite Es, Hst, <- app_assoc. split; [reflexivity |].
    split; [now apply Forall_app |].
    intros Hc Hr. apply elem_of_app. destruct (Hh Hc Hr) as [Hin | Hold]; auto.
  - now rewrite Ew.
  - rewrite Hp in Htrace. simpl in Htrace. rewrite Et.
    destruct (initializationPromise s') as [| | e]; simpl.
    + rewrite app_nil_r. now apply Forall_app.
    + exists (trace s ++ E), []. rewrite <- app_assoc. split; [reflexivity |].
      split; [now apply Forall_app | constructor].
    + exists (trace s ++ E), []. rewrite <- app_assoc. split; [reflexivity |].
      split; [now apply Forall_app | constructor].
  - split; [| intros Htrue; rewrite Et; apply elem_of_app; left; auto].
    intros Hnone port host Hin. destruct (Hn Hnone) as [Hold HEl].
    rewrite Et in Hin. apply elem_of_app in Hin as [Hin | Hin]; [exact (Hl1 Hold port host Hin) |].
    apply elem_of_app in Hin as [Hin | Hin]; [exact (no_listen_in E port host HEl Hin) |].
    destruct (initializationPromise s'); [now apply elem_of_nil in Hin | |];
      apply list_elem_of_singleton in Hin; discriminate.
  - intros Hsome. destruct (Hb Hsome) as [Hold | Hnew]; [| exact Hnew].
    apply Hbound in Hold. congruence.
  - rewrite Et. etrans; [exact Hload |]. now apply prefix_app_r.
  - intros b Hin. rewrite Et in Hin.
    apply elem_of_app in Hin as [Hin | Hin]; [now apply Hexport |].
    apply elem_of_app in Hin as [Hin | Hin].
    + rewrite Forall_forall in HE'. destruct (HE' _ Hin).
    + destruct (initializationPromise s'); [now apply elem_of_nil in Hin | |];
        apply list_elem_of_singleton in Hin; discriminate.
Qed.

Lemma pending_of_pc (w : world) (s : state) :
  invariant w s -> pc s <> Returned ->
  initializationPromise s = Pending /\ isInitialized s = false.
Proof.
  intros [Hpc Hflag _ _ _ _ _ _ _ _] Hne.
  assert (Hp : initializationPromise s = Pending).
  { destruct (initializationPromise s) eqn:Hp; [reflexivity | |];
      exfalso; apply Hne, Hpc; discriminate. }
  split; [exact Hp |].
  destruct (isInitialized s); [| reflexivity].
  destruct Hflag as [Hflag _]. rewrite Hflag in Hp by reflexivity. discriminate.
Qed.

(** The routine side conditions of [invariant_init_turn]: lists of layers
    and of events of the right kind, the trace as an append, coherent flag
    and program counter, an untouched listener. *)
Ltac event_lists :=
  repeat (apply Forall_app; split);
  first [apply routes_no_gate | apply routes_init_turn | apply routes_no_listen | idtac];
  repeat constructor.

Ltac init_turn_routine Hp Hf :=
  simpl; try reflexivity;
  try solve [ event_lists
            | rewrite <- ?app_assoc; simpl; now rewrite ?Hp, ?app_nil_r
            | rewrite ?Hp, ?Hf; split; congruence
            | split; reflexivity
            | intros Hn; split; [exact Hn | event_lists]
            | discriminate
            | auto ].

Lemma invariant_routes_settled (w : world) (s : state) :
  invariant w s -> invariant w (routes_settled w s).
Proof.
  intros Hinv. unfold routes_settled. destruct (pc s) eqn:Hpcs; try exact Hinv.
  destruct (pending_of_pc w s Hinv) as [Hp Hf]; [congruence |].
  pose proof (inv_init w s Hinv) as Hinit. unfold init_ok in Hinit. rewrite Hpcs in Hinit.
  rewrite attach_all_eq.
  assert (Hinstalled : forall L : list layer,
             LErrorHandler ∈ (map LRoute (routes_late w) ++ LErrorHandler :: L)
             \/ pc s <> AwaitRegisterRoutes).
  { intros L. left. apply elem_of_app. right. apply list_elem_of_here. }
  destruct (registerRoutes_result w) as [e |] eqn:Hreg;
    [| unfold after_routes; simpl stack;
       destruct (development w) eqn:Hdev;
       [| destruct (serveStatic_result w) as [e |] eqn:Hstatic]].
  - (* registerRoutes rejects *)
    eapply (invariant_init_turn w s _ (map LRoute (routes_late w))
              (map (fun r => Use (LRoute r)) (routes_late w)
                 ++ [ConsoleError (lit "Initialization failed:") e]) Hinv Hp);
      init_turn_routine Hp Hf.
    + congruence.
    + unfold init_ok. simpl. rewrite !init_events_app, init_events_routes, Hinit. simpl.
      split; [| discriminate]. now exists (Use LErrorHandler :: GetEnv :: wiring w).
  - (* development: suspended in setupVite *)
    eapply (invariant_init_turn w s _ (map LRoute (routes_late w) ++ [LErrorHandler])
              (map (fun r => Use (LRoute r)) (routes_late w)
                 ++ [ConsoleLog (lit "After registering routes") [];
                     ConsoleLog (lit "Registered routes:")
                       (registeredRoutes (stack s ++ map LRoute (routes_late w)));
                     Use LErrorHandler; GetEnv; CreateServer; SetupVite]) Hinv Hp);
      init_turn_routine Hp Hf.
    unfold init_ok. simpl. rewrite !init_events_app, init_events_routes, Hinit. auto.
  - (* production: serveStatic throws *)
    eapply (invariant_init_turn w s _ (map LRoute (routes_late w) ++ [LErrorHandler])
              (map (fun r => Use (LRoute r)) (routes_late w)
                 ++ [ConsoleLog (lit "After registering routes") [];
                     ConsoleLog (lit "Registered routes:")
                       (registeredRoutes (stack s ++ map LRoute (routes_late w)));
                     Use LErrorHandler; GetEnv; ServeStatic;
                     ConsoleError (lit "Initialization failed:") e]) Hinv Hp);
      init_turn_routine Hp Hf.
    unfold init_ok. simpl. rewrite !init_events_app, init_events_routes, Hinit. simpl.
    split; [| discriminate]. exists []. unfold sequence, wiring. now rewrite Hdev.
  - (* production: complete *)
    eapply (invariant_init_turn w s _ (map LRoute (routes_late w) ++ [LErrorHandler; LStatic])
              (map (fun r => Use (LRoute r)) (routes_late w)
                 ++ [ConsoleLog (lit "After registering routes") [];
                     ConsoleLog (lit "Registered routes:")
                       (registeredRoutes (stack s ++ map LRoute (routes_late w)));
                     Use LErrorHandler; GetEnv; ServeStatic; Use LStatic;
                     ConsoleLog (lit "Initialization complete") []]) Hinv Hp);
      init_turn_routine Hp Hf.
    unfold init_ok. simpl. rewrite !init_events_app, init_events_routes, Hinit. simpl.
    assert (Hseq : sequence w = [RegisterRoutes; Use LErrorHandler; GetEnv; ServeStatic])
      by (unfold sequence, wiring; now rewrite Hdev).
    rewrite Hseq. split; [now exists [] | reflexivity].
Qed.

Lemma invariant_vite_settled (w : world) (s : state) :
  invariant w s -> invariant w (vite_settled w s).
Proof.
  intros Hinv. unfold vite_settled. destruct (pc s) eqn:Hpcs; try exact Hinv.
  destruct (pending_of_pc w s Hinv) as [Hp Hf]; [congruence |].
  pose proof (inv_init w s Hinv) as Hinit. unfold init_ok in Hinit. rewrite Hpcs in Hinit.
  destruct Hinit as [Hdev Hinit].
  assert (Hpcs' : pc s <> AwaitRegisterRoutes) by congruence.
  destruct (setupVite_result w) as [e |] eqn:Hvite;
    [| unfold after_vite; destruct (managed_externally w) eqn:Hm; simpl negb; cbv iota].
  - (* setupVite rejects *)
    eapply (invariant_init_turn w s _ [] [ConsoleError (lit "Initialization failed:") e] Hinv Hp);
      init_turn_routine Hp Hf.
    unfold init_ok. simpl. rewrite !init_events_app, Hinit. simpl.
    split; [| discriminate]. unfold sequence, wiring. rewrite Hdev.
    now exists (if managed_externally w then [] else [Listen 5000 (lit "localhost")]).
  - (* managed externally: no listener *)
    eapply (invariant_init_turn w s _ [LVite]
              [Use LVite; ConsoleLog (lit "Initialization complete") []] Hinv Hp);
      init_turn_routine Hp Hf.
    unfold init_ok. simpl. rewrite !init_events_app, Hinit. simpl.
    assert (Hseq : sequence w
                   = [RegisterRoutes; Use LErrorHandler; GetEnv; CreateServer; SetupVite])
      by (unfold sequence, wiring; now rewrite Hdev, Hm).
    rewrite Hseq. split; [now exists [] | reflexivity].
  - (* self-hosted: listen *)
    eapply (invariant_init_turn w s _ [LVite]
              [Use LVite; Listen 5000 (lit "localhost");
               ConsoleLog (lit "Initialization complete") []] Hinv Hp);
      init_turn_routine Hp Hf.
    unfold init_ok. simpl. rewrite !init_events_app, Hinit. simpl.
    assert (Hseq : sequence w
                   = [RegisterRoutes; Use LErrorHandler; GetEnv; CreateServer; SetupVite;
                      Listen 5000 (lit "localhost")])
      by (unfold sequence, wiring; now rewrite Hdev, Hm).
    rewrite Hseq. split; [now exists [] | reflexivity].
Qed.

(** Every turn keeps the invariant; so every state of the process has it. *)
Lemma invariant_step (w : world) (s : state) (i : input) :
  invariant w s -> invariant w (step w s i).
Proof.
  intros Hinv. destruct i as [rq | | | id |]; simpl.
  - now apply invariant_arrive.
  - now apply invariant_routes_settled.
  - now apply invariant_vite_settled.
  - now apply invariant_resume.
  - now apply invariant_listening.
Qed.

Lemma invariant_run (w : world) (inputs : list input) (s : state) :
  invariant w s -> invariant w (run w s inputs).
Proof.
  revert s. induction inputs as [| i inputs IH]; intros s Hinv; [exact Hinv |].
  simpl. apply IH. now apply invariant_step.
Qed.

Lemma invariant_reachable (w : world) (s : state) : reachable w s -> invariant w s.
Proof. intros [inputs ->]. apply invariant_run, invariant_load. Qed.

(** ** What a turn leaves alone *)

(** Serving requests touches nothing of the initialization. *)
Lemma request_turn_frame (w : world) (s : state) (i : input) :
  i <> RoutesSettled -> i <> ViteSettled ->
  exists E,
    trace (step w s i) = trace s ++ E
    /\ Forall request_event E
    /\ stack (step w s i) = stack s
    /\ isInitialized (step w s i) = isInitialized s
    /\ initializationPromise (step w s i) = initializationPromise s
    /\ pc (step w s i) = pc s.
Proof.
  intros Hr Hv. destruct i as [rq | | | id |]; try contradiction; simpl.
  - unfold arrive. rewrite finish_eq. simpl. eexists. split; [reflexivity |].
    split; [| auto]. apply Forall_app. split; [| apply reply_events_request].
    eapply Forall_impl; [apply walk_events |]. apply dispatch_is_request.
  - unfold resume. destruct (waiting s !! id) as [[rq pos] |];
      [| exists []; rewrite app_nil_r; repeat split; constructor].
    destruct (initializationPromise s) as [| | e] eqn:Hp;
      [exists []; rewrite app_nil_r; repeat split; auto; constructor | |];
      rewrite finish_eq; simpl; (eexists; split; [reflexivity |]); (split; [| auto]);
      (constructor; [exact I |]);
      (apply Forall_app; split; [| apply reply_events_request]);
      (eapply Forall_impl; [| apply dispatch_is_request]).
    + apply walk_events.
    + apply continue_events.
  - unfold on_listening. destruct (listening s) as [[|] |].
    + exists []. rewrite app_nil_r. repeat split. constructor.
    + simpl. eexists. split; [reflexivity |]. split; [repeat constructor | auto].
    + exists []. rewrite app_nil_r. repeat split. constructor.
Qed.

(** Once the initialization function has returned, the settling of a
    collaborator's promise does nothing. *)
Lemma init_turn_after_return (w : world) (s : state) (i : input) :
  pc s = Returned -> (i = RoutesSettled \/ i = ViteSettled) -> step w s i = s.
Proof.
  intros Hpc [-> | ->]; simpl; unfold routes_settled, vite_settled; now rewrite Hpc.
Qed.

Lemma input_kind (i : input) :
  (i = RoutesSettled \/ i = ViteSettled) \/ (i <> RoutesSettled /\ i <> ViteSettled).
Proof. destruct i; auto; right; split; discriminate. Qed.

(** After the return nothing of the initialization changes any more. *)
Lemma returned_step (w : world) (s : state) (i : input) :
  pc s = Returned ->
  pc (step w s i) = Returned
  /\ initializationPromise (step w s i) = initializationPromise s
  /\ isInitialized (step w s i) = isInitialized s
  /\ stack (step w s i) = stack s
  /\ init_events (trace (step w s i)) = init_events (trace s).
Proof.
  intros Hpc. destruct (input_kind i) as [Hinit | [Hr Hv]].
  - rewrite (init_turn_after_return w s i Hpc Hinit). auto.
  - destruct (request_turn_frame w s i Hr Hv) as (E & Et & HE & Es & Ei & Ep & Ec).
    rewrite Ec, Ep, Ei, Es, Et, init_events_app, (init_events_requests E HE), app_nil_r. auto.
Qed.

Lemma returned_run (w : world) (more : list input) (s : state) :
  pc s = Returned ->
  pc (run w s more) = Returned
  /\ initializationPromise (run w s more) = initializationPromise s
  /\ isInitialized (run w s more) = isInitialized s
  /\ stack (run w s more) = stack s
  /\ init_events (trace (run w s more)) = init_events (trace s).
Proof.
  revert s. induction more as [| i more IH]; intros s Hpc; [auto |].
  simpl. destruct (returned_step w s i Hpc) as (Hc & Hp & Hi & Hs & He).
  destruct (IH _ Hc) as (Hc' & Hp' & Hi' & Hs' & He').
  rewrite Hp', Hi', Hs', He'. auto.
Qed.

(** ** Counting events *)

Lemma count_app (p : event -> bool) (a b : list event) :
  count p (a ++ b) = (count p a + count p b)%nat.
Proof. unfold count. now rewrite List.filter_app, length_app. Qed.

Lemma count_prefix (p : event -> bool) (a b : list event) :
  a `prefix_of` b -> (count p a <= count p b)%nat.
Proof. intros [k ->]. rewrite count_app. lia. Qed.

Lemma count_init_events (p : event -> bool) (tr : list event) :
  (forall e, p e = true -> is_init_event e = true) ->
  count p (init_events tr) = count p tr.
Proof.
  intros Hp. unfold count, init_events. induction tr as [| e tr IH]; [reflexivity |].
  simpl. destruct (is_init_event e) eqn:Hi; simpl.
  - destruct (p e); simpl; now rewrite IH.
  - destruct (p e) eqn:Hpe; [| exact IH]. apply Hp in Hpe. congruence.
Qed.

Lemma count_zero (p : event -> bool) (Q : event -> Prop) (tr : list event) :
  (forall e, Q e -> p e = false) -> Forall Q tr -> count p tr = 0%nat.
Proof.
  intros Hq. unfold count. induction 1 as [| e tr He _ IH]; [reflexivity |].
  simpl. now rewrite (Hq e He).
Qed.

Lemma count_pos (p : event -> bool) (e : event) (tr : list event) :
  p e = true -> e ∈ tr -> (1 <= count p tr)%nat.
Proof.
  intros Hp Hin. apply list_elem_of_split in Hin as (a & b & ->).
  rewrite count_app. unfold count at 2. simpl. rewrite Hp. simpl. lia.
Qed.

Lemma sequence_counts (w : world) :
  count is_register_routes (sequence w) = 1%nat /\ (count is_listen (sequence w) <= 1)%nat.
Proof.
  unfold sequence, wiring.
  destruct (development w), (managed_externally w); split; unfold count; simpl;
    reflexivity || lia.
Qed.

Lemma init_events_prefix (w : world) (s : state) :
  invariant w s -> init_events (trace s) `prefix_of` sequence w.
Proof.
  intros Hinv. pose proof (inv_init w s Hinv) as Hinit. unfold init_ok in Hinit.
  destruct (pc s).
  - rewrite Hinit. now exists (Use LErrorHandler :: GetEnv :: wiring w).
  - destruct Hinit as [Hdev ->]. unfold sequence, wiring. rewrite Hdev.
    now exists (if managed_externally w then [] else [Listen 5000 (lit "localhost")]).
  - apply Hinit.
Qed.

Lemma settle_count (w : world) (s : state) :
  invariant w s ->
  count is_settle (trace s)
  = match initializationPromise s with Pending => 0%nat | _ => 1%nat end.
Proof.
  intros Hinv. pose proof (inv_trace w s Hinv) as Htr. unfold trace_ok in Htr.
  assert (Hb : forall e, before_settle w e -> is_settle e = false)
    by (intros []; simpl; auto; contradiction).
  assert (Ha : forall o e, after_settle o e -> is_settle e = false)
    by (intros o []; simpl; auto; contradiction).
  destruct (initializationPromise s) as [| | e].
  - exact (count_zero _ _ _ Hb Htr).
  - destruct Htr as (t1 & t2 & -> & H1 & H2).
    change (Settle Fulfilled :: t2) with ([Settle Fulfilled] ++ t2).
    rewrite !count_app, (count_zero _ _ _ Hb H1), (count_zero _ _ _ (Ha Fulfilled) H2).
    reflexivity.
  - destruct Htr as (t1 & t2 & -> & H1 & H2).
    change (Settle (Rejected e) :: t2) with ([Settle (Rejected e)] ++ t2).
    rewrite !count_app, (count_zero _ _ _ Hb H1), (count_zero _ _ _ (Ha (Rejected e)) H2).
    reflexivity.
Qed.

(** Whatever the requests and whatever the order of the turns, the
    initialization steps taken so far are an initial part of the sequence
    "register routes, install the error handler, resolve the mode, wire";
    [registerRoutes] has been called exactly once and [listen] at most once;
    the promise has settled at most once, exactly once when the function has
    returned, and once settled it keeps its outcome in every later state. *)
Lemma attempted_once (w : world) (inputs more : list input) :
  let s := run w (module_load w) inputs in
  init_events (trace s) `prefix_of` sequence w
  /\ count is_register_routes (trace s) = 1%nat
  /\ (count is_listen (trace s) <= 1)%nat
  /\ (count is_settle (trace s) <= 1)%nat
  /\ (pc s = Returned -> count is_settle (trace s) = 1%nat)
  /\ (initializationPromise s <> Pending ->
      initializationPromise (run w s more) = initializationPromise s
      /\ init_events (trace (run w s more)) = init_events (trace s)).
Proof.
  intros s.
  assert (Hinv : invariant w s) by apply invariant_run, invariant_load.
  pose proof (init_events_prefix w s Hinv) as Hprefix.
  destruct (sequence_counts w) as [Hreg Hlisten].
  split; [exact Hprefix |]. split; [| split; [| split; [| split]]].
  - apply Nat.le_antisymm.
    + rewrite <- (count_init_events is_register_routes) by (intros []; simpl; congruence).
      rewrite <- Hreg. now apply count_prefix.
    + apply (count_pos _ RegisterRoutes); [reflexivity |].
      eapply elem_of_prefix; [| exact (inv_load w s Hinv)].
      rewrite module_load_eq. simpl. do 5 apply list_elem_of_further. apply list_elem_of_here.
  - rewrite <- (count_init_events is_listen) by (intros []; simpl; congruence).
    etrans; [apply count_prefix, Hprefix | exact Hlisten].
  - rewrite (settle_count w s Hinv). destruct (initializationPromise s); lia.
  - intros Hpc. rewrite (settle_count w s Hinv).
    apply (inv_pc w s Hinv) in Hpc. destruct (initializationPromise s); congruence.
  - intros Hp. apply (inv_pc w s Hinv) in Hp.
    destruct (returned_run w more s Hp) as (_ & Hp' & _ & _ & He). auto.
Qed.

(** Where an event that is neither allowed before the settling nor the
    settling itself sits in a settled trace: behind the [Settle]. *)
Lemma behind_settle (w : world) (o : promise) (a b t1 t2 : list event) (x : event) :
  a ++ Settle o :: b = t1 ++ x :: t2 ->
  Forall (before_settle w) a -> Forall (after_settle o) b ->
  ~ before_settle w x -> is_settle x = false ->
  Settle o ∈ t1 /\ after_settle o x.
Proof.
  intros Heq Ha Hb Hx Hs.
  apply List.app_eq_app in Heq as [l [[Hl1 Hl2] | [Hl1 Hl2]]].
  - exfalso. destruct l as [| y l].
    + simpl in Hl2. inversion Hl2; subst. discriminate.
    + simpl in Hl2. inversion Hl2; subst. rewrite Forall_forall in Ha.
      apply Hx, Ha. apply elem_of_app. right. apply list_elem_of_here.
  - destruct l as [| y l].
    + simpl in Hl2. inversion Hl2; subst. discriminate.
    + simpl in Hl2. inversion Hl2; subst. split.
      * apply elem_of_app. right. apply list_elem_of_here.
      * rewrite Forall_forall in Hb. apply Hb. apply elem_of_app. right. apply list_elem_of_here.
Qed.

Lemma gate_event_settled (w : world) (s : state) (t1 t2 : list event) (x : event) :
  invariant w s ->
  trace s = t1 ++ x :: t2 ->
  ~ before_settle w x -> is_settle x = false ->
  Settle (initializationPromise s) ∈ t1 /\ after_settle (initializationPromise s) x.
Proof.
  intros Hinv Ht Hx Hs. pose proof (inv_trace w s Hinv) as Htr. unfold trace_ok in Htr.
  destruct (initializationPromise s) as [| | e].
  - exfalso. apply Hx. rewrite Forall_forall in Htr. apply Htr. rewrite Ht.
    apply elem_of_app. right. apply list_elem_of_here.
  - destruct Htr as (a & b & Hab & Ha & Hb). rewrite Hab in Ht.
    exact (behind_settle w Fulfilled a b t1 t2 x Ht Ha Hb Hx Hs).
  - destruct Htr as (a & b & Hab & Ha & Hb). rewrite Hab in Ht.
    exact (behind_settle w (Rejected e) a b t1 t2 x Ht Ha Hb Hx Hs).
Qed.

Lemma gate_event_in (w : world) (s : state) (x : event) :
  invariant w s -> x ∈ trace s -> ~ before_settle w x -> is_settle x = false ->
  after_settle (initializationPromise s) x.
Proof.
  intros Hinv Hin Hx Hs. apply list_elem_of_split in Hin as (t1 & t2 & Ht).
  exact (proj2 (gate_event_settled w s t1 t2 x Hinv Ht Hx Hs)).
Qed.

(** Resuming a request that waits in the gate. *)
Lemma resume_trace (w : world) (s : state) (id : nat) (rq : request) (pos : nat) :
  waiting s !! id = Some (rq, pos) ->
  trace (resume id s)
  = trace s
    ++ match initializationPromise s with
       | Pending => []
       | Fulfilled =>
           let r := walk (isInitialized s) id rq fresh None (S pos) (drop (S pos) (stack s)) in
           GateNext id :: r.1 ++ reply_events id r.2
       | Rejected e =>
           let r := continue
                      (fun err res => walk (isInitialized s) id rq res err (S pos)
                                        (drop (S pos) (stack s)))
                      (next_with e) fresh in
           GateError id e :: r.1 ++ reply_events id r.2
       end.
Proof.
  intros Hw. unfold resume. rewrite Hw.
  destruct (initializationPromise s); [now rewrite app_nil_r | |]; now rewrite finish_eq.
Qed.

(** C1 (code defect).  The gate is installed (line 96) after the
    initialization function has started and has already called
    [registerRoutes] (line 52).  In a serverless deployment whose registrar
    attaches [GET /api/health] before it first suspends (and then awaits,
    say, a database connection), the route's layer is at stack index 4, in
    front of the gate at index 5: a request arriving while the promise is
    pending is dispatched to the route and answered, with no verdict of the
    gate and before the promise has settled. *)
Lemma route_dispatched_while_pending :
  let s := run eager_world (module_load eager_world) [Arrive health_request] in
  initializationPromise s = Pending
  /\ stack s = [LJson; LUrlencoded; LCors; LLogger; LRoute health_route; LGate]
  /\ gate_index eager_world = 5%nat
  /\ trace s
     = trace (module_load eager_world)
       ++ [Dispatch 0 4;
           Reply 0 (Sent {| statusCode := VNum 200;
                            payload := Some (lit "{" ++ dquote ++ lit "ok" ++ dquote
                                               ++ lit ":true}") |})]
  /\ count is_settle (trace s) = 0%nat.
Proof. repeat split; reflexivity. Qed.

(** What the gate does hold back.  In every state of the process: the gate
    gives a request its verdict only after the promise has settled, [next()]
    after a success and [next(error)] with the recorded failure after a
    failure; no layer behind the gate is reached before the promise has
    settled; the verdicts never mix, and all failures handed on are the same
    one; and a request waiting in the gate gets the verdict of the outcome
    as soon as it is resumed. *)
Theorem gate_holds_requests_until_settled (w : world) (inputs : list input) :
  let s := run w (module_load w) inputs in
  (forall t1 t2 id, trace s = t1 ++ GateNext id :: t2 -> Settle Fulfilled ∈ t1)
  /\ (forall t1 t2 id e, trace s = t1 ++ GateError id e :: t2 -> Settle (Rejected e) ∈ t1)
  /\ (forall t1 t2 id pos, trace s = t1 ++ Dispatch id pos :: t2 ->
      (gate_index w <= pos)%nat -> exists o, Settle o ∈ t1)
  /\ (forall id1 id2 e, GateNext id1 ∈ trace s -> GateError id2 e ∈ trace s -> False)
  /\ (forall id1 id2 e1 e2,
        GateError id1 e1 ∈ trace s -> GateError id2 e2 ∈ trace s -> e1 = e2)
  /\ (forall id rq pos, waiting s !! id = Some (rq, pos) ->
      match initializationPromise s with
      | Pending => trace (step w s (Resume id)) = trace s
      | Fulfilled => GateNext id ∈ trace (step w s (Resume id))
      | Rejected e => GateError id e ∈ trace (step w s (Resume id))
      end).
Proof.
  intros s.
  assert (Hinv : invariant w s) by apply invariant_run, invariant_load.
  split; [| split; [| split; [| split; [| split]]]].
  - intros t1 t2 id Ht.
    destruct (gate_event_settled w s t1 t2 _ Hinv Ht) as [Hin Hafter]; simpl; auto.
    simpl in Hafter. now rewrite Hafter in Hin.
  - intros t1 t2 id e Ht.
    destruct (gate_event_settled w s t1 t2 _ Hinv Ht) as [Hin Hafter]; simpl; auto.
    simpl in Hafter. now rewrite Hafter in Hin.
  - intros t1 t2 id pos Ht Hpos.
    destruct (gate_event_settled w s t1 t2 _ Hinv Ht) as [Hin _]; simpl; [lia | reflexivity |].
    eauto.
  - intros id1 id2 e H1 H2.
    pose proof (gate_event_in w s _ Hinv H1 (fun x => x) eq_refl) as A1.
    pose proof (gate_event_in w s _ Hinv H2 (fun x => x) eq_refl) as A2.
    simpl in A1, A2. rewrite A1 in A2. discriminate A2.
  - intros id1 id2 e1 e2 H1 H2.
    pose proof (gate_event_in w s _ Hinv H1 (fun x => x) eq_refl) as A1.
    pose proof (gate_event_in w s _ Hinv H2 (fun x => x) eq_refl) as A2.
    simpl in A1, A2. rewrite A1 in A2. now inversion A2.
  - intros id rq pos Hw. simpl step. rewrite (resume_trace w s id rq pos Hw).
    destruct (initializationPromise s).
    + now rewrite app_nil_r.
    + apply elem_of_app. right. apply list_elem_of_here.
    + apply elem_of_app. right. apply list_elem_of_here.
Qed.

(** ** After a failed initialization *)

Lemma is_error_next (e : jsval) : is_error e = true -> next_with e = WithError e.
Proof.
  unfold is_error, next_with. destruct e; simpl; try discriminate; try reflexivity.
  - destruct b; [reflexivity | discriminate].
  - destruct (negb (z =? 0)); [reflexivity | discriminate].
  - destruct (str_eqb s (lit "router")); [discriminate |].
    destruct (str_eqb s (lit "route")); [discriminate |].
    destruct s; [discriminate | reflexivity].
  - destruct (negb (z =? 0)); [reflexivity | discriminate].
Qed.

(** With a pending error the dispatch skips every layer down to the error
    handler, which answers when it returns normally. *)
Lemma walk_error_translated (initialized : bool) (id : nat) (rq : request) (e : jsval)
    (res res' : response) (lines : list jsstring) (ls : list layer) :
  forall pos,
    LErrorHandler ∈ ls ->
    Translator.error_handler e res = (Normal tt, (res', lines)) ->
    walk initialized id rq res (Some e) pos ls = (map Log lines, Done (Sent res')).
Proof.
  induction ls as [| l rest IH]; intros pos Hin Hh.
  - now apply elem_of_nil in Hin.
  - destruct l; simpl; try (apply IH; [| exact Hh]; apply elem_of_cons in Hin as [Hin | Hin];
                            [discriminate | exact Hin]).
    now rewrite Hh.
Qed.

Lemma walk_without_gate (initialized : bool) (id : nat) (rq : request) (res : response)
    (m : next_mode) (pos : nat) (ls : list layer) :
  Forall (fun l => is_gate l = false) ls ->
  exists rep,
    (continue (fun err res => walk initialized id rq res err pos ls) m res).2 = Done rep.
Proof.
  intros Hls.
  destruct (continue (fun err res => walk initialized id rq res err pos ls) m res).2
    as [rep | p] eqn:Hout; [eauto |].
  apply continue_parks_at_gate in Hout as (k & _ & Hk).
  apply list_elem_of_lookup_2 in Hk. rewrite Forall_forall in Hls.
  specialize (Hls _ Hk). discriminate.
Qed.

Lemma drop_behind_gate (w : world) (tail : list layer) :
  drop (S (gate_index w)) (module_stack w ++ tail) = tail.
Proof.
  replace (S (gate_index w)) with (length (module_stack w)).
  - apply drop_app_length.
  - rewrite module_stack_split, length_app, gate_index_length. simpl length. lia.
Qed.




(** ** The listener *)

Lemma in_init_events (e : event) (tr : list event) :
  e ∈ tr -> is_init_event e = true -> e ∈ init_events tr.
Proof.
  intros Hin He. apply list_elem_of_In. apply List.filter_In.
  split; [now apply list_elem_of_In | exact He].
Qed.

Lemma init_events_in (e : event) (tr : list event) : e ∈ init_events tr -> e ∈ tr.
Proof. intros Hin. apply list_elem_of_In in Hin. apply List.filter_In in Hin as [Hin _].
  now apply list_elem_of_In. Qed.

Lemma listen_in_sequence (w : world) (port : Z) (host : jsstring) :
  Listen port host ∈ sequence w ->
  managed_externally w = false /\ development w = true
  /\ port = 5000 /\ host = lit "localhost".
Proof.
  unfold sequence, wiring. intros Hin.
  destruct (development w), (managed_externally w); simpl in Hin;
    repeat (apply elem_of_cons in Hin as [Hin | Hin]; [try discriminate |]);
    try (now apply elem_of_nil in Hin).
  inversion Hin; subst. auto.
Qed.

Lemma listen_in_trace (w : world) (s : state) (port : Z) (host : jsstring) :
  invariant w s -> Listen port host ∈ trace s ->
  managed_externally w = false /\ development w = true
  /\ port = 5000 /\ host = lit "localhost".
Proof.
  intros Hinv Hin. apply (listen_in_sequence w).
  eapply elem_of_prefix; [| exact (init_events_prefix w s Hinv)].
  now apply in_init_events.
Qed.

(** C9 (counterexample).  In local development without the signal, when
    [setupVite] rejects, the initialization fails and no listener is bound,
    neither then nor in any later state. *)
Lemma no_listener_when_vite_fails :
  let w := failing_vite_world in
  let s := run w (module_load w) [RoutesSettled; ViteSettled; Listening] in
  managed_externally w = false
  /\ development w = true
  /\ initializationPromise s = Rejected db_down
  /\ (forall more port host, Listen port host ∉ trace (run w s more)).
Proof.
  intros w s. split; [reflexivity |]. split; [reflexivity |]. split; [reflexivity |].
  intros more port host Hin.
  assert (Hinv : invariant w (run w s more)) by (apply invariant_run, invariant_run, invariant_load).
  destruct (returned_run w more s eq_refl) as (_ & _ & _ & _ & He).
  apply in_init_events in Hin; [| reflexivity].
  rewrite He in Hin. vm_compute in Hin.
  repeat (apply elem_of_cons in Hin as [Hin | Hin]; [discriminate |]).
  now apply elem_of_nil in Hin.
Qed.

(** C9 (amended).  In every state of the process: when the signal is present
    ([process.env.VERCEL] truthy), [listen] has not been called, whatever the
    mode, and the module exports the serverless-wrapped application; when it
    is absent and the environment is development, [listen] has been called
    exactly when the initialization has succeeded, only on host localhost
    and port 5000, and the readiness line is logged once the listen callback
    has run. *)
Theorem listener_follows_signal (w : world) (inputs : list input) :
  let s := run w (module_load w) inputs in
  (managed_externally w = true ->
   (forall port host, Listen port host ∉ trace s)
   /\ Export true ∈ trace s /\ Export false ∉ trace s)
  /\ (managed_externally w = false -> development w = true ->
      (forall port host, Listen port host ∈ trace s -> port = 5000 /\ host = lit "localhost")
      /\ (Listen 5000 (lit "localhost") ∈ trace s <-> initializationPromise s = Fulfilled)
      /\ (initializationPromise s = Fulfilled ->
          Log (readiness_line (lit "localhost") 5000) ∈ trace (step w s Listening))).
Proof.
  intros s.
  assert (Hinv : invariant w s) by apply invariant_run, invariant_load.
  assert (Hexp : Export (managed_externally w) ∈ trace s).
  { eapply elem_of_prefix; [| exact (inv_load w s Hinv)].
    rewrite module_load_eq. simpl trace. do 6 apply list_elem_of_further.
    apply elem_of_app. right. apply list_elem_of_further, list_elem_of_here. }
  split.
  - intros Hm. split; [| split].
    + intros port host Hin. destruct (listen_in_trace w s port host Hinv Hin) as [Hm' _].
      congruence.
    + now rewrite Hm in Hexp.
    + intros Hin. apply (inv_export w s Hinv) in Hin. congruence.
  - intros Hm Hdev.
    assert (Hbound : initializationPromise s = Fulfilled -> Listen 5000 (lit "localhost") ∈ trace s).
    { intros Hp. pose proof (inv_init w s Hinv) as Hinit. unfold init_ok in Hinit.
      assert (Hpc : pc s = Returned) by (apply (inv_pc w s Hinv); congruence).
      rewrite Hpc in Hinit. destruct Hinit as [_ Hseq]. apply init_events_in.
      rewrite (Hseq Hp). unfold sequence, wiring. rewrite Hdev, Hm. simpl.
      do 5 apply list_elem_of_further. apply list_elem_of_here. }
    split; [| split].
    + intros port host Hin. destruct (listen_in_trace w s port host Hinv Hin) as (_ & _ & Hp & Hh).
      auto.
    + split; [| exact Hbound].
      intros Hin. apply (inv_bound w s Hinv). intros Hnone.
      exact (proj1 (inv_listening w s Hinv) Hnone _ _ Hin).
    + intros Hp. simpl step. unfold on_listening.
      destruct (listening s) as [[|] |] eqn:Hl.
      * now apply (inv_listening w s Hinv).
      * simpl. apply elem_of_app. right. apply list_elem_of_here.
      * exfalso. exact (proj1 (inv_listening w s Hinv) Hl _ _ (Hbound Hp)).
Qed.

Lemma listener_follows_signal_witness :
  let s := run local_world (module_load local_world) [RoutesSettled; ViteSettled] in
  Listen 5000 (lit "localhost") ∈ trace s
  /\ Log (lit "Server running at http://localhost:5000") ∈ trace (step local_world s Listening).
Proof.
  intros s.
  destruct (listener_follows_signal local_world [RoutesSettled; ViteSettled])
    as [_ Hlocal].
  destruct (Hlocal eq_refl eq_refl) as (_ & Hbound & Hlog).
  split; [apply Hbound; reflexivity | apply Hlog; reflexivity].
Defined.

End BootstrapFacts.

(* ------------------------------------------------------------------------- *)
(** * Further properties of the response logger *)
(* ------------------------------------------------------------------------- *)
Module LoggerMore.
Import Js Express Logger Instrumented Samples LoggerFacts.

#[local] Arguments lit : simpl never.
#[local] Arguments dec : simpl never.

Lemma startsWith_prefix (p s : jsstring) :
  startsWith s p = true <-> exists rest, s = p ++ rest.
Proof.
  revert s. induction p as [| c p IH]; intros s; simpl.
  - split; [intros _; now exists s | now destruct s].
  - destruct s as [| d s].
    + split; [discriminate | intros [rest Hr]; discriminate].
    + simpl. rewrite andb_true_iff, IH, N.eqb_eq. split.
      * intros [-> [rest ->]]. now exists rest.
      * intros [rest Hr]. inversion Hr; subst. split; [reflexivity | now exists rest].
Qed.

(** The line before truncation, as the listener builds it. *)
Lemma on_finish_line marker m st now c ls :
  on_finish marker m st now c = Normal ls ->
  ls = [] /\ startsWith (path c) (lit "/api") = false
  \/ ls = [truncate marker
             (spec_line m (path c) (to_string st) (dec (now - start c))
                (json_segment (capturedJsonResponse c)))]
     /\ startsWith (path c) (lit "/api") = true.
Proof.
  intros Hf. destruct (startsWith (path c) (lit "/api")) eqn:Hp.
  - right. split; [| reflexivity]. unfold json_segment.
    destruct (truthy (capturedJsonResponse c)) eqn:Ht.
    + destruct (stringify (capturedJsonResponse c)) as [o | e] eqn:Hs.
      * rewrite (on_finish_truthy _ _ _ _ _ o Hp Ht Hs) in Hf.
        rewrite spec_line_segment. now inversion Hf.
      * rewrite (on_finish_throw _ _ _ _ _ e Hp Ht Hs) in Hf. discriminate.
    + rewrite (on_finish_falsy _ _ _ _ _ Hp Ht) in Hf.
      rewrite spec_line_base. now inversion Hf.
  - left. rewrite on_finish_other_path in Hf by exact Hp. now inversion Hf.
Qed.

(** X1.  In the sibling revisions (marker U+2026) no logged line has more
    than 80 code units: a line of at most 80 is logged as it is, a longer one
    as its first 79 code units followed by the one marker character. *)
Theorem sibling_lines_within_budget (m : jsstring) (st : jsval) (now : Z) (c : closure)
    (ls : list jsstring) :
  on_finish marker_sibling m st now c = Normal ls ->
  let full := spec_line m (path c) (to_string st) (dec (now - start c))
                (json_segment (capturedJsonResponse c)) in
  Forall (fun l =>
            str_length l <= 80
            /\ (str_length full <= 80 -> l = full)
            /\ (80 < str_length full -> l = take 79 full ++ [8230%N] /\ str_length l = 80))
    ls.
Proof.
  intros Hf full. destruct (on_finish_line _ _ _ _ _ _ Hf) as [[-> _] | [-> _]].
  - constructor.
  - fold full. constructor; [| constructor].
    split; [apply sibling_line_within_budget |]. split.
    + apply truncate_short.
    + intros Hlong. split; [now apply truncate_long |].
      now rewrite truncate_long_length.
Qed.

Lemma sibling_lines_within_budget_witness :
  Forall (fun l => str_length l <= 80)
    [take 79 (base_line (lit "GET") long_path (VNum 200) 3) ++ [8230%N]].
Proof.
  eapply Forall_impl;
    [exact (sibling_lines_within_budget (lit "GET") (VNum 200) 1003 (enter 1000 long_path)
              _ eq_refl) |].
  intros l Hl. exact (proj1 Hl).
Defined.

(** X2.  A finished response is logged exactly when the request path begins
    with the four code units of [/api], whatever follows them: [/apiary] is
    logged, [/API/x] and [/v1/api] are not. *)
Theorem logged_iff_api_prefix (marker m : jsstring) (st : jsval) (now : Z) (c : closure) :
  (on_finish marker m st now c <> Normal [] <-> exists rest, path c = lit "/api" ++ rest)
  /\ on_finish marker m st now (enter (start c) (lit "/apiary")) <> Normal []
  /\ on_finish marker m st now (enter (start c) (lit "/API/x")) = Normal []
  /\ on_finish marker m st now (enter (start c) (lit "/v1/api")) = Normal [].
Proof.
  split; [| split; [| split]]; try reflexivity.
  - rewrite <- startsWith_prefix. unfold on_finish.
    destruct (startsWith (path c) (lit "/api")); simpl.
    + split; [reflexivity |]. intros _.
      destruct (truthy (capturedJsonResponse c)); simpl; [| discriminate].
      destruct (stringify (capturedJsonResponse c)); simpl; discriminate.
    + split; [intros Hn; now contradiction Hn | discriminate].
  - unfold on_finish. simpl. discriminate.
Qed.





End LoggerMore.

(* ------------------------------------------------------------------------- *)
(** * Further properties of the error-handling middleware *)
(* ------------------------------------------------------------------------- *)
Module TranslatorMore.
Import Js Express Logger Translator Instrumented More Samples JsFacts LoggerFacts
  TranslatorFacts.

#[local] Arguments lit : simpl never.
#[local] Arguments dec : simpl never.

(** The handler on Express's response object, for an error that reaches it. *)
Lemma error_handler_express (err : jsval) (r : response) :
  truthy err = true ->
  error_handler err r
  = match send_json (body_of (resolved_message err))
            {| statusCode := resolved_status err; payload := payload r |} with
    | (Throw e, r2) => (Throw e, (r2, []))
    | (Normal _, r2) =>
        (Normal tt, (r2, [log_line (resolved_message err) (resolved_status err)]))
    end.
Proof.
  intros Ht. unfold error_handler.
  rewrite (resolve_status_truthy err Ht), (resolve_message_truthy err Ht).
  reflexivity.
Qed.

Lemma stringify_body_of (message : jsval) :
  stringify (body_of message)
  = match stringify message with
    | Throw e => Throw e
    | Normal (Some j) =>
        Normal (Some (lit "{" ++ (quote_json (lit "message") ++ lit ":" ++ j) ++ lit "}"))
    | Normal None => Normal (Some (lit "{" ++ lit "}"))
    end.
Proof.
  unfold body_of. cbn [stringify]. destruct (stringify message) as [[j |] | e]; reflexivity.
Qed.

(** X5.  An error thrown as a primitive value or as an array ([throw "boom"])
    carries no fields: the client gets status 500 with the message
    "Internal Server Error", and the thrown text appears neither in the
    response nor in the log line. *)
Theorem fieldless_error_is_internal (err : jsval) :
  truthy err = true ->
  fieldless err = true ->
  error_handler err fresh
  = (Normal tt,
     ({| statusCode := VNum 500;
         payload := Some (lit "{" ++ dquote ++ lit "message" ++ dquote ++ lit ":"
                            ++ dquote ++ lit "Internal Server Error" ++ dquote ++ lit "}") |},
      [lit "Error: Internal Server Error (status: 500)"])).
Proof.
  intros Ht Hf. rewrite (error_handler_express err fresh Ht).
  assert (Hs : resolved_status err = VNum 500) by (destruct err; reflexivity || discriminate).
  assert (Hm : resolved_message err = VStr (lit "Internal Server Error"))
    by (destruct err; reflexivity || discriminate).
  rewrite Hs, Hm. reflexivity.
Qed.

Lemma fieldless_error_is_internal_witness :
  statusCode (error_handler (VStr (lit "database unreachable")) fresh).2.1 = VNum 500.
Proof.
  now rewrite (fieldless_error_is_internal (VStr (lit "database unreachable")) eq_refl eq_refl).
Defined.

(** X6.  On Express's response object the handler throws exactly when the
    resolved message does not serialize, the response was already written,
    or the resolved status is not a status code Node accepts (as [x | 0],
    outside 100..999, or a BigInt); then nothing is logged and what the
    client has received is unchanged. *)
Theorem error_handler_throws_iff (err : jsval) (r : response) :
  truthy err = true ->
  (throws (error_handler err r).1 = true
   <-> throws (stringify (resolved_message err)) = true
       \/ payload r <> None
       \/ valid_status (resolved_status err) = false)
  /\ (throws (error_handler err r).1 = true ->
      (error_handler err r).2.2 = [] /\ payload (error_handler err r).2.1 = payload r).
Proof.
  intros Ht. rewrite (error_handler_express err r Ht).
  set (r1 := {| statusCode := resolved_status err; payload := payload r |}).
  destruct (send_json (body_of (resolved_message err)) r1) as [[[] | e] r2] eqn:Hsend.
  - split; [| discriminate]. simpl. split; [discriminate |].
    pose proof (stringify_body_of (resolved_message err)) as Hb.
    destruct (stringify (resolved_message err)) as [o | e'] eqn:Hm.
    + assert (Hj : exists j, stringify (body_of (resolved_message err)) = Normal (Some j))
        by (destruct o; eauto).
      destruct Hj as [j Hj].
      pose proof (send_json_throws_iff _ r1 j Hj) as Hiff. rewrite Hsend in Hiff.
      simpl in Hiff. intros [Hc | Hc]; [discriminate | now apply Hiff].
    + unfold send_json in Hsend. rewrite Hb in Hsend. discriminate.
  - rewrite (send_json_throw_keeps _ _ _ _ Hsend). simpl. split; [| auto].
    split; [intros _ | reflexivity].
    pose proof (stringify_body_of (resolved_message err)) as Hb.
    destruct (stringify (resolved_message err)) as [o | e'] eqn:Hm; [right | now left].
    assert (Hj : exists j, stringify (body_of (resolved_message err)) = Normal (Some j))
      by (destruct o; eauto).
    destruct Hj as [j Hj].
    pose proof (send_json_throws_iff _ r1 j Hj) as Hiff. rewrite Hsend in Hiff.
    now apply Hiff.
Qed.

Lemma error_handler_throws_iff_witness :
  throws (error_handler (VObj [(lit "status", VNum 42)]) fresh).1 = true.
Proof.
  apply (proj1 (error_handler_throws_iff (VObj [(lit "status", VNum 42)]) fresh eq_refl)).
  right. right. reflexivity.
Defined.

(** X7.  Behind the logger the handler's [res.json] is the wrapper.  When
    the handler answers an error on a response not yet written and the
    resolved status is a status code Node accepts and sends a body for, the
    body [{ message }] it sends is the captured body: the request's log line
    carries the status code written and the JSON the client received, and
    the handler's own line the status as resolved. *)
Theorem translated_error_is_logged (err : jsval) (c : closure) (r : response)
    (j marker m : jsstring) (code now : Z) :
  truthy err = true ->
  payload r = None ->
  stringify (body_of (resolved_message err)) = Normal (Some j) ->
  to_int32 (resolved_status err) = Normal code ->
  100 <= code <= 999 ->
  sends_body (resolved_status err) code = true ->
  let out := error_handler err (c, r) in
  out.1 = Normal tt
  /\ out.2.1.2 = {| statusCode := VNum code; payload := Some j |}
  /\ out.2.2 = [log_line (resolved_message err) (resolved_status err)]
  /\ (startsWith (path c) (lit "/api") = true ->
      on_finish marker m (statusCode out.2.1.2) now out.2.1.1
      = Normal [truncate marker
                  (base_line m (path c) (VNum code) (now - start c)
                     ++ lit " :: " ++ j)]).
Proof.
  intros Ht Hp Hj Hc Hr Hn out.
  assert (Hout : out = (Normal tt,
                        ((capture (body_of (resolved_message err)) c,
                          {| statusCode := VNum code; payload := Some j |}),
                         [log_line (resolved_message err) (resolved_status err)]))).
  { subst out. unfold error_handler.
    rewrite (resolve_status_truthy err Ht), (resolve_message_truthy err Ht).
    fold (resolved_status err) (resolved_message err).
    cbn [res_status res_json instrumented_res status fst snd].
    unfold json, originalResJson. cbn [fst snd].
    rewrite (send_json_written _ {| statusCode := resolved_status err; payload := payload r |}
               (Some j) code Hj Hp Hc Hr).
    cbn [statusCode]. now rewrite Hn. }
  rewrite Hout. cbn [fst snd payload statusCode].
  split; [reflexivity | split; [reflexivity | split; [reflexivity |]]].
  intros Hapi.
  exact (on_finish_truthy marker m (VNum code) now
           (capture (body_of (resolved_message err)) c) (Some j) Hapi eq_refl Hj).
Qed.

Lemma translated_error_is_logged_witness :
  on_finish marker_sibling (lit "GET") (VNum 404) 1002
    (error_handler not_found_error (enter 1000 (lit "/api/items/9"), fresh)).2.1.1
  = Normal [lit "GET /api/items/9 404 in 2ms :: {" ++ dquote ++ lit "message" ++ dquote
              ++ lit ":" ++ dquote ++ lit "not found" ++ dquote ++ lit "}"].
Proof.
  destruct (translated_error_is_logged not_found_error (enter 1000 (lit "/api/items/9")) fresh
              _ marker_sibling (lit "GET") 404 1002 eq_refl eq_refl eq_refl eq_refl
              ltac:(lia) eq_refl)
    as (_ & _ & _ & Hline).
  exact (Hline eq_refl).
Defined.

End TranslatorMore.

(* ------------------------------------------------------------------------- *)
(** * Properties of the header middleware *)
(* ------------------------------------------------------------------------- *)
Module CorsFacts.
Import Js Bootstrap Cors.

(** X8.  The header middleware never ends the request (it calls [next()]
    with no error); afterwards the three access-control fields hold the fixed
    values whatever the response held before, every other field is as it was,
    and running it twice is the same as running it once. *)
Theorem cors_sets_three_fields (h : gmap jsstring jsstring) :
  (middleware h).2 = NoError
  /\ (middleware h).1 !! lower (lit "access-control-allow-origin") = Some (lit "*")
  /\ (middleware h).1 !! lower (lit "ACCESS-CONTROL-ALLOW-METHODS")
     = Some (lit "GET, POST, PUT, DELETE, OPTIONS")
  /\ (middleware h).1 !! lower (lit "Access-Control-Allow-Headers") = Some (lit "Content-Type")
  /\ (forall name, lower name ∉ cors_names -> (middleware h).1 !! lower name = h !! lower name)
  /\ (middleware (middleware h).1).1 = (middleware h).1.
Proof.
  unfold middleware, header. cbn [fst snd].
  set (o := lower (lit "Access-Control-Allow-Origin")).
  set (ms := lower (lit "Access-Control-Allow-Methods")).
  set (hs := lower (lit "Access-Control-Allow-Headers")).
  assert (Hom : o <> ms) by (vm_compute; discriminate).
  assert (Hoh : o <> hs) by (vm_compute; discriminate).
  assert (Hmh : ms <> hs) by (vm_compute; discriminate).
  split; [reflexivity |]. split; [| split; [| split; [| split]]].
  - change (lower (lit "access-control-allow-origin")) with o.
    rewrite lookup_insert_ne, lookup_insert_ne, lookup_insert_eq by congruence. reflexivity.
  - change (lower (lit "ACCESS-CONTROL-ALLOW-METHODS")) with ms.
    rewrite lookup_insert_ne, lookup_insert_eq by congruence. reflexivity.
  - now rewrite lookup_insert_eq.
  - intros name Hn. unfold cors_names in Hn. fold o ms hs in Hn.
    rewrite !lookup_insert_ne; [reflexivity | | |]; intros Heq; apply Hn; rewrite <- Heq;
      rewrite !elem_of_cons; auto.
  - apply map_eq. intros k.
    destruct (decide (k = hs)) as [-> | Hk1]; [now rewrite !lookup_insert_eq |].
    rewrite !(lookup_insert_ne _ hs) by congruence.
    destruct (decide (k = ms)) as [-> | Hk2]; [now rewrite !lookup_insert_eq |].
    rewrite !(lookup_insert_ne _ ms) by congruence.
    destruct (decide (k = o)) as [-> | Hk3]; [now rewrite !lookup_insert_eq |].
    rewrite !(lookup_insert_ne _ o) by congruence.
    now rewrite !lookup_insert_ne by congruence.
Qed.

End CorsFacts.

(* ------------------------------------------------------------------------- *)
(** * Further properties of the bootstrap: wiring and requests *)
(* ------------------------------------------------------------------------- *)
Module BootstrapMore.
Import Js Express Bootstrap Samples More BootstrapFacts.

#[local] Arguments lit : simpl never.
#[local] Arguments dec : simpl never.

(** ** The stack and the debugging line, stage by stage *)

Lemma registeredRoutes_app (a b : list layer) :
  registeredRoutes (a ++ b) = registeredRoutes a ++ registeredRoutes b.
Proof. unfold registeredRoutes. apply omap_app. Qed.

Lemma registeredRoutes_routes (rs : list route) :
  registeredRoutes (map LRoute rs) = map route_path rs.
Proof. induction rs as [| r rs IH]; [reflexivity |]. simpl. now rewrite <- IH. Qed.

Lemma registeredRoutes_module (w : world) (late : list route) :
  registeredRoutes (module_stack w ++ map LRoute late)
  = map route_path (routes_sync w ++ late).
Proof.
  unfold module_stack. rewrite !registeredRoutes_app, !registeredRoutes_routes, map_app.
  simpl. now rewrite app_nil_r.
Qed.

Lemma module_stack_head (w : world) :
  module_stack w
  = LJson :: [LUrlencoded; LCors; LLogger] ++ map LRoute (routes_sync w) ++ [LGate].
Proof. reflexivity. Qed.

#[local] Opaque module_stack.

Lemma request_not_line (e : event) : request_event e -> is_registered_line e = false.
Proof. destruct e; simpl; intros H; (reflexivity || contradiction). Qed.

Lemma routes_not_line (rs : list route) :
  Forall (fun e => is_registered_line e = false) (map (fun r => Use (LRoute r)) rs).
Proof. induction rs; constructor; auto. Qed.

Lemma line_free (w : world) (E : list event) :
  Forall (fun e => is_registered_line e = false) E ->
  Forall (fun e => is_registered_line e = true -> e = registered_line w) E
  /\ count is_registered_line E = 0%nat.
Proof.
  intros H. split.
  - eapply Forall_impl; [exact H |]. simpl. intros e He Ht. congruence.
  - apply (count_zero _ (fun e => is_registered_line e = false)); auto.
Qed.

Lemma request_report (p : promise) (e : event) : request_event e -> report_ok p e.
Proof. destruct e; simpl; intros H; (exact I || contradiction). Qed.

Lemma routes_report (p : promise) (rs : list route) :
  Forall (report_ok p) (map (fun r => Use (LRoute r)) rs).
Proof. induction rs; constructor; simpl; auto. Qed.

Lemma report_pending (p : promise) (e : event) : report_ok Pending e -> report_ok p e.
Proof.
  destruct e; simpl; auto.
  - intros H Hc. specialize (H Hc). discriminate.
  - intros [_ H]. discriminate.
Qed.

Lemma reported_app (p : promise) (a b : list event) :
  reported p a \/ reported p b -> reported p (a ++ b).
Proof.
  destruct p; simpl; auto; rewrite elem_of_app; auto.
Qed.

Lemma wiring_frame (w : world) (s s' : state) (E : list event) :
  wiring_ok w s ->
  stack s' = stack s -> pc s' = pc s ->
  initializationPromise s' = initializationPromise s ->
  trace s' = trace s ++ E ->
  Forall request_event E ->
  wiring_ok w s'.
Proof.
  intros [Hs Hv Hl Hc Ho Hr Hd] Hst Hpc Hp Htr HE.
  assert (HE' : Forall (fun e => is_registered_line e = false) E)
    by (eapply Forall_impl; [exact HE | apply request_not_line]).
  destruct (line_free w E HE') as [HE1 HE2].
  constructor.
  - rewrite Hst, Hs. unfold stack_at. now rewrite Hpc, Hp.
  - now rewrite Hpc.
  - rewrite Htr. apply Forall_app. auto.
  - rewrite Htr, count_app, HE2, Hc. unfold registered_count. rewrite Hpc. lia.
  - rewrite Hpc, Hp. exact Ho.
  - rewrite Htr, Hp. apply Forall_app. split; [exact Hr |].
    eapply Forall_impl; [exact HE | apply request_report].
  - rewrite Htr, Hp. apply reported_app. now left.
Qed.

Lemma wiring_load (w : world) : wiring_ok w (module_load w).
Proof.
  rewrite module_load_eq. constructor; simpl.
  - unfold stack_at. simpl. now rewrite app_nil_r.
  - discriminate.
  - repeat (constructor; [discriminate |]).
    apply Forall_app. split; [| repeat constructor; discriminate].
    apply (line_free w), routes_not_line.
  - unfold registered_count. simpl.
    change (count is_registered_line
              ([Use LJson; Use LUrlencoded; Use LCors; Use LLogger;
                ConsoleLog (lit "Before registering routes") []; RegisterRoutes]
               ++ map (fun r => Use (LRoute r)) (routes_sync w)
               ++ [Use LGate; Export (managed_externally w)]) = 0%nat).
    rewrite !count_app. rewrite (proj2 (line_free w _ (routes_not_line (routes_sync w)))).
    reflexivity.
  - discriminate.
  - repeat (constructor; [simpl; try exact I; intros H; vm_compute in H; discriminate H |]).
    apply Forall_app. split; [apply routes_report | repeat constructor].
  - exact I.
Qed.

Ltac line_lists w :=
  repeat (apply Forall_app; split);
  first [apply (line_free w), routes_not_line | idtac];
  repeat (constructor; try discriminate; try reflexivity).

Ltac report_leaf :=
  simpl;
  first [ exact I
        | reflexivity
        | split; reflexivity
        | let H := fresh in intros H; vm_compute in H; discriminate H ].

Ltac report_lists Hr :=
  repeat (apply Forall_app; split);
  first [ apply routes_report
        | eapply Forall_impl; [exact Hr | apply report_pending]
        | repeat (constructor; [report_leaf |]); constructor ].

Ltac reported_here :=
  simpl; rewrite !elem_of_app, ?list_elem_of_singleton; auto 10.

Lemma settled_outcome_registrar (w : world) (e : jsval) :
  registerRoutes_result w = Some e -> settled_outcome w = Rejected e.
Proof. unfold settled_outcome. now intros ->. Qed.

Lemma wiring_routes_settled (w : world) (s : state) :
  invariant w s -> wiring_ok w s -> wiring_ok w (routes_settled w s).
Proof.
  intros Hinv Hw. unfold routes_settled. destruct (pc s) eqn:Hpcs; try exact Hw.
  destruct (pending_of_pc w s Hinv) as [Hp Hf]; [congruence |].
  destruct Hw as [Hs Hv Hl Hc Ho Hr Hd].
  unfold stack_at in Hs. rewrite Hpcs, app_nil_r in Hs.
  unfold registered_count in Hc. rewrite Hpcs in Hc.
  rewrite Hp in Hr.
  pose proof (proj2 (line_free w _ (routes_not_line (routes_late w)))) as Hlate.
  rewrite attach_all_eq.
  destruct (registerRoutes_result w) as [e |] eqn:Hreg;
    [| unfold after_routes; simpl stack;
       destruct (development w) eqn:Hdev;
       [| destruct (serveStatic_result w) as [e |] eqn:Hstatic]];
    (constructor; simpl;
     [ unfold stack_at; simpl; rewrite ?Hreg, ?Hs, ?Hdev; generalize (module_stack w); intros M;
       rewrite ?app_nil_r, <- ?app_assoc; reflexivity
     | try discriminate; auto
     | rewrite ?Hs, ?registeredRoutes_module; line_lists w; auto
     | unfold registered_count; simpl; rewrite ?Hreg, !count_app, Hc, Hlate; reflexivity
     | try discriminate; intros _; unfold settled_outcome; now rewrite Hreg, ?Hdev, ?Hstatic
     | report_lists Hr
     | rewrite ?Hp; try exact I; reported_here ]).
Qed.

Lemma wiring_vite_settled (w : world) (s : state) :
  invariant w s -> wiring_ok w s -> wiring_ok w (vite_settled w s).
Proof.
  intros Hinv Hw. unfold vite_settled. destruct (pc s) eqn:Hpcs; try exact Hw.
  destruct (pending_of_pc w s Hinv) as [Hp Hf]; [congruence |].
  pose proof (inv_init w s Hinv) as Hinit. unfold init_ok in Hinit. rewrite Hpcs in Hinit.
  destruct Hinit as [Hdev _].
  destruct Hw as [Hs Hv Hl Hc Ho Hr Hd]. specialize (Hv Hpcs).
  unfold stack_at in Hs. rewrite Hpcs in Hs.
  unfold registered_count in Hc. rewrite Hpcs, Hv in Hc.
  rewrite Hp in Hr.
  destruct (setupVite_result w) as [e |] eqn:Hvite;
    [| unfold after_vite; destruct (managed_externally w) eqn:Hm];
    (constructor; simpl;
     [ unfold stack_at; simpl; rewrite ?Hv, ?Hs, ?Hdev; generalize (module_stack w); intros M;
       rewrite ?app_nil_r, <- ?app_assoc; reflexivity
     | try discriminate; auto
     | line_lists w; auto
     | unfold registered_count; simpl; rewrite ?Hv, !count_app, Hc; reflexivity
     | intros _; unfold settled_outcome; now rewrite Hv, Hdev, Hvite
     | report_lists Hr
     | reported_here ]).
Qed.

Lemma wiring_step (w : world) (s : state) (i : input) :
  invariant w s -> wiring_ok w s -> wiring_ok w (step w s i).
Proof.
  intros Hinv Hw. destruct (input_kind i) as [[-> | ->] | [Hr Hv]].
  - now apply wiring_routes_settled.
  - now apply wiring_vite_settled.
  - destruct (request_turn_frame w s i Hr Hv) as (E & Htr & HE & Hst & _ & Hp & Hpc).
    exact (wiring_frame w s _ E Hw Hst Hpc Hp Htr HE).
Qed.

Lemma wiring_run (w : world) (inputs : list input) (s : state) :
  invariant w s -> wiring_ok w s -> wiring_ok w (run w s inputs).
Proof.
  revert s. induction inputs as [| i inputs IH]; intros s Hinv Hw; [exact Hw |].
  simpl. apply IH; [now apply invariant_step | now apply wiring_step].
Qed.

Lemma wiring_reachable (w : world) (inputs : list input) :
  wiring_ok w (run w (module_load w) inputs).
Proof. apply wiring_run; [apply invariant_load | apply wiring_load]. Qed.

Lemma reachable_run (w : world) (inputs : list input) :
  invariant w (run w (module_load w) inputs).
Proof. apply invariant_run, invariant_load. Qed.

Lemma fulfilled_registrar (w : world) :
  settled_outcome w = Fulfilled ->
  registerRoutes_result w = None
  /\ (if development w then setupVite_result w else serveStatic_result w) = None.
Proof.
  unfold settled_outcome. destruct (registerRoutes_result w); [discriminate |].
  destruct (if development w then _ else _); [discriminate | auto].
Qed.

Lemma gate_lookup (w : world) (tail : list layer) :
  (module_stack w ++ tail) !! gate_index w = Some LGate.
Proof.
  rewrite module_stack_split, <- app_assoc.
  rewrite lookup_app_r by (rewrite gate_index_length; lia).
  now rewrite gate_index_length, Nat.sub_diag.
Qed.

Lemma count_exists (p : event -> bool) (tr : list event) :
  (1 <= count p tr)%nat -> exists e, e ∈ tr /\ p e = true.
Proof.
  unfold count. induction tr as [| x tr IH]; simpl; [lia |].
  destruct (p x) eqn:Hx.
  - intros _. exists x. split; [apply list_elem_of_here | exact Hx].
  - intros H. destruct (IH H) as (e & He & Hp). exists e. split; [| exact Hp].
    now apply list_elem_of_further.
Qed.

(** X9.  The order of the layers follows the initialization: the stack is
    the module's own layers (body parsers, header middleware, logger, the
    routes attached before the registrar first suspends, the gate) while the
    registrar is awaited; the routes attached later, the error handler and
    the asset middleware are appended behind the gate, in this order; the
    gate stays at its index and there is no second gate. *)
Theorem stack_follows_initialization (w : world) (inputs : list input) :
  let s := run w (module_load w) inputs in
  stack s = stack_at w s
  /\ (forall k, stack s !! k = Some LGate <-> k = gate_index w)
  /\ (pc s = AwaitRegisterRoutes -> stack s = module_stack w)
  /\ (pc s = AwaitSetupVite ->
      stack s = module_stack w ++ map LRoute (routes_late w) ++ [LErrorHandler])
  /\ (initializationPromise s = Fulfilled ->
      stack s = module_stack w ++ map LRoute (routes_late w)
                ++ [LErrorHandler; if development w then LVite else LStatic]).
Proof.
  intros s. pose proof (reachable_run w inputs) as Hinv.
  pose proof (wiring_reachable w inputs) as Hw. fold s in Hinv, Hw.
  pose proof (wired_stack w s Hw) as Hs.
  split; [exact Hs |]. split; [| split; [| split]].
  - destruct (inv_stack w s Hinv) as (tail & Hst & Htail & _).
    intros k. split.
    + rewrite Hst. now apply gate_position.
    + intros ->. rewrite Hst. apply gate_lookup.
  - intros Hpc. rewrite Hs. unfold stack_at. now rewrite Hpc, app_nil_r.
  - intros Hpc. rewrite Hs. unfold stack_at. now rewrite Hpc.
  - intros Hp.
    assert (Hpc : pc s = Returned) by (apply (inv_pc w s Hinv); congruence).
    pose proof (wired_outcome w s Hw Hpc) as Ho. rewrite Hp in Ho.
    destruct (fulfilled_registrar w (eq_sym Ho)) as [Hreg _].
    rewrite Hs at 1. unfold stack_at. now rewrite Hpc, Hreg, Hp.
Qed.

(** X10.  The debugging line "Registered routes:" is written once, when
    [registerRoutes] has resolved and never when it rejects; it lists the
    paths of all routes of the registrar, those attached before its first
    suspension and those attached later, in the order of attachment, and no
    other layer. *)
Theorem registered_routes_line (w : world) (inputs : list input) :
  let s := run w (module_load w) inputs in
  (forall args, ConsoleLog (lit "Registered routes:") args ∈ trace s ->
     args = map route_path (routes_sync w ++ routes_late w))
  /\ (count is_registered_line (trace s) <= 1)%nat
  /\ (pc s <> AwaitRegisterRoutes -> registerRoutes_result w = None ->
      ConsoleLog (lit "Registered routes:") (map route_path (routes_sync w ++ routes_late w))
        ∈ trace s)
  /\ (pc s = AwaitRegisterRoutes \/ registerRoutes_result w <> None ->
      forall args, ConsoleLog (lit "Registered routes:") args ∉ trace s).
Proof.
  intros s. pose proof (wiring_reachable w inputs) as Hw. fold s in Hw.
  destruct Hw as [_ _ Hl Hc _ _ _]. rewrite Forall_forall in Hl.
  split; [| split; [| split]].
  - intros args Hin. specialize (Hl _ Hin eq_refl). now inversion Hl.
  - rewrite Hc. unfold registered_count. destruct (pc s), (registerRoutes_result w); lia.
  - intros Hpc Hreg.
    assert (H1 : (1 <= count is_registered_line (trace s))%nat).
    { rewrite Hc. unfold registered_count. rewrite Hreg. destruct (pc s); [congruence | |]; lia. }
    destruct (count_exists _ _ H1) as (e & He & Hp).
    pose proof (Hl e He Hp) as Heq. unfold registered_line in Heq. now rewrite <- Heq.
  - intros Hcase args Hin.
    assert (H0 : count is_registered_line (trace s) = 0%nat).
    { rewrite Hc. unfold registered_count.
      destruct Hcase as [-> | Hreg]; [reflexivity |].
      destruct (registerRoutes_result w); [| congruence]. now destruct (pc s). }
    pose proof (count_pos is_registered_line
                  (ConsoleLog (lit "Registered routes:") args) _ eq_refl Hin). lia.
Qed.

(** X11.  The promise of the initialization function settles with the
    outcome of the collaborators it calls: rejected with the reason of the
    first of them that fails (the [catch] block rethrows the value it
    caught), fulfilled when none fails.  [console.error] is called only with
    that reason, and "Initialization complete" is logged exactly after a
    success. *)
Theorem outcome_is_first_failure (w : world) (inputs : list input) :
  let s := run w (module_load w) inputs in
  (pc s = Returned -> initializationPromise s = settled_outcome w)
  /\ (pc s <> Returned -> initializationPromise s = Pending)
  /\ (forall e, initializationPromise s = Rejected e ->
      ConsoleError (lit "Initialization failed:") e ∈ trace s)
  /\ (forall msg e, ConsoleError msg e ∈ trace s ->
      msg = lit "Initialization failed:" /\ initializationPromise s = Rejected e)
  /\ (ConsoleLog (lit "Initialization complete") [] ∈ trace s
      <-> initializationPromise s = Fulfilled).
Proof.
  intros s. pose proof (reachable_run w inputs) as Hinv.
  pose proof (wiring_reachable w inputs) as Hw. fold s in Hinv, Hw.
  destruct Hw as [_ _ _ _ Ho Hr Hd]. rewrite Forall_forall in Hr.
  split; [exact Ho |]. split; [| split; [| split]].
  - intros Hpc. now apply (pending_of_pc w s Hinv).
  - intros e He. rewrite He in Hd. exact Hd.
  - intros msg e Hin. exact (Hr _ Hin).
  - split.
    + intros Hin. exact (Hr _ Hin eq_refl).
    + intros Hp. rewrite Hp in Hd. exact Hd.
Qed.

End BootstrapMore.

(* ------------------------------------------------------------------------- *)
(** * Further properties of the bootstrap: requests at the gate *)
(* ------------------------------------------------------------------------- *)
Module RequestFacts.
Import Js Express Bootstrap Samples More BootstrapFacts BootstrapMore.

#[local] Arguments lit : simpl never.
#[local] Arguments dec : simpl never.
#[local] Opaque module_stack.

(** ** Dispatch over layers that pass the request on *)




Lemma walk_unhandled (initialized : bool) (id : nat) (rq : request) (e : jsval)
    (ls : list layer) :
  Forall (fun l => is_error_handler l = false) ls ->
  forall res pos, walk initialized id rq res (Some e) pos ls = ([], Done (DefaultError e)).
Proof.
  induction 1 as [| l ls Hl _ IH]; intros res pos; [reflexivity |].
  destruct l; simpl in Hl |- *; try discriminate; apply IH.
Qed.

Lemma walk_open (id : nat) (rq : request) (ls : list layer) :
  forall (res : response) (err : option jsval) (pos p : nat),
    (walk true id rq res err pos ls).2 <> Parked p.
Proof.
  induction ls as [| l rest IH]; intros res err pos p.
  - simpl. discriminate.
  - assert (Hrec : forall res err, (walk true id rq res err (S pos) rest).2 <> Parked p)
      by (intros; apply IH).
    assert (Hnext : forall m res,
               (continue (fun err res => walk true id rq res err (S pos) rest) m res).2
               <> Parked p).
    { intros [| e |] res0; simpl; [apply Hrec | apply Hrec | discriminate]. }
    destruct err as [e |].
    + destruct l; simpl; try apply Hrec.
      destruct (Translator.error_handler e res) as [[[] | e'] [res' lines]]; simpl.
      * discriminate.
      * apply Hnext.
    + destruct l; simpl; try apply Hrec; try discriminate.
      * destruct (body_error rq); [apply Hnext | apply Hrec].
      * destruct (matches r rq); [| apply Hrec]. simpl.
        destruct (route_handler r rq) as [st body | e |]; [| apply Hnext | apply Hrec].
        simpl. destruct (send_json body _) as [[[] | e] res2]; [discriminate | apply Hnext].
Qed.


(** The layers behind the front of the stack hold no error handler until
    the registrar has resolved. *)
Lemma routes_no_handler (rs : list route) :
  Forall (fun l => is_error_handler l = false) (map LRoute rs).
Proof. induction rs; constructor; auto. Qed.

Lemma arrive_eq (rq : request) (s : state) (r : list event * outcome) :
  walk (isInitialized s) (next_id s) rq fresh None 0 (stack s) = r ->
  trace (arrive rq s) = trace s ++ r.1 ++ reply_events (next_id s) r.2
  /\ waiting (arrive rq s)
     = match r.2 with
       | Done _ => waiting s
       | Parked pos => <[next_id s := (rq, pos)]> (waiting s)
       end.
Proof. intros <-. unfold arrive. rewrite finish_eq. simpl. auto. Qed.



(** X13.  A request whose body does not parse never reaches the gate: the
    body parser, the first layer, hands the error on, the gate is skipped,
    and the request is answered in the turn in which it arrives, whatever
    the state of the initialization.  Until the registrar has resolved (and
    for good when it rejects) no error handler is installed and Express's
    final handler answers; afterwards the error handler does. *)
Theorem malformed_body_skips_gate (w : world) (inputs : list input) (rq : request)
    (e : jsval) :
  let s := run w (module_load w) inputs in
  body_error rq = Some e ->
  is_error e = true ->
  waiting (step w s (Arrive rq)) = waiting s
  /\ (pc s = AwaitRegisterRoutes \/ registerRoutes_result w <> None ->
      trace (step w s (Arrive rq)) = trace s ++ [Reply (next_id s) (DefaultError e)])
  /\ (pc s <> AwaitRegisterRoutes -> registerRoutes_result w = None ->
      forall res lines,
        Translator.error_handler e fresh = (Normal tt, (res, lines)) ->
        trace (step w s (Arrive rq)) = trace s ++ map Log lines ++ [Reply (next_id s) (Sent res)]).
Proof.
  intros s Hb He. pose proof (reachable_run w inputs) as Hinv.
  pose proof (wiring_reachable w inputs) as Hw. fold s in Hinv, Hw.
  pose proof (wired_stack w s Hw) as Hs. simpl step.
  assert (Hwalk : forall T,
             stack s = module_stack w ++ T ->
             walk (isInitialized s) (next_id s) rq fresh None 0 (stack s)
             = walk (isInitialized s) (next_id s) rq fresh (Some e) 1
                 (([LUrlencoded; LCors; LLogger] ++ map LRoute (routes_sync w) ++ [LGate])
                  ++ T)).
  { intros T ->. rewrite module_stack_head. simpl. rewrite Hb, (is_error_next e He).
    reflexivity. }
  assert (Hfront : Forall (fun l => is_error_handler l = false)
                     ([LUrlencoded; LCors; LLogger] ++ map LRoute (routes_sync w) ++ [LGate])).
  { repeat (constructor; [reflexivity |]). apply Forall_app.
    split; [apply routes_no_handler | repeat constructor]. }
  split; [| split].
  - destruct (arrive_eq rq s _ eq_refl) as [_ Hwt]. rewrite Hwt.
    rewrite (Hwalk _ Hs).
    destruct (walk_error_mode (isInitialized s) (next_id s) rq
                (([LUrlencoded; LCors; LLogger] ++ map LRoute (routes_sync w) ++ [LGate])
                 ++ match pc s with
                    | AwaitRegisterRoutes => []
                    | AwaitSetupVite => map LRoute (routes_late w) ++ [LErrorHandler]
                    | Returned =>
                        map LRoute (routes_late w)
                        ++ match registerRoutes_result w with
                           | Some _ => []
                           | None => LErrorHandler :: wired w (initializationPromise s)
                           end
                    end) fresh e 1%nat) as [_ [rep Hrep]].
    now rewrite Hrep.
  - intros Hcase.
    assert (HT : exists T, stack s = module_stack w ++ T
                           /\ Forall (fun l => is_error_handler l = false) T).
    { unfold stack_at in Hs. destruct Hcase as [Hpc | Hreg].
      - rewrite Hpc in Hs. exists []. split; [exact Hs | constructor].
      - destruct (registerRoutes_result w) as [x |] eqn:Hr; [| congruence].
        destruct (pc s) eqn:Hpc.
        + exists []. split; [exact Hs | constructor].
        + pose proof (wired_vite w s Hw Hpc). congruence.
        + exists (map LRoute (routes_late w) ++ []). split; [exact Hs |].
          rewrite app_nil_r. apply routes_no_handler. }
    destruct HT as (T & HsT & HT).
    destruct (arrive_eq rq s _ (Hwalk T HsT)) as [Htr _]. rewrite Htr.
    rewrite (walk_unhandled _ _ _ _ _ (proj2 (Forall_app _ _ _) (conj Hfront HT))).
    reflexivity.
  - intros Hpc Hreg res lines Hh.
    destruct (inv_stack w s Hinv) as (T & HsT & _ & Hin).
    specialize (Hin Hpc Hreg).
    destruct (arrive_eq rq s _ (Hwalk T HsT)) as [Htr _]. rewrite Htr.
    rewrite (walk_error_translated _ _ _ _ _ _ _ _ 1%nat
               (proj2 (elem_of_app _ _ _) (or_intror Hin)) Hh).
    reflexivity.
Qed.

Lemma malformed_body_skips_gate_witness :
  trace (step production_world (module_load production_world) (Arrive malformed_request))
  = trace (module_load production_world)
    ++ [Reply 0 (DefaultError (VObj [(lit "status", VNum 400);
                                     (lit "message", VStr (lit "Unexpected token"))]))].
Proof.
  exact (proj1 (proj2 (malformed_body_skips_gate production_world [] malformed_request _
                         eq_refl eq_refl))
           (or_introl eq_refl)).
Defined.





End RequestFacts.

(* ------------------------------------------------------------------------- *)
(** * Properties of the sibling revisions ([initializeApp], no gate) *)
(* ------------------------------------------------------------------------- *)
Module SiblingFacts.
Import Js Express Bootstrap Samples More BootstrapFacts RequestFacts.

#[local] Arguments lit : simpl never.
#[local] Arguments dec : simpl never.

Lemma sibling_load_eq (w : world) :
  Sibling.module_load w
  = {| stack := [LJson; LUrlencoded; LCors; LLogger] ++ map LRoute (routes_sync w);
       isInitialized := false;
       initializationPromise := Pending; pc := AwaitRegisterRoutes;
       listening := None; waiting := ∅; next_id := 0;
       trace := [Use LJson; Use LUrlencoded; Use LCors; Use LLogger;
                 ConsoleLog (lit "Before registering routes") []; RegisterRoutes]
                ++ map (fun r => Use (LRoute r)) (routes_sync w)
                ++ [Export (managed_externally w)] |}.
Proof.
  unfold Sibling.module_load, init_start. rewrite attach_all_eq. simpl.
  unfold export, app_use, emit, push. simpl.
  now rewrite <- ?app_assoc.
Qed.

Lemma routes_gateless (rs : list route) :
  Forall Sibling.gateless (map (fun r => Use (LRoute r)) rs).
Proof. induction rs; constructor; simpl; auto. Qed.

Lemma dispatch_gateless (e : event) : dispatch_event false e -> Sibling.gateless e.
Proof. destruct e; simpl; auto; discriminate. Qed.

Lemma reply_gateless (id : nat) (o : outcome) : Forall Sibling.gateless (reply_events id o).
Proof. destruct o; repeat constructor. Qed.

Lemma sibling_load (w : world) : Sibling.invariant w (Sibling.module_load w).
Proof.
  rewrite sibling_load_eq. constructor; simpl; try reflexivity; try discriminate.
  - exists []. rewrite app_nil_r. split; [reflexivity | split; [constructor | reflexivity]].
  - repeat (constructor; [exact I |]). apply Forall_app.
    split; [apply routes_gateless | repeat constructor].
Qed.

(** A dispatch over a stack that holds no gate ends in the turn. *)
Lemma sibling_walk (w : world) (s : state) (rq : request) :
  Sibling.invariant w s ->
  exists evs rep,
    walk (isInitialized s) (next_id s) rq fresh None 0 (stack s) = (evs, Done rep)
    /\ Forall Sibling.gateless evs.
Proof.
  intros Hinv. pose proof (walk_events (isInitialized s) (next_id s) rq (stack s) fresh None 0)
    as Hev.
  rewrite (Sibling.inv_flag w s Hinv) in *.
  destruct (walk false (next_id s) rq fresh None 0 (stack s)) as [evs [rep | p]] eqn:Hwalk.
  - exists evs, rep. split; [reflexivity |].
    eapply Forall_impl; [exact Hev | apply dispatch_gateless].
  - exfalso.
    destruct (walk_parks_at_gate false (next_id s) rq (stack s) fresh None 0 p) as (k & _ & Hk).
    { now rewrite Hwalk. }
    destruct (Sibling.inv_stack w s Hinv) as (tail & Hst & Htail & _).
    rewrite Hst in Hk. apply list_elem_of_lookup_2 in Hk.
    rewrite !elem_of_app in Hk. destruct Hk as [Hk | [Hk | Hk]].
    + rewrite !elem_of_cons, elem_of_nil in Hk. intuition discriminate.
    + apply list_elem_of_fmap in Hk as (r & Hr & _). discriminate.
    + rewrite Forall_forall in Htail. specialize (Htail _ Hk). discriminate.
Qed.

Lemma sibling_frame (w : world) (s s' : state) (E : list event) :
  Sibling.invariant w s ->
  stack s' = stack s -> pc s' = pc s -> waiting s' = waiting s ->
  initializationPromise s' = initializationPromise s ->
  isInitialized s' = isInitialized s ->
  trace s' = trace s ++ E ->
  Forall Sibling.gateless E ->
  Sibling.invariant w s'.
Proof.
  intros [Hst Hwt Hp Hf Hv Hg Hfail] Hs Hpc Hw Hpr Hfl Htr HE. constructor.
  - rewrite Hs, Hpc. exact Hst.
  - now rewrite Hw.
  - now rewrite Hpr, Hpc.
  - now rewrite Hfl.
  - now rewrite Hpc.
  - rewrite Htr. apply Forall_app. auto.
  - rewrite Hpc, Htr. intros Hr e He. apply elem_of_app. left. now apply Hfail.
Qed.

Lemma sibling_arrive (w : world) (s : state) (rq : request) :
  Sibling.invariant w s -> Sibling.invariant w (arrive rq s).
Proof.
  intros Hinv. destruct (sibling_walk w s rq Hinv) as (evs & rep & Hwalk & Hev).
  destruct (arrive_eq rq s _ Hwalk) as [Htr Hwt].
  apply (sibling_frame w s _ (evs ++ [Reply (next_id s) rep]) Hinv); auto;
    try (unfold arrive; rewrite finish_eq; reflexivity).
  apply Forall_app. split; [exact Hev | repeat constructor].
Qed.

Lemma sibling_listening (w : world) (s : state) :
  Sibling.invariant w s -> Sibling.invariant w (on_listening s).
Proof.
  intros Hinv. unfold on_listening. destruct (listening s) as [[|] |]; try exact Hinv.
  apply (sibling_frame w s _ [Log (readiness_line (lit "localhost") 5000)] Hinv);
    try reflexivity.
  repeat constructor.
Qed.

Ltac gateless_lists Hg :=
  repeat (apply Forall_app; split);
  first [exact Hg | apply routes_gateless | repeat constructor].

Lemma sibling_routes_settled (w : world) (s : state) :
  Sibling.invariant w s -> Sibling.invariant w (Sibling.routes_settled w s).
Proof.
  intros Hinv. unfold Sibling.routes_settled. destruct (pc s) eqn:Hpcs; try exact Hinv.
  destruct Hinv as [(tail & Hst & Htail & Hnil) Hwt Hp Hf Hv Hg Hfail].
  rewrite (Hnil Hpcs), app_nil_r in Hst. rewrite Hpcs in Hp.
  rewrite attach_all_eq.
  destruct (registerRoutes_result w) as [e |] eqn:Hreg;
    [| unfold Sibling.after_routes; simpl stack;
       destruct (development w) eqn:Hdev;
       [| destruct (serveStatic_result w) as [e |] eqn:Hstatic]];
    (constructor; simpl;
     [ eexists; rewrite Hst, <- ?app_assoc; split; [reflexivity |];
       split; [| discriminate];
       repeat (apply Forall_app; split); first [apply routes_no_gate | repeat constructor]
     | exact Hwt
     | first [reflexivity | exact Hp]
     | exact Hf
     | first [discriminate | auto]
     | gateless_lists Hg
     | try discriminate; intros _ x Hx; unfold settled_outcome in Hx;
       rewrite Hreg, ?Hdev, ?Hstatic in Hx;
       try discriminate; injection Hx as <-;
       rewrite !elem_of_app, ?list_elem_of_singleton; auto 10 ]).
Qed.

Lemma sibling_vite_settled (w : world) (s : state) :
  Sibling.invariant w s -> Sibling.invariant w (Sibling.vite_settled w s).
Proof.
  intros Hinv. unfold Sibling.vite_settled. destruct (pc s) eqn:Hpcs; try exact Hinv.
  destruct Hinv as [(tail & Hst & Htail & Hnil) Hwt Hp Hf Hv Hg Hfail].
  destruct (Hv Hpcs) as [Hreg Hdev]. rewrite Hpcs in Hp.
  destruct (setupVite_result w) as [e |] eqn:Hvite;
    [| unfold Sibling.after_vite; destruct (managed_externally w) eqn:Hm];
    (constructor; simpl;
     [ eexists; rewrite Hst, <- ?app_assoc; split; [reflexivity |];
       split; [| discriminate];
       repeat (apply Forall_app; split); first [exact Htail | repeat constructor]
     | exact Hwt
     | reflexivity
     | exact Hf
     | discriminate
     | gateless_lists Hg
     | intros _ x Hx; unfold settled_outcome in Hx; rewrite Hreg, Hdev, Hvite in Hx;
       try discriminate; injection Hx as <-;
       rewrite !elem_of_app, ?list_elem_of_singleton; auto 10 ]).
Qed.

Lemma sibling_step (w : world) (s : state) (i : input) :
  Sibling.invariant w s -> Sibling.invariant w (Sibling.step w s i).
Proof.
  intros Hinv. destruct i as [rq | | | id |]; simpl.
  - now apply sibling_arrive.
  - now apply sibling_routes_settled.
  - now apply sibling_vite_settled.
  - exact Hinv.
  - now apply sibling_listening.
Qed.

Lemma sibling_run (w : world) (inputs : list input) (s : state) :
  Sibling.invariant w s -> Sibling.invariant w (Sibling.run w s inputs).
Proof.
  revert s. induction inputs as [| i inputs IH]; intros s Hinv; [exact Hinv |].
  simpl. apply IH. now apply sibling_step.
Qed.


(** X17.  In the sibling revisions the [catch] block of [initializeApp]
    does not rethrow: the promise is never rejected; when a collaborator
    fails the function returns normally, and the failure is told by
    [console.error] with the text "Server failed to start:" only. *)
Theorem sibling_failure_is_swallowed (w : world) (inputs : list input) :
  let s := Sibling.run w (Sibling.module_load w) inputs in
  (forall e, initializationPromise s <> Rejected e)
  /\ (pc s = Returned <-> initializationPromise s = Fulfilled)
  /\ (pc s = Returned ->
      forall e, settled_outcome w = Rejected e ->
        ConsoleError (lit "Server failed to start:") e ∈ trace s).
Proof.
  intros s. pose proof (sibling_run w inputs _ (sibling_load w)) as Hinv. fold s in Hinv.
  pose proof (Sibling.inv_promise w s Hinv) as Hp.
  split; [| split].
  - intros e. rewrite Hp. destruct (pc s); discriminate.
  - rewrite Hp. destruct (pc s); split; congruence.
  - exact (Sibling.inv_failure w s Hinv).
Qed.

End SiblingFacts.

(* ------------------------------------------------------------------------- *)
(** * Each request: one verdict of the gate, one reply *)
(* ------------------------------------------------------------------------- *)
Module RequestsOnce.
Import Js Express Bootstrap Samples More BootstrapFacts BootstrapMore RequestFacts.

#[local] Arguments lit : simpl never.
#[local] Arguments dec : simpl never.
#[local] Arguments count : simpl never.
#[local] Arguments gates : simpl never.

Lemma count_nil (p : event -> bool) : count p [] = 0%nat.
Proof. reflexivity. Qed.

Lemma count_cons (p : event -> bool) (x : event) (l : list event) :
  count p (x :: l) = ((if p x then 1 else 0) + count p l)%nat.
Proof. unfold count. simpl. now destruct (p x). Qed.

Lemma count_log_lines (p : event -> bool) (lines : list jsstring) :
  (forall l, p (Log l) = false) -> count p (map Log lines) = 0%nat.
Proof.
  intros Hp. induction lines as [| l lines IH]; [reflexivity |].
  simpl. now rewrite count_cons, Hp, IH.
Qed.

Lemma gates_cons (l : layer) (ls : list layer) :
  gates (l :: ls) = ((if is_gate l then 1 else 0) + gates ls)%nat.
Proof. unfold gates. simpl. now destruct (is_gate l). Qed.

Lemma gates_app (a b : list layer) : gates (a ++ b) = (gates a + gates b)%nat.
Proof. unfold gates. now rewrite List.filter_app, length_app. Qed.

Lemma gates_none (ls : list layer) :
  Forall (fun l => is_gate l = false) ls -> gates ls = 0%nat.
Proof.
  induction 1 as [| l ls Hl _ IH]; [reflexivity |]. now rewrite gates_cons, Hl, IH.
Qed.

Lemma gates_module_stack (w : world) (tail : list layer) :
  Forall (fun l => is_gate l = false) tail -> gates (module_stack w ++ tail) = 1%nat.
Proof.
  intros Htail. rewrite module_stack_split, !gates_app, (gates_none tail Htail).
  rewrite (gates_none (map LRoute (routes_sync w))) by apply routes_no_gate.
  reflexivity.
Qed.

(** The gate gives at most as many verdicts as there are gates. *)
Lemma walk_verdicts (initialized : bool) (id i : nat) (rq : request) (ls : list layer) :
  forall res err pos,
    (count (is_verdict i) (walk initialized id rq res err pos ls).1 <= gates ls)%nat.
Proof.
  induction ls as [| l rest IH]; intros res err pos.
  - simpl. rewrite count_nil. lia.
  - assert (Hrec : forall res err,
               (count (is_verdict i) (walk initialized id rq res err (S pos) rest).1
                <= gates (l :: rest))%nat).
    { intros res0 err0. rewrite gates_cons. specialize (IH res0 err0 (S pos)). lia. }
    assert (Hnext : forall m res,
               (count (is_verdict i)
                  (continue (fun err res => walk initialized id rq res err (S pos) rest)
                     m res).1
                <= gates (l :: rest))%nat).
    { intros [| e |] res0; simpl; [apply Hrec | apply Hrec | rewrite count_nil; lia]. }
    destruct err as [e |].
    + destruct l; simpl; try apply Hrec.
      destruct (Translator.error_handler e res) as [[[] | e'] [res' lines]]; simpl.
      * rewrite count_log_lines by reflexivity. lia.
      * rewrite count_app, count_log_lines by reflexivity. apply Hnext.
    + destruct l; simpl; try apply Hrec; try (rewrite count_nil; lia).
      * destruct (body_error rq); [apply Hnext | apply Hrec].
      * destruct initialized; simpl; [| rewrite count_nil; lia].
        rewrite count_cons, gates_cons. specialize (IH res None (S pos)).
        simpl. destruct (id =? i)%nat; lia.
      * destruct (matches r rq); [| apply Hrec]. simpl. rewrite count_cons. simpl.
        destruct (route_handler r rq) as [st body | e |]; [| apply Hnext | apply Hrec].
        simpl. destruct (send_json body _) as [[[] | e] res2];
          [rewrite count_nil; lia | apply Hnext].
Qed.

(** The events of a dispatch are about the request dispatched. *)
Lemma walk_own (initialized : bool) (id : nat) (rq : request) (ls : list layer) :
  forall res err pos, Forall (own_event id) (walk initialized id rq res err pos ls).1.
Proof.
  induction ls as [| l rest IH]; intros res err pos.
  - simpl. constructor.
  - assert (Hnext : forall m res,
               Forall (own_event id)
                 (continue (fun err res => walk initialized id rq res err (S pos) rest) m res).1).
    { intros m res0. apply continue_Forall. intros err0 res1. apply IH. }
    destruct err as [e |].
    + destruct l; simpl; try apply IH.
      destruct (Translator.error_handler e res) as [[[] | e'] [res' lines]].
      * simpl. apply Forall_log_lines. now intros.
      * apply Forall_prepend; [| apply Hnext]. apply Forall_log_lines. now intros.
    + destruct l; simpl; try apply IH; try constructor.
      * destruct (body_error rq); [apply Hnext | apply IH].
      * destruct initialized; [| constructor].
        apply Forall_prepend; [| apply IH]. repeat constructor.
      * destruct (matches r rq); [| apply IH].
        apply Forall_prepend; [repeat constructor |].
        destruct (route_handler r rq) as [st body | e |]; [| apply Hnext | apply IH].
        simpl. destruct (send_json body _) as [[[] | e] res2]; [constructor | apply Hnext].
Qed.

Lemma own_counts (id i : nat) (es : list event) :
  Forall (own_event id) es ->
  count (is_reply i) es = 0%nat /\ (i <> id -> count (is_verdict i) es = 0%nat).
Proof.
  induction 1 as [| e es He _ [IH1 IH2]]; [split; reflexivity |].
  rewrite !count_cons, IH1. split.
  - destruct e; simpl in He |- *; (reflexivity || contradiction).
  - intros Hi. rewrite (IH2 Hi).
    destruct e; simpl in He |- *; try reflexivity; try contradiction.
    subst. apply Nat.eqb_neq in Hi. rewrite Nat.eqb_sym in Hi. now rewrite Hi.
Qed.

Lemma closed_gate_counts (i : nat) (es : list event) :
  Forall (dispatch_event false) es -> count (is_verdict i) es = 0%nat.
Proof.
  apply count_zero. intros e He. destruct e; simpl in He |- *; (reflexivity || discriminate
                                                                  || contradiction).
Qed.

(** The turn of one request [id0]: the others keep what they had. *)
Lemma requests_move (s s' : state) (id0 : nat) (E : list event) :
  requests_ok s ->
  trace s' = trace s ++ E ->
  (forall i, i <> id0 -> count (is_reply i) E = 0%nat /\ count (is_verdict i) E = 0%nat) ->
  (forall i, i <> id0 -> waiting s' !! i = waiting s !! i) ->
  (next_id s <= next_id s')%nat ->
  (forall i, (next_id s <= i)%nat -> (i < next_id s')%nat -> i = id0) ->
  (id0 < next_id s')%nat ->
  untouched s id0 ->
  match waiting s' !! id0 with
  | Some _ => count (is_reply id0) E = 0%nat /\ count (is_verdict id0) E = 0%nat
  | None => count (is_reply id0) E = 1%nat /\ (count (is_verdict id0) E <= 1)%nat
  end ->
  requests_ok s'.
Proof.
  intros [Hw Ha Hu] Htr Hother Hwait Hle Hnew Hlt [H0r H0v] Hown.
  constructor; unfold untouched, answered; intros i; rewrite Htr, !count_app.
  - intros x Hx. destruct (decide (i = id0)) as [-> | Hi].
    + rewrite Hx in Hown. split; [exact Hlt | lia].
    + rewrite (Hwait i Hi) in Hx. destruct (Hw i x Hx) as [Hlti [H1 H2]].
      destruct (Hother i Hi). split; lia.
  - intros Hlti Hnone. destruct (decide (i = id0)) as [-> | Hi].
    + rewrite Hnone in Hown. lia.
    + rewrite (Hwait i Hi) in Hnone. destruct (Hother i Hi).
      assert (Hold : (i < next_id s)%nat).
      { destruct (Nat.lt_ge_cases i (next_id s)) as [Hlo | Hhi]; [exact Hlo |].
        exfalso. apply Hi. now apply Hnew. }
      destruct (Ha i Hold Hnone). lia.
  - intros Hge. assert (Hi : i <> id0) by lia.
    destruct (Hother i Hi). destruct (Hu i) as [H1 H2]; [lia |]. lia.
Qed.

Lemma requests_idle (s s' : state) (E : list event) :
  requests_ok s ->
  trace s' = trace s ++ E ->
  Forall (fun e => event_id e = None) E ->
  waiting s' = waiting s ->
  next_id s' = next_id s ->
  requests_ok s'.
Proof.
  intros [Hw Ha Hu] Htr HE Hwait Hid.
  assert (Hz : forall i, count (is_reply i) E = 0%nat /\ count (is_verdict i) E = 0%nat).
  { intros i. split; apply (count_zero _ (fun e => event_id e = None)); auto;
      intros e He; destruct e; simpl in He |- *; (reflexivity || discriminate). }
  constructor; unfold untouched, answered; intros i; rewrite Htr, !count_app, ?Hwait, ?Hid;
    destruct (Hz i) as [-> ->]; rewrite !Nat.add_0_r.
  - apply Hw.
  - apply Ha.
  - apply Hu.
Qed.

Lemma requests_load (w : world) : requests_ok (module_load w).
Proof.
  rewrite module_load_eq.
  assert (Hcount : forall q,
             (forall e, event_id e = None -> q e = false) ->
             count q ([Use LJson; Use LUrlencoded; Use LCors; Use LLogger;
                       ConsoleLog (lit "Before registering routes") []; RegisterRoutes]
                      ++ map (fun r => Use (LRoute r)) (routes_sync w)
                      ++ [Use LGate; Export (managed_externally w)]) = 0%nat).
  { intros q Hq. apply (count_zero _ (fun e => event_id e = None)); [exact Hq |].
    repeat (constructor; [reflexivity |]). apply Forall_app.
    split; [| repeat constructor]. induction (routes_sync w); constructor; auto. }
  assert (Hr : forall i e, event_id e = None -> is_reply i e = false)
    by (intros i e; destruct e; simpl; intros; (reflexivity || discriminate)).
  assert (Hv : forall i e, event_id e = None -> is_verdict i e = false)
    by (intros i e; destruct e; simpl; intros; (reflexivity || discriminate)).
  constructor; unfold untouched, answered; cbn [waiting next_id trace].
  - intros id x Hx. now rewrite lookup_empty in Hx.
  - intros id Hlt. lia.
  - intros id _. split; apply Hcount; [apply Hr | apply Hv].
Qed.

Lemma requests_arrive (w : world) (s : state) (rq : request) :
  invariant w s -> requests_ok s -> requests_ok (arrive rq s).
Proof.
  intros Hinv Hok.
  destruct (arrive_eq rq s _ eq_refl) as [Htr Hwt].
  pose proof (walk_own (isInitialized s) (next_id s) rq (stack s) fresh None 0) as Hown.
  pose proof (walk_verdicts (isInitialized s) (next_id s) (next_id s) rq (stack s)
                fresh None 0) as Hver.
  destruct (inv_stack w s Hinv) as (tail & Hst & Htail & _).
  rewrite Hst, (gates_module_stack w tail Htail), <- Hst in Hver.
  assert (Hid : next_id (arrive rq s) = S (next_id s))
    by (unfold arrive; rewrite finish_eq; reflexivity).
  apply (requests_move s _ (next_id s) _ Hok Htr).
  - intros i Hi. rewrite !count_app.
    destruct (own_counts (next_id s) i _ Hown) as [-> Hv]. rewrite (Hv Hi).
    destruct (walk _ _ _ _ _ _ _).2; simpl; rewrite ?count_cons, ?count_nil; simpl;
      rewrite ?(proj2 (Nat.eqb_neq _ _) (not_eq_sym Hi)); auto.
  - intros i Hi. rewrite Hwt. destruct (walk _ _ _ _ _ _ _).2; [reflexivity |].
    now rewrite lookup_insert_ne by congruence.
  - rewrite Hid. lia.
  - rewrite Hid. intros i H1 H2. lia.
  - rewrite Hid. lia.
  - apply (unborn_ok s Hok). lia.
  - rewrite Hwt, !count_app.
    destruct (own_counts (next_id s) (next_id s) _ Hown) as [-> _].
    destruct (walk (isInitialized s) (next_id s) rq fresh None 0 (stack s)) as [evs [rep | p]]
      eqn:Hwalk; cbn [fst snd reply_events] in *.
    + destruct (waiting s !! next_id s) as [x |] eqn:Hx.
      * destruct (waiting_ok s Hok _ _ Hx). lia.
      * rewrite count_cons, count_nil. simpl. rewrite Nat.eqb_refl.
        rewrite count_cons, count_nil. simpl. split; lia.
    + rewrite lookup_insert_eq, !count_nil.
      destruct (isInitialized s) eqn:Hf.
      * exfalso. apply (walk_open (next_id s) rq (stack s) fresh None 0%nat p).
        now rewrite Hwalk.
      * pose proof (walk_events false (next_id s) rq (stack s) fresh None 0) as Hev.
        rewrite Hwalk in Hev. rewrite (closed_gate_counts _ _ Hev). split; lia.
Qed.

Lemma continue_verdicts (initialized : bool) (id i : nat) (rq : request) (pos : nat)
    (ls : list layer) (m : next_mode) (res : response) :
  (count (is_verdict i)
     (continue (fun err res => walk initialized id rq res err pos ls) m res).1
   <= gates ls)%nat.
Proof.
  destruct m; simpl; [apply walk_verdicts | apply walk_verdicts | rewrite count_nil; lia].
Qed.

(** The continuation of a waiting request, with the gate's verdict [V]. *)
Lemma requests_release (w : world) (s : state) (id : nat) (rq : request) (pos : nat)
    (m : next_mode) (V : event) :
  invariant w s -> requests_ok s ->
  waiting s !! id = Some (rq, pos) ->
  is_verdict id V = true ->
  (forall i, i <> id -> is_verdict i V = false) ->
  (forall i, is_reply i V = false) ->
  requests_ok
    (finish id rq
       (prepend [V]
          (continue (fun err res => walk (isInitialized s) id rq res err (S pos)
                                      (drop (S pos) (stack s))) m fresh))
       (set_waiting (delete id (waiting s)) s)).
Proof.
  intros Hinv Hok Hwait HV HVo HVr.
  pose proof (inv_waiting w s Hinv _ _ _ Hwait) as ->.
  destruct (inv_stack w s Hinv) as (tail & Hst & Htail & _).
  rewrite Hst, drop_behind_gate.
  destruct (walk_without_gate (isInitialized s) id rq fresh m (S (gate_index w)) tail Htail)
    as [rep Hrep].
  assert (Hown : Forall (own_event id)
                   (continue (fun err res => walk (isInitialized s) id rq res err
                                               (S (gate_index w)) tail) m fresh).1)
    by (apply continue_Forall; intros; apply walk_own).
  assert (Hver : forall i,
             count (is_verdict i)
               (continue (fun err res => walk (isInitialized s) id rq res err
                                           (S (gate_index w)) tail) m fresh).1 = 0%nat).
  { intros i.
    pose proof (continue_verdicts (isInitialized s) id i rq (S (gate_index w)) tail m fresh)
      as Hle.
    rewrite (gates_none tail Htail) in Hle. lia. }
  remember (continue (fun err res => walk (isInitialized s) id rq res err
                                       (S (gate_index w)) tail) m fresh) as r eqn:Hr.
  clear Hr. destruct r as [evs o]. cbn [fst snd] in *. subst o.
  rewrite finish_eq. unfold prepend. cbn [fst snd reply_events].
  apply (requests_move s _ id (([V] ++ evs) ++ [Reply id rep]) Hok).
  - reflexivity.
  - intros i Hi. rewrite !count_app, !count_cons, !count_nil, HVr, (HVo i Hi), (Hver i).
    destruct (own_counts id i evs Hown) as [-> _]. simpl.
    rewrite (proj2 (Nat.eqb_neq _ _) (not_eq_sym Hi)). split; reflexivity.
  - intros i Hi. cbn [waiting set_waiting]. now rewrite lookup_delete_ne by congruence.
  - reflexivity.
  - cbn [next_id set_waiting]. intros i H1 H2. lia.
  - cbn [next_id set_waiting]. exact (proj1 (waiting_ok s Hok _ _ Hwait)).
  - exact (proj2 (waiting_ok s Hok _ _ Hwait)).
  - cbn [waiting set_waiting]. rewrite lookup_delete_eq.
    rewrite !count_app, !count_cons, !count_nil, HVr, HV, (Hver id).
    destruct (own_counts id id evs Hown) as [-> _]. simpl.
    rewrite Nat.eqb_refl. split; lia.
Qed.

Lemma requests_resume (w : world) (s : state) (id : nat) :
  invariant w s -> requests_ok s -> requests_ok (resume id s).
Proof.
  intros Hinv Hok. unfold resume.
  destruct (waiting s !! id) as [[rq pos] |] eqn:Hwait; [| exact Hok].
  destruct (initializationPromise s) as [| | e] eqn:Hp; [exact Hok | |].
  - apply (requests_release w s id rq pos NoError (GateNext id) Hinv Hok Hwait).
    + simpl. apply Nat.eqb_refl.
    + intros i Hi. simpl. apply Nat.eqb_neq. congruence.
    + reflexivity.
  - apply (requests_release w s id rq pos (next_with e) (GateError id e) Hinv Hok Hwait).
    + simpl. apply Nat.eqb_refl.
    + intros i Hi. simpl. apply Nat.eqb_neq. congruence.
    + reflexivity.
Qed.

Lemma routes_idle (rs : list route) :
  Forall (fun e => event_id e = None) (map (fun r => Use (LRoute r)) rs).
Proof. induction rs; constructor; auto. Qed.

Ltac idle_lists :=
  repeat (apply Forall_app; split);
  first [apply routes_idle | repeat constructor].

Lemma requests_routes_settled (w : world) (s : state) :
  requests_ok s -> requests_ok (routes_settled w s).
Proof.
  intros Hok. unfold routes_settled. destruct (pc s); try exact Hok.
  rewrite attach_all_eq.
  destruct (registerRoutes_result w) as [e |];
    [| unfold after_routes; simpl stack;
       destruct (development w);
       [| destruct (serveStatic_result w) as [e |]]];
    (eapply (requests_idle s _ _ Hok);
     [ simpl; rewrite <- ?app_assoc; reflexivity
     | idle_lists
     | reflexivity
     | reflexivity ]).
Qed.

Lemma requests_vite_settled (w : world) (s : state) :
  requests_ok s -> requests_ok (vite_settled w s).
Proof.
  intros Hok. unfold vite_settled. destruct (pc s); try exact Hok.
  destruct (setupVite_result w) as [e |];
    [| unfold after_vite; destruct (managed_externally w)];
    (eapply (requests_idle s _ _ Hok);
     [ simpl; rewrite <- ?app_assoc; reflexivity
     | idle_lists
     | reflexivity
     | reflexivity ]).
Qed.

Lemma requests_listening (s : state) : requests_ok s -> requests_ok (on_listening s).
Proof.
  intros Hok. unfold on_listening. destruct (listening s) as [[|] |]; try exact Hok.
  apply (requests_idle s _ [Log (readiness_line (lit "localhost") 5000)] Hok);
    try reflexivity.
  repeat constructor.
Qed.

Lemma requests_step (w : world) (s : state) (i : input) :
  invariant w s -> requests_ok s -> requests_ok (step w s i).
Proof.
  intros Hinv Hok. destruct i as [rq | | | id |]; simpl.
  - now apply (requests_arrive w).
  - now apply requests_routes_settled.
  - now apply requests_vite_settled.
  - now apply (requests_resume w).
  - now apply requests_listening.
Qed.

Lemma requests_run (w : world) (inputs : list input) (s : state) :
  invariant w s -> requests_ok s -> requests_ok (run w s inputs).
Proof.
  revert s. induction inputs as [| i inputs IH]; intros s Hinv Hok; [exact Hok |].
  simpl. apply IH; [now apply invariant_step | now apply requests_step].
Qed.

(** X18.  The gate gives each request at most one verdict, [next()] or
    [next(error)], never both (the [catch] block returns), and each request
    gets at most one reply.  A request that waits in the gate has had
    neither; a request that has arrived and does not wait has had exactly
    one reply; request identifiers beyond those handed out have no event. *)
Theorem each_request_once (w : world) (inputs : list input) (id : nat) :
  let s := run w (module_load w) inputs in
  (count (is_verdict id) (trace s) <= 1)%nat
  /\ (count (is_reply id) (trace s) <= 1)%nat
  /\ (forall x, waiting s !! id = Some x ->
      (id < next_id s)%nat
      /\ count (is_verdict id) (trace s) = 0%nat /\ count (is_reply id) (trace s) = 0%nat)
  /\ ((id < next_id s)%nat -> waiting s !! id = None -> count (is_reply id) (trace s) = 1%nat)
  /\ ((next_id s <= id)%nat ->
      count (is_verdict id) (trace s) = 0%nat /\ count (is_reply id) (trace s) = 0%nat).
Proof.
  intros s.
  pose proof (requests_run w inputs _ (invariant_load w) (requests_load w)) as Hok.
  fold s in Hok. destruct Hok as [Hw Ha Hu]. unfold untouched, answered in *.
  assert (Hcases : (next_id s <= id)%nat
                   \/ ((id < next_id s)%nat
                       /\ ((exists x, waiting s !! id = Some x) \/ waiting s !! id = None))).
  { destruct (Nat.lt_ge_cases id (next_id s)) as [Hlt | Hge]; [right | now left].
    split; [exact Hlt |]. destruct (waiting s !! id); eauto. }
  split; [| split; [| split; [| split]]].
  - destruct Hcases as [Hge | [Hlt [[x Hx] | Hnone]]].
    + destruct (Hu id Hge). lia.
    + destruct (Hw id x Hx) as [_ [? ?]]. lia.
    + destruct (Ha id Hlt Hnone). lia.
  - destruct Hcases as [Hge | [Hlt [[x Hx] | Hnone]]].
    + destruct (Hu id Hge). lia.
    + destruct (Hw id x Hx) as [_ [? ?]]. lia.
    + destruct (Ha id Hlt Hnone). lia.
  - intros x Hx. destruct (Hw id x Hx) as [? [? ?]]. auto.
  - intros Hlt Hnone. now destruct (Ha id Hlt Hnone).
  - intros Hge. destruct (Hu id Hge). auto.
Qed.

End RequestsOnce.

(* ------------------------------------------------------------------------- *)
(** * The export of the module *)
(* ------------------------------------------------------------------------- *)
Module ExportFacts.
Import Js Express Bootstrap Samples More BootstrapFacts.

#[local] Arguments lit : simpl never.
#[local] Arguments dec : simpl never.

Lemma routes_init_or_settle (rs : list route) :
  Forall init_or_settle (map (fun r => Use (LRoute r)) rs).
Proof. induction rs; constructor; auto. now left. Qed.

Ltac turn_lists :=
  repeat (apply Forall_app; split);
  first [ apply routes_init_or_settle
        | repeat (constructor; [first [now left | now right] |]); constructor ].

(** What a turn of the initialization function adds to the trace. *)
Lemma init_turn_events (w : world) (s : state) (i : input) :
  i = RoutesSettled \/ i = ViteSettled ->
  exists E, trace (step w s i) = trace s ++ E /\ Forall init_or_settle E.
Proof.
  intros [-> | ->]; simpl.
  - unfold routes_settled. destruct (pc s);
      try (exists []; split; [now rewrite app_nil_r | constructor]).
    rewrite attach_all_eq.
    destruct (registerRoutes_result w) as [e |];
      [| unfold after_routes; simpl stack;
         destruct (development w);
         [| destruct (serveStatic_result w) as [e |]]];
      (eexists; split; [simpl; rewrite <- ?app_assoc; reflexivity | turn_lists]).
  - unfold vite_settled. destruct (pc s);
      try (exists []; split; [now rewrite app_nil_r | constructor]).
    destruct (setupVite_result w) as [e |];
      [| unfold after_vite; destruct (managed_externally w)];
      (eexists; split; [simpl; rewrite <- ?app_assoc; reflexivity | turn_lists]).
Qed.

Lemma export_count_step (w : world) (s : state) (i : input) :
  count is_export (trace (step w s i)) = count is_export (trace s).
Proof.
  destruct (input_kind i) as [Hi | [Hr Hv]].
  - destruct (init_turn_events w s i Hi) as (E & -> & HE).
    rewrite count_app, (count_zero is_export init_or_settle E); [lia | | exact HE].
    intros e [He | He]; destruct e; simpl in He |- *; (reflexivity || contradiction
                                                         || discriminate).
  - destruct (request_turn_frame w s i Hr Hv) as (E & -> & HE & _).
    rewrite count_app, (count_zero is_export request_event E); [lia | | exact HE].
    intros e He; destruct e; simpl in He |- *; (reflexivity || contradiction).
Qed.

Lemma export_count_run (w : world) (inputs : list input) (s : state) :
  count is_export (trace (run w s inputs)) = count is_export (trace s).
Proof.
  revert s. induction inputs as [| i inputs IH]; intros s; [reflexivity |].
  simpl. now rewrite IH, export_count_step.
Qed.

Lemma export_count_load (w : world) : count is_export (trace (module_load w)) = 1%nat.
Proof.
  rewrite module_load_eq. cbn [trace]. rewrite !count_app.
  rewrite (count_zero is_export (fun e => is_export e = false)
             (map (fun r => Use (LRoute r)) (routes_sync w))); [reflexivity | auto |].
  induction (routes_sync w); constructor; auto.
Qed.

(** X19.  The module exports its handler once, in its synchronous run,
    while the initialization promise is still pending, and never again; the
    handler is the serverless wrapper exactly when [process.env.VERCEL] is
    truthy, so a variable set to the empty string counts as absent. *)
Theorem export_once_while_pending (w : world) (inputs : list input) :
  let s := run w (module_load w) inputs in
  count is_export (trace s) = 1%nat
  /\ (forall b, Export b ∈ trace s <-> b = managed_externally w)
  /\ Export (managed_externally w) ∈ trace (module_load w)
  /\ initializationPromise (module_load w) = Pending
  /\ (managed_externally w = true <-> exists v, VERCEL w = Some v /\ v <> []).
Proof.
  intros s. pose proof (invariant_run w inputs _ (invariant_load w)) as Hinv. fold s in Hinv.
  assert (Hload : Export (managed_externally w) ∈ trace (module_load w)).
  { rewrite module_load_eq. cbn [trace]. rewrite !elem_of_app. right. right.
    apply list_elem_of_further, list_elem_of_here. }
  split; [| split; [| split; [| split]]].
  - unfold s. now rewrite export_count_run, export_count_load.
  - intros b. split; [apply (inv_export w s Hinv) |]. intros ->.
    destruct (inv_load w s Hinv) as [rest Hrest]. rewrite Hrest. apply elem_of_app. now left.
  - exact Hload.
  - now rewrite module_load_eq.
  - unfold managed_externally. destruct (VERCEL w) as [v |]; simpl.
    + destruct v as [| c v]; simpl; split.
      * discriminate.
      * intros (v & Hv & Hne). now injection Hv as <-.
      * intros _. eexists. split; [reflexivity | discriminate].
      * reflexivity.
    + split; [discriminate | intros (v & Hv & _); discriminate].
Qed.

End ExportFacts.

(* ------------------------------------------------------------------------- *)
(** * The two runtime modes *)
(* ------------------------------------------------------------------------- *)
Module ModeFacts.
Import Js Express Bootstrap Samples More BootstrapFacts BootstrapMore.

#[local] Arguments lit : simpl never.
#[local] Arguments dec : simpl never.

(** A step of the initialization sequence that has happened is a step of
    the sequence of the mode. *)
Lemma init_event_in_sequence (w : world) (s : state) (e : event) :
  invariant w s -> e ∈ trace s -> is_init_event e = true -> e ∈ sequence w.
Proof.
  intros Hinv Hin He.
  destruct (init_events_prefix w s Hinv) as [k Hk]. rewrite Hk.
  apply elem_of_app. left. now apply in_init_events.
Qed.

Lemma sequence_development (w : world) (e : event) :
  development w = true -> e ∈ sequence w -> e <> ServeStatic.
Proof.
  intros Hdev Hin ->. unfold sequence, wiring in Hin. rewrite Hdev in Hin.
  destruct (managed_externally w);
    repeat (rewrite ?elem_of_app, ?elem_of_cons, ?elem_of_nil in Hin);
    intuition discriminate.
Qed.

Lemma sequence_production (w : world) (e : event) :
  development w = false -> e ∈ sequence w ->
  e <> CreateServer /\ e <> SetupVite /\ is_listen e = false.
Proof.
  intros Hdev Hin. unfold sequence, wiring in Hin. rewrite Hdev in Hin.
  repeat (rewrite ?elem_of_app, ?elem_of_cons, ?elem_of_nil in Hin).
  destruct Hin as [[-> | [-> | [-> | []]]] | [-> | []]]; repeat split; discriminate.
Qed.

(** The asset middleware on the stack is the one of the mode, and it is
    there only after a success. *)
Lemma asset_layer (w : world) (s : state) (l : layer) :
  l ∈ stack_at w s -> l = LVite \/ l = LStatic ->
  l = (if development w then LVite else LStatic) /\ initializationPromise s = Fulfilled.
Proof.
  unfold stack_at. rewrite module_stack_split. intros Hin Hl.
  assert (Hroutes : forall rs, l ∈ map LRoute rs -> False).
  { intros rs Hr. apply list_elem_of_fmap in Hr as (r & -> & _).
    destruct Hl; discriminate. }
  assert (Hone : forall x, x <> LVite -> x <> LStatic -> l ∈ [x] -> False).
  { intros x H1 H2 Hx. apply list_elem_of_singleton in Hx. subst. destruct Hl; contradiction. }
  assert (Hwired : l ∈ wired w (initializationPromise s) ->
                   l = (if development w then LVite else LStatic)
                   /\ initializationPromise s = Fulfilled).
  { unfold wired. destruct (initializationPromise s); intros Hx.
    - now apply elem_of_nil in Hx.
    - apply list_elem_of_singleton in Hx. auto.
    - now apply elem_of_nil in Hx. }
  repeat (rewrite ?elem_of_app in Hin).
  destruct Hin as [[[Hin | Hin] | Hin] | Hin].
  - exfalso. repeat (rewrite ?elem_of_cons, ?elem_of_nil in Hin).
    destruct Hl; subst; intuition discriminate.
  - exfalso. eauto.
  - exfalso. apply (Hone LGate); [discriminate | discriminate | exact Hin].
  - destruct (pc s).
    + now apply elem_of_nil in Hin.
    + exfalso. apply elem_of_app in Hin as [Hin | Hin]; [eauto |].
      apply (Hone LErrorHandler); [discriminate | discriminate | exact Hin].
    + apply elem_of_app in Hin as [Hin | Hin]; [exfalso; eauto |].
      destruct (registerRoutes_result w); [now apply elem_of_nil in Hin |].
      apply elem_of_cons in Hin as [-> | Hin]; [destruct Hl; discriminate | auto].
Qed.

(** X20.  The two modes exclude each other.  In development [serveStatic]
    is never called and its middleware never installed; otherwise no HTTP
    server is created, [setupVite] and [listen] are never called, the
    initialization never waits for [setupVite], and the dev-asset middleware
    is never installed.  After a success the collaborator of the mode has
    been called, and its middleware is on the stack. *)
Theorem modes_are_exclusive (w : world) (inputs : list input) :
  let s := run w (module_load w) inputs in
  (development w = true -> (ServeStatic ∉ trace s) /\ (LStatic ∉ stack s))
  /\ (development w = false ->
      (CreateServer ∉ trace s) /\ (SetupVite ∉ trace s)
      /\ (forall port host, Listen port host ∉ trace s)
      /\ pc s <> AwaitSetupVite /\ (LVite ∉ stack s))
  /\ (initializationPromise s = Fulfilled ->
      (if development w then SetupVite else ServeStatic) ∈ trace s
      /\ (if development w then LVite else LStatic) ∈ stack s).
Proof.
  intros s. pose proof (reachable_run w inputs) as Hinv.
  pose proof (wiring_reachable w inputs) as Hw. fold s in Hinv, Hw.
  pose proof (wired_stack w s Hw) as Hs.
  split; [| split].
  - intros Hdev. split.
    + intros Hin. pose proof (init_event_in_sequence w s ServeStatic Hinv Hin eq_refl) as Hseq.
      now apply (sequence_development w _ Hdev Hseq).
    + rewrite Hs. intros Hin.
      destruct (asset_layer w s LStatic Hin (or_intror eq_refl)) as [Hl _].
      rewrite Hdev in Hl. discriminate.
  - intros Hdev.
    assert (Hnot : forall e, is_init_event e = true -> e ∈ trace s ->
                     e <> CreateServer /\ e <> SetupVite /\ is_listen e = false).
    { intros e He Hin. apply (sequence_production w e Hdev).
      now apply (init_event_in_sequence w s). }
    split; [| split; [| split; [| split]]].
    + intros Hin. destruct (Hnot CreateServer eq_refl Hin) as (H & _). now apply H.
    + intros Hin. destruct (Hnot SetupVite eq_refl Hin) as (_ & H & _). now apply H.
    + intros port host Hin. destruct (Hnot (Listen port host) eq_refl Hin) as (_ & _ & H). discriminate.
    + intros Hpc. pose proof (inv_init w s Hinv) as Hinit. unfold init_ok in Hinit.
      rewrite Hpc in Hinit. destruct Hinit as [Hd _]. congruence.
    + rewrite Hs. intros Hin.
      destruct (asset_layer w s LVite Hin (or_introl eq_refl)) as [Hl _].
      rewrite Hdev in Hl. discriminate.
  - intros Hp.
    assert (Hpc : pc s = Returned) by (apply (inv_pc w s Hinv); congruence).
    pose proof (inv_init w s Hinv) as Hinit. unfold init_ok in Hinit.
    rewrite Hpc in Hinit. destruct Hinit as [_ Hfull]. specialize (Hfull Hp).
    split.
    + apply (init_events_in _ (trace s)). rewrite Hfull. unfold sequence, wiring.
      destruct (development w); rewrite !elem_of_app, !elem_of_cons; auto 10.
    + pose proof (wired_outcome w s Hw Hpc) as Ho. rewrite Hp in Ho.
      destruct (fulfilled_registrar w (eq_sym Ho)) as [Hreg _].
      rewrite Hs. unfold stack_at. rewrite Hpc, Hreg, Hp. unfold wired.
      rewrite !elem_of_app, !elem_of_cons. auto 10.
Qed.

End ModeFacts.

(* ------------------------------------------------------------------------- *)
(** * The initialization sequence, step by step *)
(* ------------------------------------------------------------------------- *)
Module SequenceFacts.
Import Js Express Bootstrap Samples More BootstrapFacts BootstrapMore.

#[local] Arguments lit : simpl never.
#[local] Arguments dec : simpl never.

(** Once the promises of both collaborators have settled, the
    initialization function has returned, from whatever state. *)
Lemma settled_returns (w : world) (s : state) :
  pc (run w s [RoutesSettled; ViteSettled]) = Returned.
Proof.
  assert (Hvite : forall s', pc s' <> AwaitRegisterRoutes -> pc (vite_settled w s') = Returned).
  { intros s' Hpc. unfold vite_settled. destruct (pc s') eqn:Hs'; [congruence | | exact Hs'].
    destruct (setupVite_result w); [reflexivity |].
    unfold after_vite. destruct (negb (managed_externally w)); reflexivity. }
  simpl. apply Hvite. unfold routes_settled.
  destruct (pc s) eqn:Hpc; [| congruence | congruence].
  rewrite attach_all_eq. destruct (registerRoutes_result w); [discriminate |].
  unfold after_routes. destruct (development w); [discriminate |].
  destruct (serveStatic_result w); discriminate.
Qed.

(** The steps taken are those of the place where the function stands. *)
Lemma steps_step (w : world) (s : state) (i : input) :
  invariant w s -> wiring_ok w s ->
  init_events (trace s) = steps_taken w (pc s) ->
  init_events (trace (step w s i)) = steps_taken w (pc (step w s i)).
Proof.
  intros Hinv Hw Hsteps. destruct (input_kind i) as [[-> | ->] | [Hr Hv]].
  - simpl. unfold routes_settled. destruct (pc s) eqn:Hpcs; rewrite ?Hpcs; try exact Hsteps.
    simpl in Hsteps.
    rewrite attach_all_eq.
    destruct (registerRoutes_result w) as [e |] eqn:Hreg;
      [| unfold after_routes; simpl stack;
         destruct (development w) eqn:Hdev;
         [| destruct (serveStatic_result w) as [e |] eqn:Hstatic]];
      simpl; rewrite !init_events_app, init_events_routes, Hsteps; simpl;
      rewrite ?Hreg, ?Hdev; reflexivity.
  - simpl. unfold vite_settled. destruct (pc s) eqn:Hpcs; rewrite ?Hpcs; try exact Hsteps.
    simpl in Hsteps.
    pose proof (wired_vite w s Hw Hpcs) as Hreg.
    pose proof (inv_init w s Hinv) as Hinit. unfold init_ok in Hinit. rewrite Hpcs in Hinit.
    destruct Hinit as [Hdev _].
    destruct (setupVite_result w) as [e |] eqn:Hvite;
      [| unfold after_vite; destruct (managed_externally w) eqn:Hm];
      simpl; rewrite !init_events_app, ?Hsteps; simpl;
      rewrite ?Hreg, ?Hdev, ?Hvite, ?Hm; reflexivity.
  - destruct (request_turn_frame w s i Hr Hv) as (E & Htr & HE & _ & _ & _ & Hpc).
    now rewrite Htr, Hpc, init_events_app, (init_events_requests E HE), app_nil_r.
Qed.

Lemma steps_run (w : world) (inputs : list input) (s : state) :
  invariant w s -> wiring_ok w s ->
  init_events (trace s) = steps_taken w (pc s) ->
  init_events (trace (run w s inputs)) = steps_taken w (pc (run w s inputs)).
Proof.
  revert s. induction inputs as [| i inputs IH]; intros s Hinv Hw Hsteps; [exact Hsteps |].
  simpl. apply IH; [now apply invariant_step | now apply wiring_step | now apply steps_step].
Qed.

Lemma steps_load (w : world) :
  init_events (trace (module_load w)) = steps_taken w (pc (module_load w)).
Proof.
  pose proof (inv_init w _ (invariant_load w)) as Hinit. unfold init_ok in Hinit.
  rewrite module_load_eq in *. exact Hinit.
Qed.

(** C8.  Whatever the requests and whatever the order of the turns:

    - the steps taken are exactly those of the place where the
      initialization function stands: [registerRoutes] alone while it is
      awaited; then, in this order, the error handler, the resolution of the
      mode and the wiring of the mode, as far as the collaborators let the
      function go; after a success they are the whole sequence;
    - the function returns once the promises it awaits have settled;
    - [registerRoutes] has been called exactly once and [listen] at most
      once;
    - the promise has settled at most once, exactly once when the function
      has returned, with the outcome of the collaborators, and once settled
      it keeps its outcome and its steps in every later state. *)
Theorem initialization_runs_once (w : world) (inputs more : list input) :
  let s := run w (module_load w) inputs in
  init_events (trace s) = steps_taken w (pc s)
  /\ init_events (trace s) `prefix_of` sequence w
  /\ (initializationPromise s = Fulfilled -> init_events (trace s) = sequence w)
  /\ pc (run w s [RoutesSettled; ViteSettled]) = Returned
  /\ count is_register_routes (trace s) = 1%nat
  /\ (count is_listen (trace s) <= 1)%nat
  /\ (count is_settle (trace s) <= 1)%nat
  /\ (pc s = Returned ->
      count is_settle (trace s) = 1%nat /\ initializationPromise s = settled_outcome w)
  /\ (pc s <> Returned -> initializationPromise s = Pending)
  /\ (initializationPromise s <> Pending ->
      initializationPromise (run w s more) = initializationPromise s
      /\ init_events (trace (run w s more)) = init_events (trace s)).
Proof.
  intros s. pose proof (reachable_run w inputs) as Hinv.
  pose proof (wiring_reachable w inputs) as Hw. fold s in Hinv, Hw.
  destruct (attempted_once w inputs more)
    as (Hprefix & Hreg & Hlisten & Hsettle & Hone & Hfinal).
  fold s in Hprefix, Hreg, Hlisten, Hsettle, Hone, Hfinal.
  split; [| split; [exact Hprefix | split; [| split; [apply settled_returns |]]]].
  - apply steps_run; [apply invariant_load | apply wiring_load | apply steps_load].
  - intros Hp.
    assert (Hpc : pc s = Returned) by (apply (inv_pc w s Hinv); congruence).
    pose proof (inv_init w s Hinv) as Hinit. unfold init_ok in Hinit. rewrite Hpc in Hinit.
    now apply Hinit.
  - split; [exact Hreg | split; [exact Hlisten | split; [exact Hsettle |]]].
    split; [| split; [| exact Hfinal]].
    + intros Hpc. split; [now apply Hone | now apply (wired_outcome w s Hw)].
    + intros Hpc. now apply (pending_of_pc w s Hinv).
Qed.

End SequenceFacts.
